(** * Ray / Bezier-curve intersection (foundation/math/beziercurve.h)

    A shallow embedding of [BezierCurveBase<T, N>], [BezierCurve1/2/3<T>] and
    [BezierCurveIntersector<BezierCurveType>].  The template parameter [T]
    (the scalar [ValueType]) is instantiated with the real numbers: every
    arithmetic operation of the source is read as the exact operation on [R],
    so rounding is outside this model.  The one division whose divisor the
    source allows to be zero, in [compute_max_recursion_depth], and the
    logarithm taken of its quotient are computed on the extended scalars of
    module [Ext], which carry the infinities and the NaN of the source's
    floating-point type. *)

From Stdlib Require Import Reals Lra Lia List ZArith Bool.
Import ListNotations.

Open Scope R_scope.

(** ** Scalar helpers (foundation/math/scalar.h, foundation/math/minmax.h) *)

Definition Rltb (a b : R) : bool := if Rlt_dec a b then true else false.
Definition Rleb (a b : R) : bool := if Rle_dec a b then true else false.
Definition Rgtb (a b : R) : bool := Rltb b a.
Definition Rgeb (a b : R) : bool := Rleb b a.

(** Modelled from the spec: [clamp] of scalar.h, which is not among the
    sources; the spec's "clamp(..., 0, 5)". *)
Definition clamp (x lo hi : R) : R :=
  if Rleb x lo then lo else if Rgeb x hi then hi else x.

(** Modelled from the spec: [saturate] of scalar.h, which is not among the
    sources; the spec's "clamp [w] to [0,1] (saturate)". *)
Definition saturate (x : R) : R := clamp x 0 1.

(** Modelled from the spec: [truncate<Int>] of scalar.h, which is not among
    the sources; the spec's "truncated toward zero". *)
Definition truncate_Z (x : R) : Z :=
  if Rleb 0 x then Int_part x else (- Int_part (- x))%Z.

(** The instance [truncate<size_t>] used by the source. *)
Definition truncate (x : R) : nat := Z.to_nat (truncate_Z x).

(** Modelled from the spec: the three-argument [max] of minmax.h, which is
    not among the sources; the spec's "maximum over ..." of three values. *)
Definition max3 (a b c : R) : R := Rmax (Rmax a b) c.

(** Modelled from the spec: the constants [SqrtTwo] and [HalfPi] of scalar.h,
    which is not among the sources; the spec's "sqrt 2" and "90 degrees". *)
Definition SqrtTwo : R := sqrt 2.
Definition HalfPi : R := PI / 2.

(** ** Extended scalars

    The values a floating-point expression can take when its operands are
    exact: a number, an infinity of either sign, or NaN.  [div], [log] and
    [mul] follow IEEE 754 at the exceptional operands ([x / 0] is an infinity
    of the sign of [x], [0 / 0] is NaN, [log 0] is minus infinity, [log] of a
    negative number is NaN, [log] of plus infinity is plus infinity); a zero
    divisor is the positive zero. *)

Module Ext.

Inductive t : Type :=
| Fin (r : R)
| PosInf
| NegInf
| NaN.

(** [a / b] on two numbers. *)
Definition div (a b : R) : t :=
  if Req_dec_T b 0 then
    if Rltb 0 a then PosInf else if Rltb a 0 then NegInf else NaN
  else Fin (a / b).

(** [std::log]. *)
Definition log (x : t) : t :=
  match x with
  | Fin r => if Rltb 0 r then Fin (ln r) else if Rltb r 0 then NaN else NegInf
  | PosInf => PosInf
  | NegInf => NaN
  | NaN => NaN
  end.

(** [x * k] for a number [k]. *)
Definition mul (x : t) (k : R) : t :=
  match x with
  | Fin r => Fin (r * k)
  | PosInf => if Rltb 0 k then PosInf else if Rltb k 0 then NegInf else NaN
  | NegInf => if Rltb 0 k then NegInf else if Rltb k 0 then PosInf else NaN
  | NaN => NaN
  end.

(** Modelled from the spec: [clamp] of scalar.h, which is not among the
    sources, on an extended scalar; the spec's "clamp(..., 0, 5)".  The
    comparisons of [clamp] send the infinities to the bounds and are false on
    NaN, which is returned. *)
Definition clamp (x : t) (lo hi : R) : t :=
  match x with
  | Fin r => Fin (clamp r lo hi)
  | PosInf => Fin hi
  | NegInf => Fin lo
  | NaN => NaN
  end.

(** Modelled from the spec: [truncate<size_t>] of scalar.h, which is not
    among the sources, on an extended scalar; the spec's "truncated toward
    zero".  The conversion of NaN or of an infinity to an integer has no
    defined result in C++; 0 is returned here, and [truncate_defined] marks
    the arguments with a defined result. *)
Definition truncate (x : t) : nat :=
  match x with
  | Fin r => truncate r
  | _ => 0%nat
  end.

Definition truncate_defined (x : t) : Prop :=
  match x with
  | Fin _ => True
  | _ => False
  end.

End Ext.

(** ** Fixed-size arrays [A a[n]] *)

Fixpoint array (A : Type) (n : nat) : Type :=
  match n with
  | O => unit
  | S n' => (A * array A n')%type
  end.

Fixpoint get {A : Type} {n : nat} (d : A) : array A n -> nat -> A :=
  match n with
  | O => fun _ _ => d
  | S n' => fun a i =>
      match i with
      | O => fst a
      | S i' => get d (snd a) i'
      end
  end.

Fixpoint amap {A B : Type} {n : nat} (f : A -> B) : array A n -> array B n :=
  match n with
  | O => fun _ => tt
  | S n' => fun a => (f (fst a), amap f (snd a))
  end.

Fixpoint afill {A : Type} (n : nat) (v : A) : array A n :=
  match n with
  | O => tt
  | S n' => (v, afill n' v)
  end.

Definition arr2 {A : Type} (a b : A) : array A 2 := (a, (b, tt)).
Definition arr3 {A : Type} (a b c : A) : array A 3 := (a, (b, (c, tt))).
Definition arr4 {A : Type} (a b c d : A) : array A 4 := (a, (b, (c, (d, tt)))).

(** ** Vectors (foundation/math/vector.h) *)

(** Modelled from the spec: [Vector<T, 3>] and [Vector<T, 4>] of vector.h,
    which is not among the sources: "3D points" with component-wise
    arithmetic, the Euclidean [norm] and [normalize]. *)
Module Vector3.

Record t : Type := mk { x : R; y : R; z : R }.

Definition zero : t := mk 0 0 0.
Definition splat (s : R) : t := mk s s s.
Definition add (a b : t) : t := mk (x a + x b) (y a + y b) (z a + z b).
Definition sub (a b : t) : t := mk (x a - x b) (y a - y b) (z a - z b).
Definition neg (a : t) : t := mk (- x a) (- y a) (- z a).
Definition mul (a : t) (s : R) : t := mk (x a * s) (y a * s) (z a * s).
Definition div (a : t) (s : R) : t := mk (x a / s) (y a / s) (z a / s).
Definition dot (a b : t) : R := x a * x b + y a * y b + z a * z b.
Definition norm (a : t) : R := sqrt (dot a a).
Definition normalize (a : t) : t := div a (norm a).

End Vector3.

Module Vector4.
Record t : Type := mk { x : R; y : R; z : R; w : R }.
End Vector4.

(** ** 4x4 matrices, row-major as in [matrix[0..15]] (foundation/math/matrix.h) *)

Module Matrix.

Record t : Type := mk {
  e0  : R; e1  : R; e2  : R; e3  : R;
  e4  : R; e5  : R; e6  : R; e7  : R;
  e8  : R; e9  : R; e10 : R; e11 : R;
  e12 : R; e13 : R; e14 : R; e15 : R }.

Definition identity : t :=
  mk 1 0 0 0
     0 1 0 0
     0 0 1 0
     0 0 0 1.

(** Modelled from the spec: [Matrix::operator*] on a 4-vector, of matrix.h,
    which is not among the sources: the product of the row-major matrix with
    the column vector (the "point transform" before the homogeneous divide). *)
Definition mulv (m : t) (p : Vector4.t) : Vector4.t :=
  let '(Vector4.mk px py pz pw) := p in
  Vector4.mk
    (e0  m * px + e1  m * py + e2  m * pz + e3  m * pw)
    (e4  m * px + e5  m * py + e6  m * pz + e7  m * pw)
    (e8  m * px + e9  m * py + e10 m * pz + e11 m * pw)
    (e12 m * px + e13 m * py + e14 m * pz + e15 m * pw).

(** Modelled from the spec: [Matrix::rotation_x] of matrix.h, which is not
    among the sources: the "fixed rotation" about the x axis by [angle]. *)
Definition rotation_x (angle : R) : t :=
  mk 1 0 0 0
     0 (cos angle) (- sin angle) 0
     0 (sin angle) (cos angle) 0
     0 0 0 1.

End Matrix.

(** ** Axis-aligned bounding boxes (foundation/math/aabb.h) *)

Module AABB.

Record t : Type := mk { min : Vector3.t; max : Vector3.t }.

(** Modelled from the spec: [AABB::invalidate] followed by a first
    [AABB::insert], of aabb.h, which is not among the sources: the degenerate
    box at that point. *)
Definition of_point (p : Vector3.t) : t := mk p p.

(** Modelled from the spec: [AABB::insert] of aabb.h, which is not among the
    sources: the box is extended to the "axis-aligned bound" of its points. *)
Definition insert (b : t) (p : Vector3.t) : t :=
  mk (Vector3.mk (Rmin (Vector3.x (min b)) (Vector3.x p))
                 (Rmin (Vector3.y (min b)) (Vector3.y p))
                 (Rmin (Vector3.z (min b)) (Vector3.z p)))
     (Vector3.mk (Rmax (Vector3.x (max b)) (Vector3.x p))
                 (Rmax (Vector3.y (max b)) (Vector3.y p))
                 (Rmax (Vector3.z (max b)) (Vector3.z p))).

(** Modelled from the spec: [AABB::grow] of aabb.h, which is not among the
    sources: the box is "expanded by" a vector on both sides. *)
Definition grow (b : t) (v : Vector3.t) : t :=
  mk (Vector3.sub (min b) v) (Vector3.add (max b) v).

(** Modelled from the spec: [AABB::robust_grow] of aabb.h, which is not among
    the sources: the box is "grown by a small robustness epsilon". *)
Definition robust_grow (b : t) (eps : R) : t :=
  grow b (Vector3.splat eps).

(** A point lies in a box. *)
Definition contains (b : t) (p : Vector3.t) : Prop :=
  Vector3.x (min b) <= Vector3.x p <= Vector3.x (max b) /\
  Vector3.y (min b) <= Vector3.y p <= Vector3.y (max b) /\
  Vector3.z (min b) <= Vector3.z p <= Vector3.z (max b).

End AABB.

(** ** Rays (foundation/math/ray.h) *)

(** Modelled from the spec: [Ray<T, 3>] of ray.h, which is not among the
    sources: "origin + direction". *)
Record Ray : Type := mkRay { m_org : Vector3.t; m_dir : Vector3.t }.

(** ** Bezier interpolation (foundation/math/bezier.h) *)

(** The values the interpolation is instantiated with (scalars and vectors):
    addition and multiplication by a scalar. *)
Class Blend (V : Type) : Type := {
  vadd : V -> V -> V;
  vscale : R -> V -> V }.

#[export] Instance Blend_R : Blend R :=
  {| vadd := Rplus; vscale := Rmult |}.

#[export] Instance Blend_Vector3 : Blend Vector3.t :=
  {| vadd := Vector3.add; vscale := fun s v => Vector3.mul v s |}.

(** Modelled from the spec: [interpolate_bezier1] of bezier.h, which is not
    among the sources; "exact Bezier evaluation using the standard
    degree-specific blending", here the linear Bernstein form. *)
Definition interpolate_bezier1 {V : Type} `{Blend V} (v0 v1 : V) (t : R) : V :=
  vadd (vscale (1 - t) v0) (vscale t v1).

(** Modelled from the spec: [interpolate_bezier2] of bezier.h, which is not
    among the sources; the quadratic Bernstein form. *)
Definition interpolate_bezier2 {V : Type} `{Blend V} (v0 v1 v2 : V) (t : R) : V :=
  let u := 1 - t in
  vadd (vadd (vscale (u * u) v0) (vscale (2 * u * t) v1)) (vscale (t * t) v2).

(** Modelled from the spec: [interpolate_bezier3] of bezier.h, which is not
    among the sources; the cubic Bernstein form. *)
Definition interpolate_bezier3 {V : Type} `{Blend V} (v0 v1 v2 v3 : V) (t : R) : V :=
  let u := 1 - t in
  vadd (vadd (vadd (vscale (u * u * u) v0) (vscale (3 * u * u * t) v1))
             (vscale (3 * u * t * t) v2))
       (vscale (t * t * t) v3).

(** ** [BezierCurveBase<T, N>] *)

Record BezierCurveBase (N : nat) : Type := mkBase {
  m_ctrl_pts : array Vector3.t (S N);   (* control points of the curve *)
  m_width : array R (S N);              (* per-control point widths *)
  m_max_width : R;                      (* maximum control point width *)
  m_bbox : AABB.t                       (* bounding box of the curve *)
}.

Arguments mkBase {N} _ _ _ _.
Arguments m_ctrl_pts {N} _.
Arguments m_width {N} _.
Arguments m_max_width {N} _.
Arguments m_bbox {N} _.

Section Base.

Context {N : nat}.

Definition transform_point (xfm : Matrix.t) (p : Vector3.t) : Vector3.t :=
  let pt := Vector4.mk (Vector3.x p) (Vector3.y p) (Vector3.z p) 1 in
  let xpt := Matrix.mulv xfm pt in
  let rcp_w := 1 / Vector4.w xpt in
  Vector3.mk (Vector4.x xpt * rcp_w) (Vector4.y xpt * rcp_w) (Vector4.z xpt * rcp_w).

(** The [assert(xpt.w != 0)] of [transform_point]. *)
Definition transform_point_pre (xfm : Matrix.t) (p : Vector3.t) : Prop :=
  Vector4.w (Matrix.mulv xfm
    (Vector4.mk (Vector3.x p) (Vector3.y p) (Vector3.z p) 1)) <> 0.

Definition compute_max_width (width : array R (S N)) : R :=
  fold_left (fun m i => Rmax m (get 0 width i)) (seq 1 N) (get 0 width 0%nat).

Definition compute_bbox (ctrl_pts : array Vector3.t (S N)) (max_width : R) : AABB.t :=
  let b0 := AABB.of_point (get Vector3.zero ctrl_pts 0%nat) in
  let b1 := fold_left (fun b i => AABB.insert b (get Vector3.zero ctrl_pts i))
                      (seq 1 N) b0 in
  let b2 := AABB.grow b1 (Vector3.splat (max_width * 0.5)) in
  AABB.robust_grow b2 1.0e-4.

(** Common tail of the constructors and of [split]: the control data are
    stored, then [compute_max_width(); compute_bbox();] run. *)
Definition make_curve (ctrl_pts : array Vector3.t (S N)) (width : array R (S N))
  : BezierCurveBase N :=
  let mw := compute_max_width width in
  mkBase ctrl_pts width mw (compute_bbox ctrl_pts mw).

(** [BezierCurveBase(ctrl_pts, width)] *)
Definition BezierCurveBase_uniform (ctrl_pts : array Vector3.t (S N)) (width : R)
  : BezierCurveBase N :=
  make_curve ctrl_pts (afill (S N) width).

(** [BezierCurveBase(ctrl_pts, width[])] *)
Definition BezierCurveBase_widths (ctrl_pts : array Vector3.t (S N))
  (width : array R (S N)) : BezierCurveBase N :=
  make_curve ctrl_pts width.

(** [BezierCurveBase(curve, xfm)] *)
Definition BezierCurveBase_xfm (curve : BezierCurveBase N) (xfm : Matrix.t)
  : BezierCurveBase N :=
  make_curve (amap (transform_point xfm) (m_ctrl_pts curve)) (m_width curve).

Definition get_control_point_count : nat := N + 1.

Definition get_control_point (c : BezierCurveBase N) (index : nat) : Vector3.t :=
  get Vector3.zero (m_ctrl_pts c) index.

Definition get_width (c : BezierCurveBase N) (index : nat) : R :=
  get 0 (m_width c) index.

Definition get_max_width (c : BezierCurveBase N) : R := m_max_width c.

Definition get_bbox (c : BezierCurveBase N) : AABB.t := m_bbox c.

(** Second difference of the control points [i], [i+1], [i+2] on one axis. *)
Definition second_diff (c : BezierCurveBase N) (axis : Vector3.t -> R) (i : nat) : R :=
  Rabs (axis (get_control_point c i)
        - 2 * axis (get_control_point c (i + 1))
        + axis (get_control_point c (i + 2))).

Definition RcpLog4 : R := 0.7213475204444817.

Definition compute_max_recursion_depth (c : BezierCurveBase N) : nat :=
  if (N <? 2)%nat then 0%nat
  else
    let l0 := Rmax (second_diff c Vector3.x 0) (second_diff c Vector3.y 0) in
    let l0 := fold_left
                (fun l i => max3 l (second_diff c Vector3.x i) (second_diff c Vector3.y i))
                (seq 1 (N - 2)) l0 in
    let epsilon := m_max_width c * 0.05 in
    let value := Ext.div (SqrtTwo * INR N * INR (N - 1) * l0) (8 * epsilon) in
    let r0 := Ext.mul (Ext.log value) RcpLog4 in
    let clamped_r0 := Ext.clamp r0 0 5 in
    Ext.truncate clamped_r0.

End Base.

(** ** The curve types [BezierCurve1/2/3<T>]

    The derived classes add no data to the base class; what they add is the
    degree-specific evaluation and split, collected in a class that plays the
    role of the template parameter [BezierCurveType] of the intersector. *)

Class BezierCurveType (N : nat) : Type := {
  evaluate_point : BezierCurveBase N -> R -> Vector3.t;
  evaluate_width : BezierCurveBase N -> R -> R;
  split : BezierCurveBase N -> BezierCurveBase N * BezierCurveBase N }.

Definition Degree {N : nat} `{BezierCurveType N} : nat := N.

(** *** Degree 1 Bezier curve (a straight line) *)

Module Curve1.

Definition evaluate_point (c : BezierCurveBase 1) (t : R) : Vector3.t :=
  interpolate_bezier1 (get_control_point c 0) (get_control_point c 1) t.

Definition evaluate_width (c : BezierCurveBase 1) (t : R) : R :=
  interpolate_bezier1 (get_width c 0) (get_width c 1) t.

Definition split (c : BezierCurveBase 1) : BezierCurveBase 1 * BezierCurveBase 1 :=
  let midpt := evaluate_point c 0.5 in
  let midw := evaluate_width c 0.5 in
  let c1 := make_curve (arr2 (get_control_point c 0) midpt)
                       (arr2 (get_width c 0) midw) in
  let c2 := make_curve (arr2 midpt (get_control_point c 1))
                       (arr2 midw (get_width c 1)) in
  (c1, c2).

End Curve1.

#[export] Instance BezierCurve1 : BezierCurveType 1 :=
  {| evaluate_point := Curve1.evaluate_point;
     evaluate_width := Curve1.evaluate_width;
     split := Curve1.split |}.

(** *** Degree 2 Bezier curve *)

Module Curve2.

Definition evaluate_point (c : BezierCurveBase 2) (t : R) : Vector3.t :=
  interpolate_bezier2
    (get_control_point c 0) (get_control_point c 1) (get_control_point c 2) t.

Definition evaluate_width (c : BezierCurveBase 2) (t : R) : R :=
  interpolate_bezier2 (get_width c 0) (get_width c 1) (get_width c 2) t.

Definition split (c : BezierCurveBase 2) : BezierCurveBase 2 * BezierCurveBase 2 :=
  let midpt := evaluate_point c 0.5 in
  let midw := evaluate_width c 0.5 in
  let c1 :=
    make_curve
      (arr3 (get_control_point c 0)
            (Vector3.mul (Vector3.add (get_control_point c 0) (get_control_point c 1)) 0.5)
            midpt)
      (arr3 (get_width c 0)
            ((get_width c 0 + get_width c 1) * 0.5)
            midw) in
  let c2 :=
    make_curve
      (arr3 midpt
            (Vector3.mul (Vector3.add (get_control_point c 1) (get_control_point c 2)) 0.5)
            (get_control_point c 2))
      (arr3 midw
            ((get_width c 1 + get_width c 2) * 0.5)
            (get_width c 2)) in
  (c1, c2).

End Curve2.

#[export] Instance BezierCurve2 : BezierCurveType 2 :=
  {| evaluate_point := Curve2.evaluate_point;
     evaluate_width := Curve2.evaluate_width;
     split := Curve2.split |}.

(** *** Degree 3 Bezier curve *)

Module Curve3.

Definition evaluate_point (c : BezierCurveBase 3) (t : R) : Vector3.t :=
  interpolate_bezier3
    (get_control_point c 0) (get_control_point c 1)
    (get_control_point c 2) (get_control_point c 3) t.

Definition evaluate_width (c : BezierCurveBase 3) (t : R) : R :=
  interpolate_bezier3
    (get_width c 0) (get_width c 1) (get_width c 2) (get_width c 3) t.

Definition split (c : BezierCurveBase 3) : BezierCurveBase 3 * BezierCurveBase 3 :=
  let midpt := evaluate_point c 0.5 in
  let midw := evaluate_width c 0.5 in
  let mc0 := Vector3.mul (Vector3.add (get_control_point c 0) (get_control_point c 1)) 0.5 in
  let mc1 := Vector3.mul (Vector3.add (get_control_point c 1) (get_control_point c 2)) 0.5 in
  let mc2 := Vector3.mul (Vector3.add (get_control_point c 2) (get_control_point c 3)) 0.5 in
  let mw0 := (get_width c 0 + get_width c 1) * 0.5 in
  let mw1 := (get_width c 1 + get_width c 2) * 0.5 in
  let mw2 := (get_width c 2 + get_width c 3) * 0.5 in
  let c1 :=
    make_curve
      (arr4 (get_control_point c 0) mc0 (Vector3.mul (Vector3.add mc0 mc1) 0.5) midpt)
      (arr4 (get_width c 0) mw0 ((mw0 + mw1) * 0.5) midw) in
  let c2 :=
    make_curve
      (arr4 midpt (Vector3.mul (Vector3.add mc1 mc2) 0.5) mc2 (get_control_point c 3))
      (arr4 midw ((mw1 + mw2) * 0.5) mw2 (get_width c 3)) in
  (c1, c2).

End Curve3.

#[export] Instance BezierCurve3 : BezierCurveType 3 :=
  {| evaluate_point := Curve3.evaluate_point;
     evaluate_width := Curve3.evaluate_width;
     split := Curve3.split |}.

(** ** [BezierCurveIntersector<BezierCurveType>] *)

Section Intersector.

Context {N : nat} `{BezierCurveType N}.

(** Dot product that only considers the x and y components of the vectors. *)
Definition dotxy (lhs rhs : Vector3.t) : R :=
  Vector3.x lhs * Vector3.x rhs + Vector3.y lhs * Vector3.y rhs.

(** The two branches that build the rotation matrix. *)
Definition facing_rotation_general (rdir : Vector3.t) (d : R) : Matrix.t :=
  let rcp_d := 1 / d in
  Matrix.mk
    (Vector3.z rdir * rcp_d) 0 ((- Vector3.x rdir) * rcp_d) 0
    ((- (Vector3.x rdir * Vector3.y rdir)) * rcp_d) d
      ((- (Vector3.y rdir * Vector3.z rdir)) * rcp_d) 0
    (Vector3.x rdir) (Vector3.y rdir) (Vector3.z rdir) 0
    0 0 0 1.

Definition facing_rotation_fallback (rdir : Vector3.t) : Matrix.t :=
  let angle := if Rgtb (Vector3.y rdir) 0 then HalfPi else - HalfPi in
  Matrix.rotation_x angle.

(** Right-multiply the rotation matrix by a translation matrix:
    the assignments to [matrix[3]], [matrix[7]] and [matrix[11]]. *)
Definition translate_by_origin (matrix : Matrix.t) (org : Vector3.t) : Matrix.t :=
  let ox := Vector3.x org in
  let oy := Vector3.y org in
  let oz := Vector3.z org in
  Matrix.mk
    (Matrix.e0 matrix) (Matrix.e1 matrix) (Matrix.e2 matrix)
      (- (Matrix.e0 matrix * ox + Matrix.e1 matrix * oy + Matrix.e2 matrix * oz))
    (Matrix.e4 matrix) (Matrix.e5 matrix) (Matrix.e6 matrix)
      (- (Matrix.e4 matrix * ox + Matrix.e5 matrix * oy + Matrix.e6 matrix * oz))
    (Matrix.e8 matrix) (Matrix.e9 matrix) (Matrix.e10 matrix)
      (- (Matrix.e8 matrix * ox + Matrix.e9 matrix * oy + Matrix.e10 matrix * oz))
    (Matrix.e12 matrix) (Matrix.e13 matrix) (Matrix.e14 matrix) (Matrix.e15 matrix).

(** The x/z projection length [d] of the normalized ray direction. *)
Definition facing_d (ray : Ray) : R :=
  let rdir := Vector3.normalize (m_dir ray) in
  sqrt (Vector3.x rdir * Vector3.x rdir + Vector3.z rdir * Vector3.z rdir).

(** Compute the transformation matrix required for ray-curve intersection. *)
Definition make_facing_curve_transform (ray : Ray) : Matrix.t :=
  let rdir := Vector3.normalize (m_dir ray) in
  let d := facing_d ray in
  let matrix :=
    if Rgeb d 1.0e-6
    then facing_rotation_general rdir d
    else facing_rotation_fallback rdir in
  translate_by_origin matrix (m_org ray).

(** The six-sided rejection test at the head of [converge]. *)
Definition culled (curve : BezierCurveBase N) (t : R) : bool :=
  let bbox := get_bbox curve in
  let half_width := get_max_width curve * 0.5 in
  Rgeb (Vector3.z (AABB.min bbox)) t || Rleb (Vector3.z (AABB.max bbox)) 1.0e-6 ||
  Rgeb (Vector3.x (AABB.min bbox)) half_width || Rleb (Vector3.x (AABB.max bbox)) (- half_width) ||
  Rgeb (Vector3.y (AABB.min bbox)) half_width || Rleb (Vector3.y (AABB.max bbox)) (- half_width).

(** First half of the [depth == 0] branch: the two end-tangent tests and the
    closest-approach parameter [w] on the segment; [None] stands for the
    three [return false] of that part. *)
Definition segment_w (curve : BezierCurveBase N) : option R :=
  let cp0 := get_control_point curve 0 in
  let cpn := get_control_point curve Degree in
  let dir := Vector3.sub cpn cp0 in
  let dp0 := Vector3.sub (get_control_point curve 1) cp0 in
  let dp0 := if Rltb (dotxy dir dp0) 0 then Vector3.neg dp0 else dp0 in
  if Rgtb (dotxy dp0 cp0) 0 then None
  else
    let dpn := Vector3.sub cpn (get_control_point curve (Degree - 1)) in
    let dpn := if Rltb (dotxy dir dpn) 0 then Vector3.neg dpn else dpn in
    if Rltb (dotxy dpn cpn) 0 then None
    else
      let w := Vector3.x dir * Vector3.x dir + Vector3.y dir * Vector3.y dir in
      if Rltb w 1.0e-6 then None
      else
        let w := (- (Vector3.x cp0 * Vector3.x dir + Vector3.y cp0 * Vector3.y dir)) / w in
        Some (saturate w).

(** The quantities of the second half of the [depth == 0] branch. *)
Definition hit_point (original_curve : BezierCurveBase N) (xfm : Matrix.t)
  (v0 vn w : R) : Vector3.t :=
  let v := v0 * (1 - w) + vn * w in
  let orig_p := evaluate_point original_curve v in
  transform_point xfm orig_p.

Definition hit_half_width (curve : BezierCurveBase N) (w : R) : R :=
  0.5 * evaluate_width curve w.

(** Second half of the [depth == 0] branch: depth and radius tests, and the
    write to [t] on success. *)
Definition accept_hit (original_curve curve : BezierCurveBase N) (xfm : Matrix.t)
  (v0 vn w t : R) : bool * R :=
  let p := hit_point original_curve xfm v0 vn w in
  if Rleb (Vector3.z p) 1.0e-6 || Rltb t (Vector3.z p) then (false, t)
  else
    let half_width := hit_half_width curve w in
    if Rgeb (Vector3.x p * Vector3.x p + Vector3.y p * Vector3.y p)
            (half_width * half_width)
    then (false, t)
    else (true, Vector3.z p).

Definition converge_leaf (original_curve curve : BezierCurveBase N) (xfm : Matrix.t)
  (v0 vn t : R) : bool * R :=
  match segment_w curve with
  | None => (false, t)
  | Some w => accept_hit original_curve curve xfm v0 vn w t
  end.

(** [converge]: the reference parameter [t] is threaded through the calls;
    the result pairs the returned flag with the final value of [t]. *)
Fixpoint converge (depth : nat) (original_curve curve : BezierCurveBase N)
  (xfm : Matrix.t) (v0 vn t : R) {struct depth} : bool * R :=
  if culled curve t then (false, t)
  else
    match depth with
    | S depth' =>
        let (c1, c2) := split curve in
        let vm := (v0 + vn) * 0.5 in
        let (found, t1) := converge depth' original_curve c1 xfm v0 vm t in
        if found then (true, t1)
        else converge depth' original_curve c2 xfm vm vn t1
    | O => converge_leaf original_curve curve xfm v0 vn t
    end.

Definition intersect (curve : BezierCurveBase N) (ray : Ray) (xfm : Matrix.t)
  (t : R) : bool * R :=
  let xfm_curve := BezierCurveBase_xfm curve xfm in
  let depth := compute_max_recursion_depth xfm_curve in
  let (found, t') := converge depth curve xfm_curve xfm 0 1 t in
  if found then (true, t' / Vector3.norm (m_dir ray)) else (false, t').

End Intersector.

(** ** The recursion of [converge] as a call relation

    [recursive_call a b]: the activation [a] of [converge] makes the recursive
    call [b].  The second call of an activation is only made when the first
    one returned [false] (short-circuit [||]), with the value of [t] the first
    one left behind. *)

Section CallTree.

Context {N : nat} `{BezierCurveType N}.
Variable original_curve : BezierCurveBase N.
Variable xfm : Matrix.t.

Record Call : Type := mkCall {
  call_depth : nat;
  call_curve : BezierCurveBase N;
  call_v0 : R;
  call_vn : R;
  call_t : R }.

Inductive recursive_call : Call -> Call -> Prop :=
| call_first depth curve v0 vn t :
    culled curve t = false ->
    recursive_call (mkCall (S depth) curve v0 vn t)
                   (mkCall depth (fst (split curve)) v0 ((v0 + vn) * 0.5) t)
| call_second depth curve v0 vn t t1 :
    culled curve t = false ->
    converge depth original_curve (fst (split curve)) xfm v0 ((v0 + vn) * 0.5) t
      = (false, t1) ->
    recursive_call (mkCall (S depth) curve v0 vn t)
                   (mkCall depth (snd (split curve)) ((v0 + vn) * 0.5) vn t1).

(** [call_chain n a b]: [b] is nested [n] levels below [a]. *)
Inductive call_chain : nat -> Call -> Call -> Prop :=
| chain_here a : call_chain 0 a a
| chain_down n a b c :
    recursive_call a b -> call_chain n b c -> call_chain (S n) a c.

(** The activation of [converge] started by [intersect]. *)
Definition initial_call (curve : BezierCurveBase N) (t : R) : Call :=
  let xfm_curve := BezierCurveBase_xfm curve xfm in
  mkCall (compute_max_recursion_depth xfm_curve) xfm_curve 0 1 t.

End CallTree.

(** ** [intersect] on the memory of its caller

    The parameters [curve], [ray] and [xfm] of [intersect], and
    [original_curve] and [xfm] of [converge], are const references to objects
    of the caller; [t] is a reference the callee reads and writes through.
    The memory of the caller is a value of an arbitrary type [Mem].  A const
    reference is the function that reads its object out of a memory; the
    reference [t] is a [Ref]: a read and a write.  [converge_mem] and
    [intersect_mem] run the statements of [converge] and [intersect] on a
    memory: an object behind a reference is read from the current memory at
    the statement that uses it, and the memory changes at the two assignments
    to [t] of the source, [t = p.z] and [t /= norm(ray.m_dir)], and nowhere
    else.  The objects the callee creates itself ([xfm_curve], [c1], [c2]) and
    the parameters passed by value are values, as in the functions above. *)

Section Memory.

Context {N : nat} `{BezierCurveType N}.
Variable Mem : Type.

Record Ref (A : Type) : Type := mkRef {
  load : Mem -> A;
  store : A -> Mem -> Mem }.

Arguments load {A} _ _.
Arguments store {A} _ _ _.

Definition accept_hit_mem (original_curve : Mem -> BezierCurveBase N)
  (curve : BezierCurveBase N) (xfm : Mem -> Matrix.t) (v0 vn w : R)
  (t : Ref R) (m : Mem) : bool * Mem :=
  let p := hit_point (original_curve m) (xfm m) v0 vn w in
  if Rleb (Vector3.z p) 1.0e-6 || Rltb (load t m) (Vector3.z p) then (false, m)
  else
    let half_width := hit_half_width curve w in
    if Rgeb (Vector3.x p * Vector3.x p + Vector3.y p * Vector3.y p)
            (half_width * half_width)
    then (false, m)
    else (true, store t (Vector3.z p) m).

Definition converge_leaf_mem (original_curve : Mem -> BezierCurveBase N)
  (curve : BezierCurveBase N) (xfm : Mem -> Matrix.t) (v0 vn : R)
  (t : Ref R) (m : Mem) : bool * Mem :=
  match segment_w curve with
  | None => (false, m)
  | Some w => accept_hit_mem original_curve curve xfm v0 vn w t m
  end.

Fixpoint converge_mem (depth : nat) (original_curve : Mem -> BezierCurveBase N)
  (curve : BezierCurveBase N) (xfm : Mem -> Matrix.t) (v0 vn : R)
  (t : Ref R) (m : Mem) {struct depth} : bool * Mem :=
  if culled curve (load t m) then (false, m)
  else
    match depth with
    | S depth' =>
        let (c1, c2) := split curve in
        let vm := (v0 + vn) * 0.5 in
        let (found, m1) := converge_mem depth' original_curve c1 xfm v0 vm t m in
        if found then (true, m1)
        else converge_mem depth' original_curve c2 xfm vm vn t m1
    | O => converge_leaf_mem original_curve curve xfm v0 vn t m
    end.

Definition intersect_mem (curve : Mem -> BezierCurveBase N) (ray : Mem -> Ray)
  (xfm : Mem -> Matrix.t) (t : Ref R) (m : Mem) : bool * Mem :=
  let xfm_curve := BezierCurveBase_xfm (curve m) (xfm m) in
  let depth := compute_max_recursion_depth xfm_curve in
  let (found, m1) := converge_mem depth curve xfm_curve xfm 0 1 t m in
  if found
  then (true, store t (load t m1 / Vector3.norm (m_dir (ray m1))) m1)
  else (false, m1).

End Memory.

Arguments load {Mem A} _ _.
Arguments store {Mem A} _ _ _.
Arguments mkRef {Mem A} _ _.

(** ** Specification-side definitions *)

Fixpoint to_list {A : Type} {n : nat} : array A n -> list A :=
  match n with
  | O => fun _ => []
  | S n' => fun a => fst a :: to_list (snd a)
  end.

Definition Rmax_list (l : list R) : R :=
  match l with
  | [] => 0
  | a :: l' => fold_right Rmax a l'
  end.

Definition Rmin_list (l : list R) : R :=
  match l with
  | [] => 0
  | a :: l' => fold_right Rmin a l'
  end.

(** The axis-aligned bound of a set of control points. *)
Definition hull_box {n : nat} (pts : array Vector3.t n) : AABB.t :=
  let l := to_list pts in
  AABB.mk
    (Vector3.mk (Rmin_list (map Vector3.x l)) (Rmin_list (map Vector3.y l))
                (Rmin_list (map Vector3.z l)))
    (Vector3.mk (Rmax_list (map Vector3.x l)) (Rmax_list (map Vector3.y l))
                (Rmax_list (map Vector3.z l))).

(** The spec's [max_radius]: the maximum over the per-control-point values. *)
Definition max_radius {N : nat} (c : BezierCurveBase N) : R :=
  Rmax_list (to_list (m_width c)).

(** The bounding box the spec prescribes: the bound of the control points,
    expanded by [max_radius / 2], then grown by the robustness epsilon. *)
Definition spec_bbox {N : nat} (c : BezierCurveBase N) : AABB.t :=
  AABB.robust_grow
    (AABB.grow (hull_box (m_ctrl_pts c)) (Vector3.splat (max_radius c / 2)))
    1.0e-4.

Definition widths_nonneg {n : nat} (width : array R n) : Prop :=
  forall i : nat, (i < n)%nat -> 0 <= get 0 width i.

(** Curves obtained through the public interface: the two constructors from
    control data (whose assertions require non-negative widths), the transform
    constructor and [split]. *)
Inductive constructed {N : nat} `{BezierCurveType N} : BezierCurveBase N -> Prop :=
| constructed_uniform ctrl_pts width :
    0 <= width -> constructed (BezierCurveBase_uniform ctrl_pts width)
| constructed_widths ctrl_pts width :
    widths_nonneg width -> constructed (BezierCurveBase_widths ctrl_pts width)
| constructed_xfm curve xfm :
    constructed curve -> constructed (BezierCurveBase_xfm curve xfm)
| constructed_split_left curve :
    constructed curve -> constructed (fst (split curve))
| constructed_split_right curve :
    constructed curve -> constructed (snd (split curve)).

(** Split exactness for one curve type: the left child at [2t] and the right
    child at [2t - 1] both reproduce the parent at [t]. *)
Definition split_exact (N : nat) `{BezierCurveType N} : Prop :=
  forall (c : BezierCurveBase N) (t : R),
    (0 <= t <= 0.5 ->
       evaluate_point (fst (split c)) (2 * t) = evaluate_point c t) /\
    (0.5 <= t <= 1 ->
       evaluate_point (snd (split c)) (2 * t - 1) = evaluate_point c t).

(** The maximum of the code's [second_diff] over the interior control-point
    triples [i = 0 .. N-2] and over the x and y axes. *)
Definition Linf {N : nat} (c : BezierCurveBase N) : R :=
  Rmax_list
    (flat_map (fun i => [second_diff c Vector3.x i; second_diff c Vector3.y i])
              (seq 0 (N - 1))).

(** The second differences |p_i - 2 p_(i+1) + p_(i+2)| of a sequence of
    points on one axis, one for each triple of consecutive points. *)
Fixpoint second_differences (axis : Vector3.t -> R) (l : list Vector3.t) : list R :=
  match l with
  | [] => []
  | p0 :: l' =>
      match l' with
      | p1 :: p2 :: _ =>
          Rabs (axis p0 - 2 * axis p1 + axis p2) :: second_differences axis l'
      | _ => []
      end
  end.

(** The spec's L-infinity: the maximum over the interior control-point
    triples of |p_i - 2 p_(i+1) + p_(i+2)|, taken over the x and y components
    only. *)
Definition max_second_difference {N : nat} (c : BezierCurveBase N) : R :=
  let pts := to_list (m_ctrl_pts c) in
  Rmax_list (second_differences Vector3.x pts ++ second_differences Vector3.y pts).

(** The term of index [i] of the power series of [exp x]. *)
Definition exp_term (x : R) (i : nat) : R := / INR (fact i) * x ^ i.

(** The base-4 logarithm. *)
Definition log4 (v : R) : R := ln v / ln 4.

(** The spec's sqrt 2 N (N-1) Linf / (8 eps), with eps = max_radius / 20. *)
Definition spec_flatness {N : nat} (c : BezierCurveBase N) : R :=
  let eps := get_max_width c / 20 in
  sqrt 2 * INR N * (INR N - 1) * max_second_difference c / (8 * eps).

(** The spec's recursion depth: clamp(log4(sqrt 2 N (N-1) Linf / (8 eps)), 0, 5)
    truncated toward zero. *)
Definition spec_recursion_depth {N : nat} (c : BezierCurveBase N) : nat :=
  truncate (clamp (log4 (spec_flatness c)) 0 5).

(** The same depth with the logarithm taken as the natural logarithm times
    the decimal constant 0.7213475204444817. *)
Definition scaled_ln_recursion_depth {N : nat} (c : BezierCurveBase N) : nat :=
  truncate (clamp (ln (spec_flatness c) * 0.7213475204444817) 0 5).

(** The recursion depth in the words of the spec: an integer in [0,5] equal
    to the spec's formula, and 0 for degree 1. *)
Definition recursion_depth_as_stated {N : nat} (c : BezierCurveBase N) : Prop :=
  (0 <= compute_max_recursion_depth c <= 5)%nat /\
  compute_max_recursion_depth c = spec_recursion_depth c /\
  (N = 1%nat -> compute_max_recursion_depth c = 0%nat).

(** The cached fields of [c] are the ones [compute_max_width] and
    [compute_bbox] give on its control data. *)
Definition cache_current {N : nat} (c : BezierCurveBase N) : Prop :=
  c = make_curve (m_ctrl_pts c) (m_width c).

(** The bounding-box invariant for one curve type: the cached maximum and box
    of every constructed curve are current, and the box contains the curve. *)
Definition bbox_invariant (N : nat) `{BezierCurveType N} : Prop :=
  forall c : BezierCurveBase N,
    constructed c ->
    m_max_width c = max_radius c /\
    m_bbox c = spec_bbox c /\
    forall t : R, 0 <= t <= 1 -> AABB.contains (m_bbox c) (evaluate_point c t).

(** The perspective-correct point transform: the homogeneous image of [p]
    divided by its fourth coordinate. *)
Definition homogeneous_divide (xfm : Matrix.t) (p : Vector3.t) : Vector3.t :=
  let q := Matrix.mulv xfm (Vector4.mk (Vector3.x p) (Vector3.y p) (Vector3.z p) 1) in
  Vector3.mk (Vector4.x q / Vector4.w q) (Vector4.y q / Vector4.w q)
             (Vector4.z q / Vector4.w q).

(** Rotation about the x axis by +90 degrees ([s = 1]) or -90 degrees
    ([s = -1]), right-multiplied by the translation that takes [org] to the
    origin. *)
Definition quarter_turn_frame (s : R) (org : Vector3.t) : Matrix.t :=
  Matrix.mk 1 0 0 (- Vector3.x org)
            0 0 (- s) (s * Vector3.z org)
            0 s 0 (- (s * Vector3.y org))
            0 0 0 1.

(** Two curves with the same control points and widths (their cached fields
    may differ). *)
Definition same_control_data {N : nat} (c c' : BezierCurveBase N) : Prop :=
  m_ctrl_pts c = m_ctrl_pts c' /\ m_width c = m_width c'.

(** [intersect] as a function of what it is handed: equal control data, ray
    direction, transform and incoming [t] give equal results. *)
Definition intersect_determined (N : nat) `{BezierCurveType N} : Prop :=
  forall (c c' : BezierCurveBase N) (ray ray' : Ray) (xfm xfm' : Matrix.t) (t t' : R),
    same_control_data c c' -> m_dir ray = m_dir ray' -> xfm = xfm' -> t = t' ->
    intersect c ray xfm t = intersect c' ray' xfm' t'.

(** The reference [t] designates a cell of the memory: a read after a
    write gives the value written, and a write overwrites the one before. *)
Definition is_cell {Mem : Type} (t : Ref Mem R) : Prop :=
  (forall (v : R) (m : Mem), load t (store t v m) = v) /\
  (forall (u v : R) (m : Mem), store t v (store t u m) = store t v m).

(** What [g] reads of a memory is apart from the cell of [t]: no write
    through [t] changes it. *)
Definition separate {Mem A : Type} (t : Ref Mem R) (g : Mem -> A) : Prop :=
  forall (v : R) (m : Mem), g (store t v m) = g m.

(** The result of a call on the memory [m], given the flag and the final [t]
    it produces: [t] is written on success and nothing is written on a
    miss. *)
Definition written {Mem : Type} (t : Ref Mem R) (m : Mem) (r : bool * R)
  : bool * Mem :=
  (fst r, if fst r then store t (snd r) m else m).

(** Determinism: two calls of [intersect], in any two memories that hold the
    same curve, ray, transform and initial [t], return the same flag and
    leave the same [t]. *)
Definition intersect_mem_deterministic {N : nat} `{BezierCurveType N} {Mem : Type}
  (curve : Mem -> BezierCurveBase N) (ray : Mem -> Ray) (xfm : Mem -> Matrix.t)
  (t : Ref Mem R) : Prop :=
  forall m m' : Mem,
    curve m = curve m' -> ray m = ray m' -> xfm m = xfm m' ->
    load t m = load t m' ->
    fst (intersect_mem Mem curve ray xfm t m)
      = fst (intersect_mem Mem curve ray xfm t m') /\
    load t (snd (intersect_mem Mem curve ray xfm t m))
      = load t (snd (intersect_mem Mem curve ray xfm t m')).

(** Purity: a call of [intersect] leaves the curve, the ray, the transform
    and whatever else of the memory is apart from the cell of [t] as they
    were; a call that returns false leaves the whole memory as it was. *)
Definition intersect_mem_pure {N : nat} `{BezierCurveType N} {Mem : Type}
  (curve : Mem -> BezierCurveBase N) (ray : Mem -> Ray) (xfm : Mem -> Matrix.t)
  (t : Ref Mem R) : Prop :=
  forall m : Mem,
    let m' := snd (intersect_mem Mem curve ray xfm t m) in
    curve m' = curve m /\ ray m' = ray m /\ xfm m' = xfm m /\
    (forall (A : Type) (g : Mem -> A), separate t g -> g m' = g m) /\
    (fst (intersect_mem Mem curve ray xfm t m) = false -> m' = m).

(** The call on a memory returns what the function [intersect] returns on
    the values the memory holds. *)
Definition intersect_mem_agrees {N : nat} `{BezierCurveType N} {Mem : Type}
  (curve : Mem -> BezierCurveBase N) (ray : Mem -> Ray) (xfm : Mem -> Matrix.t)
  (t : Ref Mem R) : Prop :=
  forall m : Mem,
    (fst (intersect_mem Mem curve ray xfm t m),
     load t (snd (intersect_mem Mem curve ray xfm t m)))
    = intersect (curve m) (ray m) (xfm m) (load t m).

(** The base-case acceptance rule, in the words of the spec: reject when the
    depth is non-positive or not closer than the current best [t]; otherwise
    accept iff the squared planar distance is below the squared half-width. *)
Definition base_case_as_stated {N : nat} `{BezierCurveType N}
  (original_curve curve : BezierCurveBase N) (xfm : Matrix.t) (v0 vn w t : R) : Prop :=
  let p := hit_point original_curve xfm v0 vn w in
  let half_width := hit_half_width curve w in
  let dist2 := Vector3.x p * Vector3.x p + Vector3.y p * Vector3.y p in
  let result := accept_hit original_curve curve xfm v0 vn w t in
  (Vector3.z p <= 0 \/ ~ Vector3.z p < t -> result = (false, t)) /\
  (~ (Vector3.z p <= 0 \/ ~ Vector3.z p < t) ->
     (dist2 < half_width * half_width -> result = (true, Vector3.z p)) /\
     (~ dist2 < half_width * half_width -> result = (false, t))).

(** The same rule with the thresholds the code tests. *)
Definition base_case_rule {N : nat} `{BezierCurveType N}
  (original_curve curve : BezierCurveBase N) (xfm : Matrix.t) (v0 vn w t : R) : Prop :=
  let p := hit_point original_curve xfm v0 vn w in
  let half_width := hit_half_width curve w in
  let dist2 := Vector3.x p * Vector3.x p + Vector3.y p * Vector3.y p in
  let result := accept_hit original_curve curve xfm v0 vn w t in
  (Vector3.z p <= 1.0e-6 \/ t < Vector3.z p -> result = (false, t)) /\
  (~ (Vector3.z p <= 1.0e-6 \/ t < Vector3.z p) ->
     (dist2 < half_width * half_width -> result = (true, Vector3.z p)) /\
     (~ dist2 < half_width * half_width -> result = (false, t))).

(** ** The canonical scenario of the spec *)

Module Canonical.

(** Degree-1 curve from (-1,0,5) to (1,0,5), constant radius 0.2. *)
Definition curve : BezierCurveBase 1 :=
  BezierCurveBase_uniform (arr2 (Vector3.mk (-1) 0 5) (Vector3.mk 1 0 5)) 0.2.

(** Ray from the origin toward (0,0,1). *)
Definition ray : Ray := mkRay (Vector3.mk 0 0 0) (Vector3.mk 0 0 1).

(** Ray with the degenerate direction (0,1,0). *)
Definition ray_up : Ray := mkRay (Vector3.mk 0 0 0) (Vector3.mk 0 1 0).

(** Ray along +x, perpendicular to the depth of the curve. *)
Definition ray_side : Ray := mkRay (Vector3.mk 0 0 0) (Vector3.mk 1 0 0).

(** Ray toward (0,0,1) from the offset origin (0,5,0). *)
Definition ray_offset : Ray := mkRay (Vector3.mk 0 5 0) (Vector3.mk 0 0 1).

(** The same control data with stale cached fields. *)
Definition stale_curve : BezierCurveBase 1 :=
  mkBase (m_ctrl_pts curve) (m_width curve) 0
         (AABB.of_point Vector3.zero).

Definition ray_shifted : Ray := mkRay (Vector3.mk 7 8 9) (Vector3.mk 0 0 1).

(** The canonical curve moved to depth 5e-7, just in front of the origin. *)
Definition near_curve : BezierCurveBase 1 :=
  BezierCurveBase_uniform
    (arr2 (Vector3.mk (-1) 0 5.0e-7) (Vector3.mk 1 0 5.0e-7)) 0.2.

(** A degree-2 arc over the same end points. *)
Definition arc : BezierCurveBase 2 :=
  BezierCurveBase_uniform
    (arr3 (Vector3.mk (-1) 0 5) (Vector3.mk 0 1 5) (Vector3.mk 1 0 5)) 0.2.

End Canonical.

(** ** A memory holding the canonical scenario *)

Module Scene.

(** The objects of a caller: the curve, the ray, the transform, the hit
    distance and a counter standing for the global state. *)
Record Mem : Type := mk {
  curve : BezierCurveBase 1;
  ray : Ray;
  xfm : Matrix.t;
  t : R;
  rays_cast : nat }.

(** The reference to the field [t]. *)
Definition t_ref : Ref Mem R :=
  mkRef t (fun v m => mk (curve m) (ray m) (xfm m) v (rays_cast m)).

Definition initial : Mem :=
  mk Canonical.curve Canonical.ray Matrix.identity 7 0.

Definition later : Mem :=
  mk Canonical.curve Canonical.ray Matrix.identity 7 42.

End Scene.

(** ** Further specification-side definitions *)

(** Width split exactness for one curve type. *)
Definition width_split_exact (N : nat) `{BezierCurveType N} : Prop :=
  forall (c : BezierCurveBase N) (t : R),
    evaluate_width (fst (split c)) (2 * t) = evaluate_width c t /\
    evaluate_width (snd (split c)) (2 * t - 1) = evaluate_width c t.

(** The interpolated width of a constructed curve stays between 0 and the
    cached maximum. *)
Definition width_bounded (N : nat) `{BezierCurveType N} : Prop :=
  forall c : BezierCurveBase N,
    constructed c ->
    forall t : R, 0 <= t <= 1 -> 0 <= evaluate_width c t <= get_max_width c.

(** A curve built with one width has that width everywhere. *)
Definition uniform_width_constant (N : nat) `{BezierCurveType N} : Prop :=
  forall (ctrl_pts : array Vector3.t (S N)) (width t : R),
    let c := BezierCurveBase_uniform ctrl_pts width in
    get_max_width c = width /\ evaluate_width c t = width.

(** The children of a split are no wider than their parent. *)
Definition split_narrows (N : nat) `{BezierCurveType N} : Prop :=
  forall c : BezierCurveBase N,
    cache_current c ->
    get_max_width (fst (split c)) <= get_max_width c /\
    get_max_width (snd (split c)) <= get_max_width c.

(** A matrix whose last row is (0, 0, 0, 1). *)
Definition is_affine (m : Matrix.t) : Prop :=
  Matrix.e12 m = 0 /\ Matrix.e13 m = 0 /\ Matrix.e14 m = 0 /\ Matrix.e15 m = 1.

(** The point of a ray at parameter [s]. *)
Definition ray_point (ray : Ray) (s : R) : Vector3.t :=
  Vector3.add (m_org ray) (Vector3.mul (m_dir ray) s).

(** Evaluation commutes with an affine transform of the control points. *)
Definition evaluation_commutes (N : nat) `{BezierCurveType N} : Prop :=
  forall (c : BezierCurveBase N) (xfm : Matrix.t) (v : R),
    is_affine xfm ->
    transform_point xfm (evaluate_point c v)
    = evaluate_point (BezierCurveBase_xfm c xfm) v.

(** Squared distance from the z axis. *)
Definition dist2xy (p : Vector3.t) : R :=
  Vector3.x p * Vector3.x p + Vector3.y p * Vector3.y p.

(** A reported hit is a point of the curve inside the tube. *)
Definition hit_sound (N : nat) `{BezierCurveType N} : Prop :=
  forall (curve : BezierCurveBase N) (ray : Ray) (xfm : Matrix.t) (t t' : R),
    intersect curve ray xfm t = (true, t') ->
    exists v : R,
      0 <= v <= 1 /\
      let p := transform_point xfm (evaluate_point curve v) in
      let half_width := 0.5 * evaluate_width curve v in
      t' = Vector3.z p / Vector3.norm (m_dir ray) /\
      1.0e-6 < Vector3.z p <= t /\
      dist2xy p < half_width * half_width.

(** The sub-curve of an activation of [converge] is the part of the
    transformed curve over the activation's parameter range. *)
Definition tracks_range {N : nat} `{BezierCurveType N}
  (root : BezierCurveBase N) (b : Call) : Prop :=
  forall w : R,
    evaluate_point (call_curve b) w
      = evaluate_point root (call_v0 b * (1 - w) + call_vn b * w) /\
    evaluate_width (call_curve b) w
      = evaluate_width root (call_v0 b * (1 - w) + call_vn b * w).

Definition subdivision_tracked (N : nat) `{BezierCurveType N} : Prop :=
  forall (curve : BezierCurveBase N) (xfm : Matrix.t) (t : R) (n : nat) (b : Call),
    call_chain curve xfm n (initial_call xfm curve t) b ->
    tracks_range (BezierCurveBase_xfm curve xfm) b /\
    0 <= call_v0 b /\ call_vn b <= 1 /\
    call_vn b - call_v0 b = (/ 2) ^ n.

(** The activations of the call relation are the ones that decide the
    result of [converge]: the call started by [intersect] reports a hit with
    final [t'] exactly when an activation at the end of a chain of calls,
    with budget 0 and not culled, finds that hit in its base case. *)
Definition hit_found_by_chain (N : nat) `{BezierCurveType N} : Prop :=
  forall (curve : BezierCurveBase N) (xfm : Matrix.t) (t t' : R),
    let start := initial_call xfm curve t in
    converge (call_depth start) curve (call_curve start) xfm
             (call_v0 start) (call_vn start) (call_t start) = (true, t')
    <->
    exists b : Call,
      call_chain curve xfm (call_depth start) start b /\
      call_depth b = 0%nat /\
      culled (call_curve b) (call_t b) = false /\
      converge_leaf curve (call_curve b) xfm (call_v0 b) (call_vn b) (call_t b)
      = (true, t').

(** The point at parameter [s] of the chord from the first to the last
    control point. *)
Definition chord_point {N : nat} `{BezierCurveType N} (curve : BezierCurveBase N)
  (s : R) : Vector3.t :=
  let cp0 := get_control_point curve 0 in
  let cpn := get_control_point curve Degree in
  Vector3.add cp0 (Vector3.mul (Vector3.sub cpn cp0) s).

(** The quantity whose logarithm [compute_max_recursion_depth] scales,
    clamps and truncates. *)
Definition flatness_value {N : nat} (c : BezierCurveBase N) : R :=
  sqrt 2 * INR N * (INR N - 1) * Linf c / (8 * (get_max_width c / 20)).

(** Culling is conservative: at every parameter of a culled sub-curve of the
    recursion the acceptance test of the base case fails. *)
Definition cull_conservative (N : nat) `{BezierCurveType N} : Prop :=
  forall (curve : BezierCurveBase N) (xfm : Matrix.t) (t0 : R) (n : nat) (b : Call),
    constructed curve ->
    is_affine xfm ->
    call_chain curve xfm n (initial_call xfm curve t0) b ->
    culled (call_curve b) (call_t b) = true ->
    forall w : R,
      0 <= w <= 1 ->
      accept_hit curve (call_curve b) xfm (call_v0 b) (call_vn b) w (call_t b)
      = (false, call_t b).

(** ** Scattering modes (renderer/kernel/lighting/scatteringmode.h) *)

Module ScatteringMode.

Definition Absorption : Z := 0.
Definition Diffuse : Z := Z.shiftl 1 0.
Definition Glossy : Z := Z.shiftl 1 1.
Definition Specular : Z := Z.shiftl 1 2.
Definition All : Z := Z.lor (Z.lor Diffuse Glossy) Specular.

Definition has_diffuse (modes : Z) : bool :=
  negb (Z.land modes Diffuse =? 0)%Z.

Definition has_glossy (modes : Z) : bool :=
  negb (Z.land modes Glossy =? 0)%Z.

Definition has_specular (modes : Z) : bool :=
  negb (Z.land modes Specular =? 0)%Z.

Definition has_diffuse_or_glossy (modes : Z) : bool :=
  negb (Z.land modes (Z.lor Diffuse Glossy) =? 0)%Z.

Definition has_glossy_or_specular (modes : Z) : bool :=
  negb (Z.land modes (Z.lor Glossy Specular) =? 0)%Z.

End ScatteringMode.


(** ** Further example curves *)

Module Examples.

(** A degree-2 arc bulging twice as far as [Canonical.arc]. *)
Definition bulge : BezierCurveBase 2 :=
  BezierCurveBase_uniform
    (arr3 (Vector3.mk (-1) 0 5) (Vector3.mk 0 2 5) (Vector3.mk 1 0 5)) 0.2.

(** A nearly straight degree-2 curve. *)
Definition shallow : BezierCurveBase 2 :=
  BezierCurveBase_uniform
    (arr3 (Vector3.mk (-1) 0 5) (Vector3.mk 0 0.001 5) (Vector3.mk 1 0 5)) 0.2.

(** The arc of the canonical scenario with width 5 sqrt 2 / 32, for which
    sqrt 2 N (N-1) Linf / (8 eps) is 64 = 4^3. *)
Definition cube_of_four : BezierCurveBase 2 :=
  BezierCurveBase_uniform
    (arr3 (Vector3.mk (-1) 0 5) (Vector3.mk 0 1 5) (Vector3.mk 1 0 5))
    (0.15625 * sqrt 2).

(** The same arc with width 0. *)
Definition hairline : BezierCurveBase 2 :=
  BezierCurveBase_uniform
    (arr3 (Vector3.mk (-1) 0 5) (Vector3.mk 0 1 5) (Vector3.mk 1 0 5)) 0.

(** A degree-2 curve with evenly spaced collinear control points. *)
Definition straight : BezierCurveBase 2 :=
  BezierCurveBase_uniform
    (arr3 (Vector3.mk (-1) 0 5) (Vector3.mk 0 0 5) (Vector3.mk 1 0 5)) 0.2.

End Examples.

(** * Proofs *)

(** ** Boolean comparisons and scalar helpers *)

Lemma Rltb_lt (a b : R) : Rltb a b = true <-> a < b.
Proof. unfold Rltb; destruct (Rlt_dec a b); split; intros; try easy. Qed.

Lemma Rltb_ge (a b : R) : Rltb a b = false <-> b <= a.
Proof.
  unfold Rltb; destruct (Rlt_dec a b); split; intros; try easy; lra.
Qed.

Lemma Rleb_le (a b : R) : Rleb a b = true <-> a <= b.
Proof. unfold Rleb; destruct (Rle_dec a b); split; intros; try easy. Qed.

Lemma Rleb_gt (a b : R) : Rleb a b = false <-> b < a.
Proof.
  unfold Rleb; destruct (Rle_dec a b); split; intros; try easy; lra.
Qed.

Lemma Rgtb_lt (a b : R) : Rgtb a b = true <-> b < a.
Proof. apply Rltb_lt. Qed.

Lemma Rgtb_le (a b : R) : Rgtb a b = false <-> a <= b.
Proof. apply Rltb_ge. Qed.

Lemma Rgeb_le (a b : R) : Rgeb a b = true <-> b <= a.
Proof. apply Rleb_le. Qed.

Lemma Rgeb_lt (a b : R) : Rgeb a b = false <-> a < b.
Proof. apply Rleb_gt. Qed.

Lemma half_is_half : 0.5 = / 2.
Proof. lra. Qed.

(** Decide the comparisons, minima and maxima of a goal whose operands are
    linear in the hypotheses. *)
Ltac settle_order :=
  repeat match goal with
  | |- context [Rmax ?a ?b] =>
      first [ rewrite (Rmax_left a b) by lra | rewrite (Rmax_right a b) by lra ]
  | |- context [Rmin ?a ?b] =>
      first [ rewrite (Rmin_left a b) by lra | rewrite (Rmin_right a b) by lra ]
  | |- context [Rltb ?a ?b] =>
      first [ rewrite (proj2 (Rltb_lt a b)) by lra
            | rewrite (proj2 (Rltb_ge a b)) by lra ]
  | |- context [Rleb ?a ?b] =>
      first [ rewrite (proj2 (Rleb_le a b)) by lra
            | rewrite (proj2 (Rleb_gt a b)) by lra ]
  | |- context [Rgtb ?a ?b] =>
      first [ rewrite (proj2 (Rgtb_lt a b)) by lra
            | rewrite (proj2 (Rgtb_le a b)) by lra ]
  | |- context [Rgeb ?a ?b] =>
      first [ rewrite (proj2 (Rgeb_le a b)) by lra
            | rewrite (proj2 (Rgeb_lt a b)) by lra ]
  end.

Lemma clamp_bounds (x lo hi : R) : lo <= hi -> lo <= clamp x lo hi <= hi.
Proof.
  intros Hlh. unfold clamp.
  destruct (Rleb x lo) eqn:E1; [lra |].
  destruct (Rgeb x hi) eqn:E2; [lra |].
  apply Rleb_gt in E1. apply Rgeb_lt in E2. lra.
Qed.

Lemma saturate_bounds (x : R) : 0 <= saturate x <= 1.
Proof. apply clamp_bounds; lra. Qed.

Lemma truncate_le (x : R) (k : nat) : 0 <= x <= INR k -> (truncate x <= k)%nat.
Proof.
  intros [H0 Hk]. unfold truncate, truncate_Z.
  rewrite (proj2 (Rleb_le 0 x)) by assumption.
  destruct (base_Int_part x) as [Hlo _].
  assert (Hz : (Int_part x <= Z.of_nat k)%Z).
  { apply le_IZR. rewrite <- INR_IZR_INZ. lra. }
  lia.
Qed.

Lemma fold_right_Rmax_ge (l : list R) (a x : R) :
  x = a \/ In x l -> x <= fold_right Rmax a l.
Proof.
  induction l as [| h l IH]; cbn [fold_right In].
  - intros [-> | []]. lra.
  - intros [Hx | [Hx | Hx]].
    + apply Rle_trans with (fold_right Rmax a l); [auto | apply Rmax_r].
    + subst h. apply Rmax_l.
    + apply Rle_trans with (fold_right Rmax a l); [auto | apply Rmax_r].
Qed.

Lemma Rmax_list_ge (l : list R) (x : R) : In x l -> x <= Rmax_list l.
Proof.
  destruct l as [| a l]; [intros [] |].
  intros [Hx | Hx]; apply fold_right_Rmax_ge; auto.
Qed.

Lemma Rmax_list_in (l : list R) : l <> [] -> In (Rmax_list l) l.
Proof.
  destruct l as [| a l]; [congruence | intros _].
  cbn [Rmax_list]. induction l as [| h l IH]; cbn [fold_right].
  - left. reflexivity.
  - unfold Rmax at 1. destruct (Rle_dec h (fold_right Rmax a l)).
    + destruct IH as [IH | IH]; [left; exact IH | right; right; exact IH].
    + right. left. reflexivity.
Qed.

Lemma Int_part_mono (x y : R) : x <= y -> (Int_part x <= Int_part y)%Z.
Proof.
  intros Hxy.
  destruct (base_Int_part x) as [Hx _]. destruct (base_Int_part y) as [_ Hy].
  assert (H : IZR (Int_part x) < IZR (Int_part y + 1)) by (rewrite plus_IZR; lra).
  apply lt_IZR in H. lia.
Qed.

Lemma truncate_mono (x y : R) : 0 <= x <= y -> (truncate x <= truncate y)%nat.
Proof.
  intros [H0 Hxy]. unfold truncate, truncate_Z.
  rewrite (proj2 (Rleb_le 0 x)) by lra. rewrite (proj2 (Rleb_le 0 y)) by lra.
  apply Z2Nat.inj_le.
  - replace 0%Z with (Int_part 0); [apply Int_part_mono; lra |].
    symmetry. apply Int_part_spec. simpl. lra.
  - replace 0%Z with (Int_part 0); [apply Int_part_mono; lra |].
    symmetry. apply Int_part_spec. simpl. lra.
  - apply Int_part_mono. exact Hxy.
Qed.

Lemma clamp_mono (x y lo hi : R) :
  lo <= hi -> x <= y -> clamp x lo hi <= clamp y lo hi.
Proof.
  intros Hlh Hxy. unfold clamp.
  destruct (Rleb x lo) eqn:Ex; [apply Rleb_le in Ex | apply Rleb_gt in Ex];
  destruct (Rleb y lo) eqn:Ey; [apply Rleb_le in Ey | apply Rleb_gt in Ey
                               | apply Rleb_le in Ey | apply Rleb_gt in Ey];
  try lra;
  destruct (Rgeb y hi) eqn:Ey2; [apply Rgeb_le in Ey2 | apply Rgeb_lt in Ey2 | |];
  try lra;
  destruct (Rgeb x hi) eqn:Ex2; try apply Rgeb_le in Ex2; try apply Rgeb_lt in Ex2;
  try apply Rgeb_le in Ey2; try apply Rgeb_lt in Ey2; lra.
Qed.

Lemma truncate_zero : truncate 0 = 0%nat.
Proof.
  unfold truncate, truncate_Z. rewrite (proj2 (Rleb_le 0 0)) by lra.
  replace (Int_part 0) with 0%Z; [reflexivity |].
  apply Int_part_spec. simpl. lra.
Qed.

Lemma RcpLog4_pos : 0 < RcpLog4.
Proof. unfold RcpLog4. lra. Qed.

Lemma Vector3_eq (a b : Vector3.t) :
  Vector3.x a = Vector3.x b -> Vector3.y a = Vector3.y b ->
  Vector3.z a = Vector3.z b -> a = b.
Proof. destruct a, b; simpl; intros; subst; reflexivity. Qed.

Lemma Matrix_eq (a b : Matrix.t) :
  Matrix.e0 a = Matrix.e0 b -> Matrix.e1 a = Matrix.e1 b ->
  Matrix.e2 a = Matrix.e2 b -> Matrix.e3 a = Matrix.e3 b ->
  Matrix.e4 a = Matrix.e4 b -> Matrix.e5 a = Matrix.e5 b ->
  Matrix.e6 a = Matrix.e6 b -> Matrix.e7 a = Matrix.e7 b ->
  Matrix.e8 a = Matrix.e8 b -> Matrix.e9 a = Matrix.e9 b ->
  Matrix.e10 a = Matrix.e10 b -> Matrix.e11 a = Matrix.e11 b ->
  Matrix.e12 a = Matrix.e12 b -> Matrix.e13 a = Matrix.e13 b ->
  Matrix.e14 a = Matrix.e14 b -> Matrix.e15 a = Matrix.e15 b ->
  a = b.
Proof. destruct a, b; simpl; intros; subst; reflexivity. Qed.

(** ** Split exactness *)

Lemma split1_left (c : BezierCurveBase 1) (t : R) :
  evaluate_point (fst (split c)) (2 * t) = evaluate_point c t.
Proof.
  destruct c as [[p0 [p1 []]] w mw bb].
  apply Vector3_eq; cbn; rewrite ?half_is_half; field.
Qed.

Lemma split1_right (c : BezierCurveBase 1) (t : R) :
  evaluate_point (snd (split c)) (2 * t - 1) = evaluate_point c t.
Proof.
  destruct c as [[p0 [p1 []]] w mw bb].
  apply Vector3_eq; cbn; rewrite ?half_is_half; field.
Qed.

Lemma split2_left (c : BezierCurveBase 2) (t : R) :
  evaluate_point (fst (split c)) (2 * t) = evaluate_point c t.
Proof.
  destruct c as [[p0 [p1 [p2 []]]] w mw bb].
  apply Vector3_eq; cbn; rewrite ?half_is_half; field.
Qed.

Lemma split2_right (c : BezierCurveBase 2) (t : R) :
  evaluate_point (snd (split c)) (2 * t - 1) = evaluate_point c t.
Proof.
  destruct c as [[p0 [p1 [p2 []]]] w mw bb].
  apply Vector3_eq; cbn; rewrite ?half_is_half; field.
Qed.

Lemma split3_left (c : BezierCurveBase 3) (t : R) :
  evaluate_point (fst (split c)) (2 * t) = evaluate_point c t.
Proof.
  destruct c as [[p0 [p1 [p2 [p3 []]]]] w mw bb].
  apply Vector3_eq; cbn; rewrite ?half_is_half; field.
Qed.

Lemma split3_right (c : BezierCurveBase 3) (t : R) :
  evaluate_point (snd (split c)) (2 * t - 1) = evaluate_point c t.
Proof.
  destruct c as [[p0 [p1 [p2 [p3 []]]]] w mw bb].
  apply Vector3_eq; cbn; rewrite ?half_is_half; field.
Qed.

(** C1. Split exactness: for every curve of degree 1, 2 or 3, the left child
    of [split] evaluated at [2t] equals the parent evaluated at [t] for every
    [t] in [0, 0.5], and the right child evaluated at [2t - 1] equals the
    parent evaluated at [t] for every [t] in [0.5, 1]. *)
Theorem split_exactness :
  split_exact 1 /\ split_exact 2 /\ split_exact 3.
Proof.
  repeat split; intros _.
  - apply split1_left.
  - apply split1_right.
  - apply split2_left.
  - apply split2_right.
  - apply split3_left.
  - apply split3_right.
Qed.

Lemma split_exactness_witness :
  evaluate_point (fst (split Canonical.curve)) (2 * 0.25)
    = evaluate_point Canonical.curve 0.25.
Proof.
  apply (proj1 split_exactness Canonical.curve 0.25). lra.
Defined.

(** ** Miss atomicity *)

Section Atomicity.

Context {N : nat} `{BezierCurveType N}.

Lemma accept_hit_miss original_curve curve xfm v0 vn w t t' :
  accept_hit original_curve curve xfm v0 vn w t = (false, t') -> t' = t.
Proof.
  unfold accept_hit.
  destruct (_ || _); [congruence |].
  destruct (Rgeb _ _); congruence.
Qed.

Lemma converge_leaf_miss original_curve curve xfm v0 vn t t' :
  converge_leaf original_curve curve xfm v0 vn t = (false, t') -> t' = t.
Proof.
  unfold converge_leaf.
  destruct (segment_w curve) as [w |]; [apply accept_hit_miss | congruence].
Qed.

Lemma converge_miss depth : forall original_curve curve xfm v0 vn t t',
  converge depth original_curve curve xfm v0 vn t = (false, t') -> t' = t.
Proof.
  induction depth as [| depth IH]; intros original_curve curve xfm v0 vn t t'; simpl.
  - destruct (culled curve t); [congruence | apply converge_leaf_miss].
  - destruct (culled curve t); [congruence |].
    destruct (split curve) as [c1 c2].
    destruct (converge depth original_curve c1 xfm v0 ((v0 + vn) * 0.5) t)
      as [found t1] eqn:E1.
    destruct found; [congruence |].
    apply IH in E1. subst t1. apply IH.
Qed.

Lemma intersect_miss curve ray xfm t t' :
  intersect curve ray xfm t = (false, t') -> t' = t.
Proof.
  unfold intersect.
  destruct (converge _ _ _ _ _ _ _) as [found t1] eqn:E.
  destruct found; [congruence |].
  intros Heq. apply converge_miss in E. congruence.
Qed.

End Atomicity.

(** C9. Miss atomicity: whenever [intersect] or the inner [converge] returns
    false, the hit parameter [t] is exactly what it was on entry. *)
Theorem miss_leaves_t_unchanged :
  forall (N : nat) (C : BezierCurveType N),
    (forall curve ray xfm t t',
        intersect curve ray xfm t = (false, t') -> t' = t) /\
    (forall depth original_curve curve xfm v0 vn t t',
        converge depth original_curve curve xfm v0 vn t = (false, t') -> t' = t).
Proof.
  intros N C. split.
  - intros curve ray xfm. apply intersect_miss.
  - intros depth. apply converge_miss.
Qed.

(** ** Evaluation of the canonical scenario *)

Lemma transform_point_identity (p : Vector3.t) :
  transform_point Matrix.identity p = p.
Proof.
  destruct p as [px py pz]. unfold transform_point.
  apply Vector3_eq; cbn; field.
Qed.

Lemma xfm_identity_canonical :
  BezierCurveBase_xfm Canonical.curve Matrix.identity = Canonical.curve.
Proof.
  unfold BezierCurveBase_xfm, Canonical.curve, BezierCurveBase_uniform.
  cbn [m_ctrl_pts m_width make_curve amap arr2 fst snd afill].
  rewrite !transform_point_identity. reflexivity.
Qed.

Lemma norm_canonical_dir : Vector3.norm (m_dir Canonical.ray) = 1.
Proof.
  unfold Vector3.norm, Vector3.dot; cbn.
  replace (0 * 0 + 0 * 0 + 1 * 1) with 1 by ring. apply sqrt_1.
Qed.

Lemma facing_canonical :
  make_facing_curve_transform Canonical.ray = Matrix.identity.
Proof.
  unfold make_facing_curve_transform, facing_d, Vector3.normalize.
  rewrite norm_canonical_dir.
  cbv [Canonical.ray m_dir m_org Vector3.div Vector3.x Vector3.y Vector3.z].
  replace (0 / 1 * (0 / 1) + 1 / 1 * (1 / 1)) with 1 by field.
  rewrite sqrt_1. settle_order.
  apply Matrix_eq;
    cbv [facing_rotation_general translate_by_origin Matrix.identity
         Matrix.e0 Matrix.e1 Matrix.e2 Matrix.e3 Matrix.e4 Matrix.e5 Matrix.e6
         Matrix.e7 Matrix.e8 Matrix.e9 Matrix.e10 Matrix.e11 Matrix.e12
         Matrix.e13 Matrix.e14 Matrix.e15 Vector3.x Vector3.y Vector3.z];
    lra.
Qed.

(** Unfold the geometry down to real arithmetic. *)
Ltac run_geometry :=
  cbv [segment_w accept_hit hit_point hit_half_width converge_leaf culled
       get_control_point get_width get_bbox get_max_width Degree dotxy
       Canonical.curve Canonical.stale_curve Canonical.near_curve
       BezierCurveBase_uniform BezierCurveBase_widths BezierCurveBase_xfm make_curve
       compute_max_width compute_bbox transform_point
       m_ctrl_pts m_width m_max_width m_bbox
       evaluate_point evaluate_width split BezierCurve1 BezierCurve2 BezierCurve3
       Curve1.evaluate_point Curve1.evaluate_width Curve1.split
       Curve2.evaluate_point Curve2.evaluate_width Curve2.split
       Curve3.evaluate_point Curve3.evaluate_width Curve3.split
       interpolate_bezier1 interpolate_bezier2 interpolate_bezier3
       vadd vscale Blend_R Blend_Vector3
       arr2 arr3 arr4 get amap afill fold_left seq fst snd Nat.sub Nat.add
       Vector3.x Vector3.y Vector3.z Vector3.zero Vector3.splat Vector3.add
       Vector3.sub Vector3.neg Vector3.mul Vector3.div Vector3.dot
       Vector4.x Vector4.y Vector4.z Vector4.w
       Matrix.mulv Matrix.identity
       Matrix.e0 Matrix.e1 Matrix.e2 Matrix.e3 Matrix.e4 Matrix.e5 Matrix.e6 Matrix.e7
       Matrix.e8 Matrix.e9 Matrix.e10 Matrix.e11 Matrix.e12 Matrix.e13 Matrix.e14 Matrix.e15
       AABB.min AABB.max AABB.of_point AABB.insert AABB.grow AABB.robust_grow
       saturate clamp].

Lemma canonical_segment_w : segment_w Canonical.curve = Some 0.5.
Proof. run_geometry. settle_order. f_equal. lra. Qed.

Lemma canonical_culled (t0 : R) :
  culled Canonical.curve t0 = Rgeb (5 - 0.2 * 0.5 - 1.0e-4) t0.
Proof. run_geometry. settle_order. rewrite !orb_false_r. reflexivity. Qed.

Lemma canonical_accept (t0 : R) :
  5 <= t0 ->
  accept_hit Canonical.curve Canonical.curve Matrix.identity 0 1 0.5 t0 = (true, 5).
Proof.
  intros Ht. run_geometry. settle_order. simpl. settle_order. f_equal. lra.
Qed.

Lemma canonical_reject (t0 : R) :
  t0 < 5 ->
  accept_hit Canonical.curve Canonical.curve Matrix.identity 0 1 0.5 t0 = (false, t0).
Proof.
  intros Ht. run_geometry. settle_order. rewrite orb_true_r. reflexivity.
Qed.

Lemma canonical_depth : compute_max_recursion_depth Canonical.curve = 0%nat.
Proof. reflexivity. Qed.

Lemma canonical_intersect_identity (t0 : R) :
  intersect Canonical.curve Canonical.ray Matrix.identity t0
  = if Rleb 5 t0 then (true, 5) else (false, t0).
Proof.
  unfold intersect. rewrite xfm_identity_canonical, canonical_depth.
  cbn [converge]. rewrite canonical_culled.
  unfold converge_leaf. rewrite canonical_segment_w.
  destruct (Rleb 5 t0) eqn:E.
  - apply Rleb_le in E. settle_order.
    rewrite canonical_accept by assumption.
    rewrite norm_canonical_dir. f_equal. field.
  - apply Rleb_gt in E.
    destruct (Rgeb _ t0); [reflexivity |].
    rewrite canonical_reject by assumption. reflexivity.
Qed.

(** ** The canonical intersection scenario *)

(** C2. Canonical intersection scenario: for the degree-1 curve from (-1,0,5)
    to (1,0,5) with constant radius 0.2 and the ray from the origin toward
    (0,0,1), with the frame transform built by [make_facing_curve_transform]
    from that ray, [intersect] reports a hit at distance 5 (within 1e-3),
    the incoming [t] (the current best distance) being no nearer than the
    hit. *)
Theorem canonical_scenario_hit (t0 : R) :
  5 <= t0 ->
  let result :=
    intersect Canonical.curve Canonical.ray
              (make_facing_curve_transform Canonical.ray) t0 in
  fst result = true /\ Rabs (snd result - 5) < 1.0e-3.
Proof.
  intros Ht result. subst result.
  rewrite facing_canonical, canonical_intersect_identity.
  rewrite (proj2 (Rleb_le 5 t0)) by assumption. simpl. split; [reflexivity |].
  replace (5 - 5) with 0 by ring. rewrite Rabs_R0. lra.
Qed.

Lemma canonical_scenario_hit_witness :
  let result :=
    intersect Canonical.curve Canonical.ray
              (make_facing_curve_transform Canonical.ray) 1000 in
  fst result = true /\ Rabs (snd result - 5) < 1.0e-3.
Proof. apply (canonical_scenario_hit 1000). lra. Defined.

(** A miss on the same data: an incoming [t] of 1 lies before the curve. *)
Lemma miss_leaves_t_unchanged_witness :
  snd (intersect Canonical.curve Canonical.ray Matrix.identity 1) = 1.
Proof.
  apply (proj1 (miss_leaves_t_unchanged 1 BezierCurve1)
               Canonical.curve Canonical.ray Matrix.identity 1).
  rewrite canonical_intersect_identity.
  rewrite (proj2 (Rleb_gt 5 1)) by lra. reflexivity.
Defined.

(** ** Base-case acceptance *)

Section BaseCase.

Context {N : nat} `{BezierCurveType N}.

Lemma segment_w_range curve w : segment_w curve = Some w -> 0 <= w <= 1.
Proof.
  unfold segment_w.
  destruct (Rgtb _ 0); [discriminate |].
  destruct (Rltb _ 0); [discriminate |].
  destruct (Rltb _ _); [discriminate |].
  intros Hw. injection Hw as <-. apply saturate_bounds.
Qed.

Lemma accept_hit_rule original_curve curve xfm v0 vn w t :
  base_case_rule original_curve curve xfm v0 vn w t.
Proof.
  unfold base_case_rule, accept_hit. cbv zeta.
  set (p := hit_point original_curve xfm v0 vn w).
  set (hw := hit_half_width curve w).
  destruct (Rleb (Vector3.z p) 1.0e-6) eqn:E1;
    [apply Rleb_le in E1 | apply Rleb_gt in E1].
  { cbn [orb]. split; [reflexivity | intros Hn; exfalso; apply Hn; left; exact E1]. }
  destruct (Rltb t (Vector3.z p)) eqn:E2;
    [apply Rltb_lt in E2 | apply Rltb_ge in E2].
  { cbn [orb]. split; [reflexivity | intros Hn; exfalso; apply Hn; right; exact E2]. }
  cbn [orb]. split; [intros [Hz | Hz]; exfalso; lra |].
  intros _.
  destruct (Rgeb _ _) eqn:E3;
    [apply Rgeb_le in E3 | apply Rgeb_lt in E3];
    split; intros Hd; try reflexivity; exfalso; lra.
Qed.

End BaseCase.

(** C3 (as amended). Base-case acceptance: in the depth-0 branch, with [w]
    the closest-approach parameter clamped to [0,1], [p] the frame transform
    of the original curve evaluated at [v = v0 (1 - w) + vn w] and the
    half-width one half of [evaluate_width(w)] on the transformed sub-curve,
    the candidate is rejected if [p.z <= 1e-6] or [t < p.z]; otherwise it is
    accepted iff the squared (x,y) distance of [p] from the ray axis is
    strictly below the squared half-width, and on acceptance [t] becomes
    [p.z]; every rejection leaves [t] as it was. *)
Theorem base_case_acceptance :
  forall (N : nat) (C : BezierCurveType N)
         (original_curve curve : BezierCurveBase N) (xfm : Matrix.t)
         (v0 vn t w : R),
    segment_w curve = Some w ->
    0 <= w <= 1 /\
    converge_leaf original_curve curve xfm v0 vn t
      = accept_hit original_curve curve xfm v0 vn w t /\
    base_case_rule original_curve curve xfm v0 vn w t.
Proof.
  intros N C original_curve curve xfm v0 vn t w Hw.
  split; [exact (segment_w_range curve w Hw) |].
  split; [| apply accept_hit_rule].
  unfold converge_leaf. rewrite Hw. reflexivity.
Qed.

Lemma base_case_acceptance_witness :
  0 <= 0.5 <= 1 /\
  converge_leaf Canonical.curve Canonical.curve Matrix.identity 0 1 7
    = accept_hit Canonical.curve Canonical.curve Matrix.identity 0 1 0.5 7 /\
  base_case_rule Canonical.curve Canonical.curve Matrix.identity 0 1 0.5 7.
Proof.
  apply (base_case_acceptance 1 BezierCurve1). apply canonical_segment_w.
Defined.

Lemma near_reject :
  accept_hit Canonical.near_curve Canonical.near_curve Matrix.identity 0 1 0.5 1
  = (false, 1).
Proof. run_geometry. settle_order. reflexivity. Qed.

(** C3 (as stated). The rule as the spec words it fails on the code in two
    places.  (1) Canonical curve, identity frame, [v0 = 0], [vn = 1],
    [w = 0.5], [t = 5]: [v = 0.5], [p = (0,0,5)], so [p.z = 5] is not closer
    than [t]; the code tests [t < p.z], which is false, finds
    [0 < 0.1 * 0.1] and accepts.  (2) The same curve at depth 5e-7 with
    [t = 1]: [p.z = 5e-7] is positive and closer than [t] and [p] is on the
    axis, yet the code tests [p.z <= 1e-6] and rejects. *)
Lemma base_case_as_stated_fails :
  ~ base_case_as_stated Canonical.curve Canonical.curve Matrix.identity 0 1 0.5 5 /\
  ~ base_case_as_stated Canonical.near_curve Canonical.near_curve Matrix.identity
      0 1 0.5 1.
Proof.
  split; unfold base_case_as_stated.
  - intros [Hreject _].
    rewrite canonical_accept in Hreject by lra.
    assert (Hfalse : (true, 5) = (false, 5)).
    { apply Hreject. right. run_geometry. lra. }
    discriminate Hfalse.
  - intros [_ Haccept].
    rewrite near_reject in Haccept.
    assert (Hfalse : (false, 1) = (true, Vector3.z
              (hit_point Canonical.near_curve Matrix.identity 0 1 0.5))).
    { apply Haccept.
      - run_geometry. lra.
      - run_geometry. lra. }
    discriminate Hfalse.
Qed.

(** ** Recursion depth *)

(** *** The constant [RcpLog4] lies strictly below [1 / ln 4] *)

Lemma exp_term_step (x : R) (i : nat) :
  exp_term x (S i) = exp_term x i * (x / INR (S i)).
Proof.
  unfold exp_term. rewrite fact_simpl, mult_INR. cbn [pow].
  field. split; [apply not_0_INR; discriminate | apply INR_fact_neq_0].
Qed.

Lemma exp_ge_partial_sum (x : R) (n : nat) :
  0 <= x -> sum_f_R0 (exp_term x) n <= exp x.
Proof.
  intros Hx. apply (growing_ineq (fun n => sum_f_R0 (exp_term x) n)).
  - intros k. cbn [sum_f_R0].
    assert (Ht : 0 <= exp_term x (S k)).
    { unfold exp_term. apply Rmult_le_pos.
      - left. apply Rinv_0_lt_compat. apply INR_fact_lt_0.
      - apply pow_le. exact Hx. }
    lra.
  - exact (proj2_sig (exist_exp x)).
Qed.

(** Lower bounds, to 26 decimals, of the first 24 terms of the series of
    [exp (1 / 0.7213475204444817)]. *)
Lemma exp_term_bounds :
  1.00000000000000000000000000 <= exp_term (/ 0.7213475204444817) 0 /\
  1.38629436111989062590666023 <= exp_term (/ 0.7213475204444817) 1 /\
  0.96090602783640285913835047 <= exp_term (/ 0.7213475204444817) 2 /\
  0.44403286931857264642085386 <= exp_term (/ 0.7213475204444817) 3 /\
  0.15389006572205563773195262 <= exp_term (/ 0.7213475204444817) 4 /\
  0.04266738606857102004325981 <= exp_term (/ 0.7213475204444817) 5 /\
  0.00985825945176423067259185 <= exp_term (/ 0.7213475204444817) 6 /\
  0.00195234992691965962556279 <= exp_term (/ 0.7213475204444817) 7 /\
  0.00033831646182769433671053 <= exp_term (/ 0.7213475204444817) 8 /\
  0.00005211180036730726499738 <= exp_term (/ 0.7213475204444817) 9 /\
  0.00000722422949970035065833 <= exp_term (/ 0.7213475204444817) 10 /\
  0.00000091044623807914224579 <= exp_term (/ 0.7213475204444817) 11 /\
  0.00000010517887382932769469 <= exp_term (/ 0.7213475204444817) 12 /\
  0.00000001121606766911826312 <= exp_term (/ 0.7213475204444817) 13 /\
  0.00000000111062652597412595 <= exp_term (/ 0.7213475204444817) 14 /\
  0.00000000010264368601787363 <= exp_term (/ 0.7213475204444817) 15 /\
  0.00000000000889339769569617 <= exp_term (/ 0.7213475204444817) 16 /\
  0.00000000000072522747510236 <= exp_term (/ 0.7213475204444817) 17 /\
  0.00000000000005585437551464 <= exp_term (/ 0.7213475204444817) 18 /\
  0.00000000000000407529504314 <= exp_term (/ 0.7213475204444817) 19 /\
  0.00000000000000028247792691 <= exp_term (/ 0.7213475204444817) 20 /\
  0.00000000000000001864750272 <= exp_term (/ 0.7213475204444817) 21 /\
  0.00000000000000000117504217 <= exp_term (/ 0.7213475204444817) 22 /\
  0.00000000000000000007082410 <= exp_term (/ 0.7213475204444817) 23.
Proof.
  assert (H0 : 1.00000000000000000000000000 <= exp_term (/ 0.7213475204444817) 0)
    by (unfold exp_term; cbn; lra).
  assert (H1 : 1.38629436111989062590666023 <= exp_term (/ 0.7213475204444817) 1)
    by (rewrite exp_term_step; cbn [INR]; lra).
  assert (H2 : 0.96090602783640285913835047 <= exp_term (/ 0.7213475204444817) 2)
    by (rewrite exp_term_step; cbn [INR]; lra).
  assert (H3 : 0.44403286931857264642085386 <= exp_term (/ 0.7213475204444817) 3)
    by (rewrite exp_term_step; cbn [INR]; lra).
  assert (H4 : 0.15389006572205563773195262 <= exp_term (/ 0.7213475204444817) 4)
    by (rewrite exp_term_step; cbn [INR]; lra).
  assert (H5 : 0.04266738606857102004325981 <= exp_term (/ 0.7213475204444817) 5)
    by (rewrite exp_term_step; cbn [INR]; lra).
  assert (H6 : 0.00985825945176423067259185 <= exp_term (/ 0.7213475204444817) 6)
    by (rewrite exp_term_step; cbn [INR]; lra).
  assert (H7 : 0.00195234992691965962556279 <= exp_term (/ 0.7213475204444817) 7)
    by (rewrite exp_term_step; cbn [INR]; lra).
  assert (H8 : 0.00033831646182769433671053 <= exp_term (/ 0.7213475204444817) 8)
    by (rewrite exp_term_step; cbn [INR]; lra).
  assert (H9 : 0.00005211180036730726499738 <= exp_term (/ 0.7213475204444817) 9)
    by (rewrite exp_term_step; cbn [INR]; lra).
  assert (H10 : 0.00000722422949970035065833 <= exp_term (/ 0.7213475204444817) 10)
    by (rewrite exp_term_step; cbn [INR]; lra).
  assert (H11 : 0.00000091044623807914224579 <= exp_term (/ 0.7213475204444817) 11)
    by (rewrite exp_term_step; cbn [INR]; lra).
  assert (H12 : 0.00000010517887382932769469 <= exp_term (/ 0.7213475204444817) 12)
    by (rewrite exp_term_step; cbn [INR]; lra).
  assert (H13 : 0.00000001121606766911826312 <= exp_term (/ 0.7213475204444817) 13)
    by (rewrite exp_term_step; cbn [INR]; lra).
  assert (H14 : 0.00000000111062652597412595 <= exp_term (/ 0.7213475204444817) 14)
    by (rewrite exp_term_step; cbn [INR]; lra).
  assert (H15 : 0.00000000010264368601787363 <= exp_term (/ 0.7213475204444817) 15)
    by (rewrite exp_term_step; cbn [INR]; lra).
  assert (H16 : 0.00000000000889339769569617 <= exp_term (/ 0.7213475204444817) 16)
    by (rewrite exp_term_step; cbn [INR]; lra).
  assert (H17 : 0.00000000000072522747510236 <= exp_term (/ 0.7213475204444817) 17)
    by (rewrite exp_term_step; cbn [INR]; lra).
  assert (H18 : 0.00000000000005585437551464 <= exp_term (/ 0.7213475204444817) 18)
    by (rewrite exp_term_step; cbn [INR]; lra).
  assert (H19 : 0.00000000000000407529504314 <= exp_term (/ 0.7213475204444817) 19)
    by (rewrite exp_term_step; cbn [INR]; lra).
  assert (H20 : 0.00000000000000028247792691 <= exp_term (/ 0.7213475204444817) 20)
    by (rewrite exp_term_step; cbn [INR]; lra).
  assert (H21 : 0.00000000000000001864750272 <= exp_term (/ 0.7213475204444817) 21)
    by (rewrite exp_term_step; cbn [INR]; lra).
  assert (H22 : 0.00000000000000000117504217 <= exp_term (/ 0.7213475204444817) 22)
    by (rewrite exp_term_step; cbn [INR]; lra).
  assert (H23 : 0.00000000000000000007082410 <= exp_term (/ 0.7213475204444817) 23)
    by (rewrite exp_term_step; cbn [INR]; lra).
  repeat split; assumption.
Qed.

Lemma exp_inv_RcpLog4 : 4 < exp (/ 0.7213475204444817).
Proof.
  apply Rlt_le_trans with (sum_f_R0 (exp_term (/ 0.7213475204444817)) 23).
  - cbn [sum_f_R0].
    destruct exp_term_bounds as (T0 & T1 & T2 & T3 & T4 & T5 & T6 & T7 & T8 & T9 & T10 & T11 & T12 & T13 & T14 & T15 & T16 & T17 & T18 & T19 & T20 & T21 & T22 & T23).
    lra.
  - apply exp_ge_partial_sum. lra.
Qed.

Lemma ln4_scaled_lt_1 : ln 4 * 0.7213475204444817 < 1.
Proof.
  assert (H : ln 4 < / 0.7213475204444817).
  { rewrite <- (ln_exp (/ 0.7213475204444817)). apply ln_increasing; [lra |].
    apply exp_inv_RcpLog4. }
  lra.
Qed.

Lemma exp_lt_inv (x : R) : 0 < x < 1 -> exp x < / (1 - x).
Proof.
  intros [H0 H1].
  pose proof (exp_ineq1 (- x) ltac:(lra)) as H. rewrite exp_Ropp in H.
  pose proof (exp_pos x) as He.
  apply (Rmult_lt_reg_r (1 - x)); [lra |]. rewrite Rinv_l by lra.
  apply (Rmult_lt_compat_l (exp x)) in H; [| lra].
  rewrite Rinv_r in H by lra. lra.
Qed.

Lemma ln4_gt : 1.11 < ln 4.
Proof.
  rewrite <- (ln_exp 1.11). apply ln_increasing; [apply exp_pos |].
  replace 1.11 with (0.2775 + 0.2775 + (0.2775 + 0.2775)) by lra.
  rewrite !exp_plus.
  pose proof (exp_lt_inv 0.2775 ltac:(lra)) as H.
  pose proof (exp_pos 0.2775) as Hp.
  set (e := exp 0.2775) in *.
  assert (He : e < 1.3841) by lra.
  assert (He2 : e * e < 1.92) by nra.
  assert (Hp2 : 0 < e * e) by nra.
  nra.
Qed.

Lemma ln4_scaled_gt : 0.8 < ln 4 * 0.7213475204444817.
Proof. pose proof ln4_gt. lra. Qed.

(** *** Truncation *)

Lemma truncate_int (k : nat) (x : R) : INR k <= x < INR k + 1 -> truncate x = k.
Proof.
  intros [Hlo Hhi]. unfold truncate, truncate_Z.
  pose proof (pos_INR k) as Hk.
  rewrite (proj2 (Rleb_le 0 x)) by lra.
  replace (Int_part x) with (Z.of_nat k); [apply Nat2Z.id |].
  apply Int_part_spec. rewrite <- INR_IZR_INZ. lra.
Qed.

Lemma truncate_within_one (x y : R) :
  0 <= x <= y -> y < x + 1 -> (truncate y <= truncate x + 1)%nat.
Proof.
  intros [H0 Hxy] Hlt. unfold truncate, truncate_Z.
  rewrite (proj2 (Rleb_le 0 x)) by lra. rewrite (proj2 (Rleb_le 0 y)) by lra.
  destruct (base_Int_part x) as [Hx1 Hx2]. destruct (base_Int_part y) as [Hy1 Hy2].
  assert (Hx0 : (0 <= Int_part x)%Z).
  { replace 0%Z with (Int_part 0); [apply Int_part_mono; lra |].
    symmetry. apply Int_part_spec. simpl. lra. }
  assert (H : IZR (Int_part y) < IZR (Int_part x + 2)) by (rewrite plus_IZR; lra).
  apply lt_IZR in H. lia.
Qed.

(** *** The two readings of the maximum second difference agree *)

Lemma Rmax_list_ext (l l' : list R) :
  (forall v, In v l <-> In v l') -> Rmax_list l = Rmax_list l'.
Proof.
  intros Hext.
  destruct l as [| a l].
  - destruct l' as [| a' l']; [reflexivity |].
    exfalso. apply (proj2 (Hext a')). left. reflexivity.
  - destruct l' as [| a' l'].
    + exfalso. apply (proj1 (Hext a)). left. reflexivity.
    + apply Rle_antisym.
      * apply Rmax_list_ge. apply Hext. apply Rmax_list_in. discriminate.
      * apply Rmax_list_ge. apply Hext. apply Rmax_list_in. discriminate.
Qed.

Lemma get_nth {A : Type} (d : A) (n : nat) (a : array A n) (i : nat) :
  get d a i = nth i (to_list a) d.
Proof.
  revert i. induction n as [| n IH]; intros i.
  - destruct i; reflexivity.
  - destruct a as [h a']. destruct i as [| i]; cbn [get to_list fst snd nth].
    + reflexivity.
    + apply IH.
Qed.

Lemma length_to_list {A : Type} (n : nat) (a : array A n) : length (to_list a) = n.
Proof.
  induction n as [| n IH]; [reflexivity |].
  destruct a as [h a']. cbn [to_list fst snd length]. f_equal. apply IH.
Qed.

Lemma second_differences_in (axis : Vector3.t -> R) (d : Vector3.t)
  (l : list Vector3.t) (v : R) :
  In v (second_differences axis l) <->
  exists i : nat,
    (i + 2 < length l)%nat /\
    v = Rabs (axis (nth i l d) - 2 * axis (nth (i + 1) l d) + axis (nth (i + 2) l d)).
Proof.
  induction l as [| p0 l IH].
  - cbn [second_differences In length]. split; [intros [] | intros [i [Hi _]]; lia].
  - destruct l as [| p1 [| p2 l]].
    + cbn [second_differences In length]. split; [intros [] | intros [i [Hi _]]; lia].
    + cbn [second_differences In length]. split; [intros [] | intros [i [Hi _]]; lia].
    + change (second_differences axis (p0 :: p1 :: p2 :: l))
        with (Rabs (axis p0 - 2 * axis p1 + axis p2)
              :: second_differences axis (p1 :: p2 :: l)).
      cbn [In]. rewrite IH. split.
      * intros [Hv | [i [Hi Hv]]].
        -- exists 0%nat. split; [cbn [length]; lia |]. cbn [Nat.add nth]. auto.
        -- exists (S i). split; [cbn [length] in *; lia |].
           cbn [Nat.add nth]. exact Hv.
      * intros [[| i] [Hi Hv]].
        -- left. cbn [Nat.add nth] in Hv. auto.
        -- right. exists i. split; [cbn [length] in *; lia |].
           cbn [Nat.add nth] in Hv. exact Hv.
Qed.

Lemma Linf_max_second_difference {N : nat} (c : BezierCurveBase N) :
  Linf c = max_second_difference c.
Proof.
  unfold Linf, max_second_difference. cbv zeta.
  apply Rmax_list_ext. intros v.
  rewrite in_flat_map, in_app_iff.
  rewrite !(second_differences_in _ Vector3.zero).
  rewrite length_to_list.
  unfold second_diff, get_control_point.
  split.
  - intros [i [Hi Hv]]. apply in_seq in Hi. cbn [In] in Hv.
    destruct Hv as [Hv | [Hv | []]]; [left | right];
      (exists i; split; [lia |]); rewrite <- !get_nth; auto.
  - intros [[i [Hi Hv]] | [i [Hi Hv]]]; exists i;
      (split; [apply in_seq; lia |]); cbn [In]; rewrite !get_nth; auto.
Qed.

(** *** The depth computed by the code *)

Lemma Ext_depth_le_5 (x : Ext.t) : (Ext.truncate (Ext.clamp x 0 5) <= 5)%nat.
Proof.
  assert (H5 : INR 5 = 5) by (simpl; ring).
  destruct x as [r | | |]; cbn [Ext.clamp Ext.truncate]; try lia.
  - apply truncate_le. rewrite H5. apply clamp_bounds. lra.
  - apply truncate_le. rewrite H5. lra.
  - apply truncate_le. rewrite H5. lra.
Qed.

Lemma compute_max_recursion_depth_le_5 {N : nat} (c : BezierCurveBase N) :
  (compute_max_recursion_depth c <= 5)%nat.
Proof.
  unfold compute_max_recursion_depth.
  destruct (N <? 2)%nat; [lia |].
  cbv zeta. apply Ext_depth_le_5.
Qed.

Lemma fold_right_Rmax_seed (l : list R) (a b : R) :
  fold_right Rmax (Rmax a b) l = Rmax b (fold_right Rmax a l).
Proof.
  induction l as [| h l IH]; simpl.
  - apply Rmax_comm.
  - rewrite IH. rewrite !Rmax_assoc. f_equal. apply Rmax_comm.
Qed.

Lemma fold_left_max3 {A : Type} (f g : A -> R) (l : list A) (a : R) :
  fold_left (fun m i => max3 m (f i) (g i)) l a
  = fold_right Rmax a (flat_map (fun i => [f i; g i]) l).
Proof.
  revert a. induction l as [| i l IH]; intros a; simpl; [reflexivity |].
  rewrite IH. unfold max3.
  rewrite !fold_right_Rmax_seed. rewrite Rmax_comm.
  rewrite <- !Rmax_assoc. f_equal. apply Rmax_comm.
Qed.

(** For N >= 2 the loop of the code computes [Linf], and the depth is the
    truncated clamp of the scaled logarithm of the quotient. *)
Lemma depth_extended {N : nat} (c : BezierCurveBase N) :
  (2 <= N)%nat ->
  compute_max_recursion_depth c
  = Ext.truncate
      (Ext.clamp
         (Ext.mul
            (Ext.log (Ext.div (sqrt 2 * INR N * (INR N - 1) * Linf c)
                              (8 * (get_max_width c / 20))))
            RcpLog4) 0 5).
Proof.
  intros HN. unfold compute_max_recursion_depth.
  destruct (Nat.ltb_spec N 2) as [Hlt | _]; [lia |].
  cbv zeta. unfold SqrtTwo, get_max_width. do 5 f_equal.
  - rewrite fold_left_max3.
    assert (HL : fold_right Rmax
                   (Rmax (second_diff c Vector3.x 0) (second_diff c Vector3.y 0))
                   (flat_map (fun i => [second_diff c Vector3.x i; second_diff c Vector3.y i])
                             (seq 1 (N - 2)))
                 = Linf c).
    { unfold Linf. replace (N - 1)%nat with (S (N - 2)) by lia.
      simpl. rewrite fold_right_Rmax_seed. reflexivity. }
    rewrite HL.
    replace (INR (N - 1)) with (INR N - 1) by (rewrite minus_INR by lia; simpl; ring).
    reflexivity.
  - lra.
Qed.

Lemma Linf_nonneg {N : nat} (c : BezierCurveBase N) : 0 <= Linf c.
Proof.
  unfold Linf. set (L := flat_map _ (seq 0 (N - 1))).
  assert (HL : L = [] \/ L <> []) by (destruct L; [left | right]; congruence).
  destruct HL as [-> | Hne]; [cbn; lra |].
  pose proof (Rmax_list_in L Hne) as Hin. unfold L in Hin at 2.
  apply in_flat_map in Hin. destruct Hin as [i [_ Hin]].
  cbn [In] in Hin. unfold second_diff in Hin.
  destruct Hin as [Hin | [Hin | []]]; rewrite <- Hin; apply Rabs_pos.
Qed.

Lemma flatness_value_spec {N : nat} (c : BezierCurveBase N) :
  flatness_value c = spec_flatness c.
Proof.
  unfold flatness_value, spec_flatness. cbv zeta.
  rewrite Linf_max_second_difference. reflexivity.
Qed.

Lemma ln_of_nonpositive (x : R) : x <= 0 -> ln x = 0.
Proof.
  intros Hx. unfold ln. destruct (Rlt_dec 0 x) as [Hpos | _]; [| reflexivity].
  exfalso. exact (Rlt_not_le _ _ Hpos Hx).
Qed.

(** With a positive width the quotient is a number, and the depth is the one
    the real logarithm gives. *)
Lemma depth_of_value {N : nat} (c : BezierCurveBase N) :
  (2 <= N)%nat ->
  0 < get_max_width c ->
  compute_max_recursion_depth c
  = truncate (clamp (ln (flatness_value c) * RcpLog4) 0 5).
Proof.
  intros HN Hw. rewrite depth_extended by exact HN.
  unfold Ext.div. destruct (Req_dec_T _ 0) as [Hz | _]; [lra |].
  fold (flatness_value c). cbn [Ext.log].
  destruct (Rltb 0 (flatness_value c)) eqn:Epos; [reflexivity |].
  apply Rltb_ge in Epos.
  rewrite (ln_of_nonpositive _ Epos), Rmult_0_l.
  assert (H0 : truncate (clamp 0 0 5) = 0%nat).
  { unfold clamp. rewrite (proj2 (Rleb_le 0 0)) by lra. apply truncate_zero. }
  rewrite H0.
  destruct (Rltb (flatness_value c) 0); cbn [Ext.mul Ext.clamp Ext.truncate];
    [reflexivity |].
  rewrite (proj2 (Rltb_lt 0 RcpLog4)) by apply RcpLog4_pos.
  cbn [Ext.clamp Ext.truncate]. apply truncate_zero.
Qed.

(** With width 0 and a positive second difference the quotient is plus
    infinity, which the clamp sends to 5. *)
Lemma depth_of_zero_width {N : nat} (c : BezierCurveBase N) :
  (2 <= N)%nat ->
  get_max_width c = 0 ->
  0 < Linf c ->
  compute_max_recursion_depth c = 5%nat.
Proof.
  intros HN Hw Hl. rewrite depth_extended by exact HN.
  assert (HNr : 2 <= INR N) by (apply (le_INR 2 N HN)).
  assert (Hs : 0 < sqrt 2) by (apply sqrt_lt_R0; lra).
  assert (Hk : 0 < sqrt 2 * INR N * (INR N - 1) * Linf c).
  { repeat apply Rmult_lt_0_compat; lra. }
  unfold Ext.div. destruct (Req_dec_T _ 0) as [_ | Hnz]; [| exfalso; lra].
  rewrite (proj2 (Rltb_lt 0 _)) by exact Hk.
  cbn [Ext.log Ext.mul].
  rewrite (proj2 (Rltb_lt 0 RcpLog4)) by apply RcpLog4_pos.
  cbn [Ext.clamp Ext.truncate].
  apply (truncate_int 5). simpl. lra.
Qed.

Lemma scaled_depth_within_one (v : R) :
  0 < v ->
  (truncate (clamp (ln v * 0.7213475204444817) 0 5)
   <= truncate (clamp (log4 v) 0 5)
   <= truncate (clamp (ln v * 0.7213475204444817) 0 5) + 1)%nat.
Proof.
  intros Hv. pose proof ln4_scaled_lt_1 as Hlt. pose proof ln4_scaled_gt as Hgt.
  pose proof ln4_gt as H4.
  set (s := log4 v).
  assert (Hs : ln v = s * ln 4) by (unfold s, log4; field; lra).
  rewrite Hs.
  set (k := ln 4 * 0.7213475204444817) in *.
  replace (s * ln 4 * 0.7213475204444817) with (s * k) by (unfold k; ring).
  destruct (Rle_dec s 0) as [Hneg | Hpos].
  - assert (Hr : s * k <= 0) by nra.
    unfold clamp. rewrite (proj2 (Rleb_le _ 0)) by exact Hr.
    rewrite (proj2 (Rleb_le _ 0)) by exact Hneg. lia.
  - assert (Hs0 : 0 < s) by lra.
    assert (Hle : s * k <= s) by nra.
    pose proof (clamp_bounds (s * k) 0 5 ltac:(lra)) as Hb1.
    pose proof (clamp_bounds s 0 5 ltac:(lra)) as Hb2.
    pose proof (clamp_mono (s * k) s 0 5 ltac:(lra) Hle) as Hm.
    split.
    + apply truncate_mono. lra.
    + apply truncate_within_one; [lra |].
      unfold clamp.
      destruct (Rleb (s * k) 0) eqn:E1;
        [apply Rleb_le in E1; nra | apply Rleb_gt in E1].
      rewrite (proj2 (Rleb_gt s 0)) by lra.
      destruct (Rgeb s 5) eqn:E2; [apply Rgeb_le in E2 | apply Rgeb_lt in E2];
      destruct (Rgeb (s * k) 5) eqn:E3;
        try apply Rgeb_le in E3; try apply Rgeb_lt in E3; nra.
Qed.


(** ** Bounded recursion *)

Section Recursion.

Context {N : nat} `{BezierCurveType N}.
Variable original_curve : BezierCurveBase N.
Variable xfm : Matrix.t.

Lemma recursive_call_decreases (a b : Call) :
  recursive_call original_curve xfm a b -> call_depth a = S (call_depth b).
Proof. intros Hcall. destruct Hcall; reflexivity. Qed.

Lemma no_call_at_depth_0 (a b : Call) :
  call_depth a = 0%nat -> ~ recursive_call original_curve xfm a b.
Proof.
  intros H0 Hcall. apply recursive_call_decreases in Hcall. lia.
Qed.

Lemma call_chain_depth (n : nat) (a b : Call) :
  call_chain original_curve xfm n a b -> call_depth a = (n + call_depth b)%nat.
Proof.
  induction 1 as [a | n a b c Hcall _ IH]; [reflexivity |].
  apply recursive_call_decreases in Hcall. lia.
Qed.

Lemma recursive_call_wf :
  well_founded (fun b a : Call => recursive_call original_curve xfm a b).
Proof.
  apply (well_founded_lt_compat Call call_depth).
  intros b a Hcall. apply recursive_call_decreases in Hcall. lia.
Qed.

End Recursion.



(** ** Cached maximum width and bounding box *)

Lemma map_get_seq {A : Type} (d : A) (n : nat) (a : array A n) :
  map (get d a) (seq 0 n) = to_list a.
Proof.
  induction n as [| n IH]; [reflexivity |].
  destruct a as [h a']. cbn [seq map to_list fst snd get].
  f_equal. rewrite <- seq_shift, map_map. cbn [get snd]. apply IH.
Qed.

Lemma map_get_tail {A : Type} (d : A) (n : nat) (a : array A (S n)) :
  map (get d a) (seq 1 n) = to_list (snd a).
Proof.
  rewrite <- seq_shift, map_map. cbn [get]. apply map_get_seq.
Qed.

Lemma fold_left_over_map {A B C : Type} (f : A -> B -> A) (g : C -> B)
  (l : list C) (a : A) :
  fold_left (fun m i => f m (g i)) l a = fold_left f (map g l) a.
Proof.
  revert a. induction l as [| i l IH]; intros a; [reflexivity | apply IH].
Qed.

Lemma fold_left_Rmax (l : list R) (a : R) :
  fold_left Rmax l a = fold_right Rmax a l.
Proof.
  apply fold_symmetric.
  - intros x y z. apply Rmax_assoc.
  - intros y. apply Rmax_comm.
Qed.

Lemma fold_left_Rmin (l : list R) (a : R) :
  fold_left Rmin l a = fold_right Rmin a l.
Proof.
  apply fold_symmetric.
  - intros x y z. apply Rmin_assoc.
  - intros y. apply Rmin_comm.
Qed.

Lemma compute_max_width_spec {N : nat} (width : array R (S N)) :
  compute_max_width width = Rmax_list (to_list width).
Proof.
  unfold compute_max_width.
  rewrite (fold_left_over_map Rmax (get 0 width)), map_get_tail, fold_left_Rmax.
  destruct width as [w0 ws]. reflexivity.
Qed.

Lemma fold_insert (l : list Vector3.t) (b : AABB.t) :
  fold_left AABB.insert l b =
  AABB.mk
    (Vector3.mk (fold_left Rmin (map Vector3.x l) (Vector3.x (AABB.min b)))
                (fold_left Rmin (map Vector3.y l) (Vector3.y (AABB.min b)))
                (fold_left Rmin (map Vector3.z l) (Vector3.z (AABB.min b))))
    (Vector3.mk (fold_left Rmax (map Vector3.x l) (Vector3.x (AABB.max b)))
                (fold_left Rmax (map Vector3.y l) (Vector3.y (AABB.max b)))
                (fold_left Rmax (map Vector3.z l) (Vector3.z (AABB.max b)))).
Proof.
  revert b. induction l as [| p l IH]; intros b.
  - destruct b as [[? ? ?] [? ? ?]]. reflexivity.
  - cbn [fold_left map]. rewrite IH. reflexivity.
Qed.

Lemma compute_bbox_spec {N : nat} (ctrl_pts : array Vector3.t (S N)) (max_width : R) :
  compute_bbox ctrl_pts max_width =
  AABB.robust_grow
    (AABB.grow (hull_box ctrl_pts) (Vector3.splat (max_width / 2))) 1.0e-4.
Proof.
  unfold compute_bbox. cbv zeta.
  rewrite (fold_left_over_map AABB.insert (get Vector3.zero ctrl_pts)), map_get_tail.
  rewrite fold_insert, !fold_left_Rmin, !fold_left_Rmax.
  replace (max_width * 0.5) with (max_width / 2) by lra.
  destruct ctrl_pts as [p0 ps]. reflexivity.
Qed.

(** A curve whose cached fields are those its control data determine. *)
Lemma make_curve_current {N : nat} (ctrl_pts : array Vector3.t (S N))
  (width : array R (S N)) :
  let c := make_curve ctrl_pts width in
  m_max_width c = max_radius c /\ m_bbox c = spec_bbox c.
Proof.
  cbv zeta. unfold spec_bbox, max_radius, make_curve. cbn [m_max_width m_bbox m_width m_ctrl_pts].
  rewrite compute_bbox_spec, compute_max_width_spec. split; reflexivity.
Qed.

Lemma fold_right_Rmin_le (l : list R) (a x : R) :
  x = a \/ In x l -> fold_right Rmin a l <= x.
Proof.
  induction l as [| h l IH]; cbn [fold_right In].
  - intros [-> | []]. lra.
  - intros [Hx | [Hx | Hx]].
    + apply Rle_trans with (fold_right Rmin a l); [apply Rmin_r | auto].
    + subst h. apply Rmin_l.
    + apply Rle_trans with (fold_right Rmin a l); [apply Rmin_r | auto].
Qed.

Lemma Rmin_list_le (l : list R) (x : R) : In x l -> Rmin_list l <= x.
Proof.
  destruct l as [| a l]; [intros [] |].
  intros [Hx | Hx]; apply fold_right_Rmin_le; auto.
Qed.

Lemma in_to_list {A : Type} (d : A) (n : nat) (a : array A n) (i : nat) :
  (i < n)%nat -> In (get d a i) (to_list a).
Proof.
  revert i. induction n as [| n IH]; intros i Hi; [lia |].
  destruct a as [h a']. destruct i as [| i]; cbn [get to_list fst snd In].
  - left. reflexivity.
  - right. apply IH. lia.
Qed.

Lemma get_afill {A : Type} (d v : A) (n i : nat) :
  (i < n)%nat -> get d (afill n v) i = v.
Proof.
  revert i. induction n as [| n IH]; intros i Hi; [lia |].
  destruct i as [| i]; cbn [afill get fst snd]; [reflexivity | apply IH; lia].
Qed.

Lemma get_amap {A B : Type} (dA : A) (dB : B) (f : A -> B) (n : nat)
  (a : array A n) (i : nat) :
  (i < n)%nat -> get dB (amap f a) i = f (get dA a i).
Proof.
  revert i. induction n as [| n IH]; intros i Hi; [lia |].
  destruct a as [h a']. destruct i as [| i]; cbn [amap get fst snd];
    [reflexivity | apply IH; lia].
Qed.

Lemma max_radius_nonneg {N : nat} (c : BezierCurveBase N) :
  widths_nonneg (m_width c) -> 0 <= max_radius c.
Proof.
  intros Hw. unfold max_radius.
  apply Rle_trans with (get 0 (m_width c) 0%nat); [apply Hw; lia |].
  apply Rmax_list_ge. apply in_to_list. lia.
Qed.

(** Each coordinate of a control point lies between the faces of the box
    the spec prescribes. *)
Lemma spec_bbox_control_point {N : nat} (c : BezierCurveBase N) (i : nat) :
  widths_nonneg (m_width c) -> (i <= N)%nat ->
  AABB.contains (spec_bbox c) (get_control_point c i).
Proof.
  intros Hw Hi. pose proof (max_radius_nonneg c Hw) as Hr.
  assert (Hin : In (get_control_point c i) (to_list (m_ctrl_pts c)))
    by (apply in_to_list; lia).
  unfold AABB.contains, spec_bbox, hull_box.
  cbn [AABB.robust_grow AABB.grow AABB.min AABB.max Vector3.sub Vector3.add
       Vector3.splat Vector3.x Vector3.y Vector3.z].
  pose proof (Rmin_list_le _ _ (in_map Vector3.x _ _ Hin)).
  pose proof (Rmin_list_le _ _ (in_map Vector3.y _ _ Hin)).
  pose proof (Rmin_list_le _ _ (in_map Vector3.z _ _ Hin)).
  pose proof (Rmax_list_ge _ _ (in_map Vector3.x _ _ Hin)).
  pose proof (Rmax_list_ge _ _ (in_map Vector3.y _ _ Hin)).
  pose proof (Rmax_list_ge _ _ (in_map Vector3.z _ _ Hin)).
  lra.
Qed.

Lemma diff_nonneg (a b : R) : a <= b -> 0 <= b - a.
Proof. lra. Qed.

(** Convex combinations stay between bounds of their terms. *)
Lemma bernstein1_between (lo hi a0 a1 t : R) :
  0 <= t <= 1 -> lo <= a0 <= hi -> lo <= a1 <= hi ->
  lo <= a0 * (1 - t) + a1 * t <= hi.
Proof. intros Ht H0 H1. nra. Qed.

Lemma bernstein2_between (lo hi a0 a1 a2 t : R) :
  0 <= t <= 1 -> lo <= a0 <= hi -> lo <= a1 <= hi -> lo <= a2 <= hi ->
  lo <= a0 * ((1 - t) * (1 - t)) + a1 * (2 * (1 - t) * t) + a2 * (t * t) <= hi.
Proof.
  intros Ht H0 H1 H2.
  assert (B0 : 0 <= (1 - t) * (1 - t)) by nra.
  assert (B1 : 0 <= 2 * (1 - t) * t) by nra.
  assert (B2 : 0 <= t * t) by nra.
  pose proof (Rmult_le_pos _ _ B0 (diff_nonneg _ _ (proj1 H0))).
  pose proof (Rmult_le_pos _ _ B1 (diff_nonneg _ _ (proj1 H1))).
  pose proof (Rmult_le_pos _ _ B2 (diff_nonneg _ _ (proj1 H2))).
  pose proof (Rmult_le_pos _ _ B0 (diff_nonneg _ _ (proj2 H0))).
  pose proof (Rmult_le_pos _ _ B1 (diff_nonneg _ _ (proj2 H1))).
  pose proof (Rmult_le_pos _ _ B2 (diff_nonneg _ _ (proj2 H2))).
  split; nra.
Qed.

Lemma bernstein3_between (lo hi a0 a1 a2 a3 t : R) :
  0 <= t <= 1 ->
  lo <= a0 <= hi -> lo <= a1 <= hi -> lo <= a2 <= hi -> lo <= a3 <= hi ->
  lo <= a0 * ((1 - t) * (1 - t) * (1 - t)) + a1 * (3 * (1 - t) * (1 - t) * t)
        + a2 * (3 * (1 - t) * t * t) + a3 * (t * t * t) <= hi.
Proof.
  intros Ht H0 H1 H2 H3.
  assert (U : 0 <= 1 - t) by lra.
  assert (T : 0 <= t) by lra.
  assert (B0 : 0 <= (1 - t) * (1 - t) * (1 - t))
    by (repeat apply Rmult_le_pos; assumption).
  assert (B1 : 0 <= 3 * (1 - t) * (1 - t) * t)
    by (repeat apply Rmult_le_pos; try assumption; lra).
  assert (B2 : 0 <= 3 * (1 - t) * t * t)
    by (repeat apply Rmult_le_pos; try assumption; lra).
  assert (B3 : 0 <= t * t * t) by (repeat apply Rmult_le_pos; assumption).
  pose proof (Rmult_le_pos _ _ B0 (diff_nonneg _ _ (proj1 H0))).
  pose proof (Rmult_le_pos _ _ B1 (diff_nonneg _ _ (proj1 H1))).
  pose proof (Rmult_le_pos _ _ B2 (diff_nonneg _ _ (proj1 H2))).
  pose proof (Rmult_le_pos _ _ B3 (diff_nonneg _ _ (proj1 H3))).
  pose proof (Rmult_le_pos _ _ B0 (diff_nonneg _ _ (proj2 H0))).
  pose proof (Rmult_le_pos _ _ B1 (diff_nonneg _ _ (proj2 H1))).
  pose proof (Rmult_le_pos _ _ B2 (diff_nonneg _ _ (proj2 H2))).
  pose proof (Rmult_le_pos _ _ B3 (diff_nonneg _ _ (proj2 H3))).
  split; nra.
Qed.

Lemma cache_current_spec {N : nat} (c : BezierCurveBase N) :
  cache_current c -> m_max_width c = max_radius c /\ m_bbox c = spec_bbox c.
Proof.
  intros Hc.
  pose proof (make_curve_current (m_ctrl_pts c) (m_width c)) as Hm.
  cbv zeta in Hm. rewrite <- Hc in Hm. exact Hm.
Qed.

Section Invariant.

Context {N : nat} `{BezierCurveType N}.

Hypothesis split_current : forall c : BezierCurveBase N,
  cache_current (fst (split c)) /\ cache_current (snd (split c)).

Hypothesis split_nonneg : forall c : BezierCurveBase N,
  widths_nonneg (m_width c) ->
  widths_nonneg (m_width (fst (split c))) /\
  widths_nonneg (m_width (snd (split c))).

Lemma constructed_sound (c : BezierCurveBase N) :
  constructed c -> cache_current c /\ widths_nonneg (m_width c).
Proof.
  induction 1 as [pts w Hw | pts ws Hws | c xfm _ [_ IH] | c _ [_ IH] | c _ [_ IH]].
  - split; [reflexivity |].
    intros i Hi. cbn [BezierCurveBase_uniform make_curve m_width].
    rewrite get_afill by assumption. exact Hw.
  - split; [reflexivity | exact Hws].
  - split; [reflexivity | exact IH].
  - split; [apply split_current | apply split_nonneg; exact IH].
  - split; [apply split_current | apply split_nonneg; exact IH].
Qed.

End Invariant.

Lemma split1_current (c : BezierCurveBase 1) :
  cache_current (fst (split c)) /\ cache_current (snd (split c)).
Proof. split; reflexivity. Qed.

Lemma split2_current (c : BezierCurveBase 2) :
  cache_current (fst (split c)) /\ cache_current (snd (split c)).
Proof. split; reflexivity. Qed.

Lemma split3_current (c : BezierCurveBase 3) :
  cache_current (fst (split c)) /\ cache_current (snd (split c)).
Proof. split; reflexivity. Qed.

Lemma split1_nonneg (c : BezierCurveBase 1) :
  widths_nonneg (m_width c) ->
  widths_nonneg (m_width (fst (split c))) /\ widths_nonneg (m_width (snd (split c))).
Proof.
  intros Hw.
  pose proof (Hw 0%nat ltac:(lia)) as H0. pose proof (Hw 1%nat ltac:(lia)) as H1.
  destruct c as [pts [w0 [w1 []]] mw bb]. cbn [m_width get fst snd] in H0, H1.
  split; intros i Hi; destruct i as [| [| i]]; try lia; run_geometry; lra.
Qed.

Lemma split2_nonneg (c : BezierCurveBase 2) :
  widths_nonneg (m_width c) ->
  widths_nonneg (m_width (fst (split c))) /\ widths_nonneg (m_width (snd (split c))).
Proof.
  intros Hw.
  pose proof (Hw 0%nat ltac:(lia)) as H0. pose proof (Hw 1%nat ltac:(lia)) as H1.
  pose proof (Hw 2%nat ltac:(lia)) as H2.
  destruct c as [pts [w0 [w1 [w2 []]]] mw bb]. cbn [m_width get fst snd] in H0, H1, H2.
  split; intros i Hi; destruct i as [| [| [| i]]]; try lia; run_geometry; lra.
Qed.

Lemma split3_nonneg (c : BezierCurveBase 3) :
  widths_nonneg (m_width c) ->
  widths_nonneg (m_width (fst (split c))) /\ widths_nonneg (m_width (snd (split c))).
Proof.
  intros Hw.
  pose proof (Hw 0%nat ltac:(lia)) as H0. pose proof (Hw 1%nat ltac:(lia)) as H1.
  pose proof (Hw 2%nat ltac:(lia)) as H2. pose proof (Hw 3%nat ltac:(lia)) as H3.
  destruct c as [pts [w0 [w1 [w2 [w3 []]]]] mw bb].
  cbn [m_width get fst snd] in H0, H1, H2, H3.
  split; intros i Hi; destruct i as [| [| [| [| i]]]]; try lia; run_geometry; lra.
Qed.

Lemma contains1 (c : BezierCurveBase 1) (t : R) :
  widths_nonneg (m_width c) -> 0 <= t <= 1 ->
  AABB.contains (spec_bbox c) (evaluate_point c t).
Proof.
  intros Hw Ht.
  pose proof (spec_bbox_control_point c 0 Hw ltac:(lia)) as (Hx0 & Hy0 & Hz0).
  pose proof (spec_bbox_control_point c 1 Hw ltac:(lia)) as (Hx1 & Hy1 & Hz1).
  revert Hx0 Hy0 Hz0 Hx1 Hy1 Hz1. unfold AABB.contains.
  generalize (spec_bbox c). intros b.
  destruct c as [[p0 [p1 []]] ws mw bb]. run_geometry. intros.
  split; [| split]; apply bernstein1_between; tauto.
Qed.

Lemma contains2 (c : BezierCurveBase 2) (t : R) :
  widths_nonneg (m_width c) -> 0 <= t <= 1 ->
  AABB.contains (spec_bbox c) (evaluate_point c t).
Proof.
  intros Hw Ht.
  pose proof (spec_bbox_control_point c 0 Hw ltac:(lia)) as (Hx0 & Hy0 & Hz0).
  pose proof (spec_bbox_control_point c 1 Hw ltac:(lia)) as (Hx1 & Hy1 & Hz1).
  pose proof (spec_bbox_control_point c 2 Hw ltac:(lia)) as (Hx2 & Hy2 & Hz2).
  revert Hx0 Hy0 Hz0 Hx1 Hy1 Hz1 Hx2 Hy2 Hz2. unfold AABB.contains.
  generalize (spec_bbox c). intros b.
  destruct c as [[p0 [p1 [p2 []]]] ws mw bb]. run_geometry. intros.
  split; [| split]; apply bernstein2_between; tauto.
Qed.

Lemma contains3 (c : BezierCurveBase 3) (t : R) :
  widths_nonneg (m_width c) -> 0 <= t <= 1 ->
  AABB.contains (spec_bbox c) (evaluate_point c t).
Proof.
  intros Hw Ht.
  pose proof (spec_bbox_control_point c 0 Hw ltac:(lia)) as (Hx0 & Hy0 & Hz0).
  pose proof (spec_bbox_control_point c 1 Hw ltac:(lia)) as (Hx1 & Hy1 & Hz1).
  pose proof (spec_bbox_control_point c 2 Hw ltac:(lia)) as (Hx2 & Hy2 & Hz2).
  pose proof (spec_bbox_control_point c 3 Hw ltac:(lia)) as (Hx3 & Hy3 & Hz3).
  revert Hx0 Hy0 Hz0 Hx1 Hy1 Hz1 Hx2 Hy2 Hz2 Hx3 Hy3 Hz3. unfold AABB.contains.
  generalize (spec_bbox c). intros b.
  destruct c as [[p0 [p1 [p2 [p3 []]]]] ws mw bb]. run_geometry. intros.
  split; [| split]; apply bernstein3_between; tauto.
Qed.

(** C5. Bounding-box invariant: every curve obtained by construction,
    transform or split (degree 1, 2 or 3) carries a bounding box equal to the
    axis-aligned bound of its control points grown by [max_radius / 2] and
    then by the robustness epsilon, with [max_radius] the maximum of its
    radii; consequently every point [evaluate_point(t)], t in [0,1], lies
    within that box. *)
Theorem bounding_box_invariant :
  bbox_invariant 1 /\ bbox_invariant 2 /\ bbox_invariant 3.
Proof.
  split; [| split]; intros c Hc.
  - destruct (constructed_sound split1_current split1_nonneg c Hc) as [Hcur Hw].
    destruct (cache_current_spec c Hcur) as [Hm Hb].
    split; [exact Hm | split; [exact Hb |]].
    intros t Ht. rewrite Hb. apply contains1; assumption.
  - destruct (constructed_sound split2_current split2_nonneg c Hc) as [Hcur Hw].
    destruct (cache_current_spec c Hcur) as [Hm Hb].
    split; [exact Hm | split; [exact Hb |]].
    intros t Ht. rewrite Hb. apply contains2; assumption.
  - destruct (constructed_sound split3_current split3_nonneg c Hc) as [Hcur Hw].
    destruct (cache_current_spec c Hcur) as [Hm Hb].
    split; [exact Hm | split; [exact Hb |]].
    intros t Ht. rewrite Hb. apply contains3; assumption.
Qed.

Lemma bounding_box_invariant_witness :
  AABB.contains (m_bbox Canonical.curve) (evaluate_point Canonical.curve 0.5).
Proof.
  assert (Hc : constructed Canonical.curve)
    by (apply constructed_uniform; lra).
  apply (proj1 bounding_box_invariant Canonical.curve Hc). lra.
Defined.

(** ** Transform constructor *)

Lemma transform_point_divides (xfm : Matrix.t) (p : Vector3.t) :
  transform_point xfm p = homogeneous_divide xfm p.
Proof.
  unfold transform_point, homogeneous_divide. cbv zeta.
  apply Vector3_eq; cbn [Vector3.x Vector3.y Vector3.z]; unfold Rdiv; ring.
Qed.

Lemma transform_point_scaled (xfm : Matrix.t) (p : Vector3.t) :
  transform_point_pre xfm p ->
  let q := Matrix.mulv xfm (Vector4.mk (Vector3.x p) (Vector3.y p) (Vector3.z p) 1) in
  Vector3.mul (transform_point xfm p) (Vector4.w q)
  = Vector3.mk (Vector4.x q) (Vector4.y q) (Vector4.z q).
Proof.
  unfold transform_point_pre, transform_point. intros Hw. cbv zeta.
  apply Vector3_eq; cbn [Vector3.mul Vector3.x Vector3.y Vector3.z]; field; exact Hw.
Qed.

(** C7. Transform constructor effect: the curve built from [curve] and a 4x4
    matrix has, at every index, the perspective-correct transform of the
    source control point (the homogeneous image divided by its fourth
    coordinate, which the assertion requires to be non-zero) and the radius
    of the source curve; its [max_radius] and bounding box are recomputed
    from the new control data.  The source curve is an argument of the
    constructor and the result is a new value. *)
Theorem transform_constructor_effect :
  forall (N : nat) (curve : BezierCurveBase N) (xfm : Matrix.t) (i : nat),
    (i <= N)%nat ->
    transform_point_pre xfm (get_control_point curve i) ->
    let c' := BezierCurveBase_xfm curve xfm in
    let q := Matrix.mulv xfm
               (Vector4.mk (Vector3.x (get_control_point curve i))
                           (Vector3.y (get_control_point curve i))
                           (Vector3.z (get_control_point curve i)) 1) in
    get_control_point c' i = transform_point xfm (get_control_point curve i) /\
    get_control_point c' i = homogeneous_divide xfm (get_control_point curve i) /\
    Vector3.mul (get_control_point c' i) (Vector4.w q)
      = Vector3.mk (Vector4.x q) (Vector4.y q) (Vector4.z q) /\
    get_width c' i = get_width curve i /\
    m_width c' = m_width curve /\
    m_max_width c' = max_radius c' /\
    m_bbox c' = spec_bbox c'.
Proof.
  intros N curve xfm i Hi Hpre c' q.
  assert (Hp : get_control_point c' i
               = transform_point xfm (get_control_point curve i)).
  { unfold get_control_point. subst c'.
    cbn [BezierCurveBase_xfm make_curve m_ctrl_pts].
    apply (get_amap Vector3.zero Vector3.zero). lia. }
  split; [exact Hp |].
  split; [rewrite Hp; apply transform_point_divides |].
  split; [rewrite Hp; apply (transform_point_scaled xfm _ Hpre) |].
  split; [reflexivity |].
  split; [reflexivity |].
  apply (make_curve_current (amap (transform_point xfm) (m_ctrl_pts curve))
                            (m_width curve)).
Qed.

Lemma transform_constructor_effect_witness :
  get_control_point (BezierCurveBase_xfm Canonical.curve Matrix.identity) 1
  = transform_point Matrix.identity (get_control_point Canonical.curve 1).
Proof.
  apply (transform_constructor_effect 1 Canonical.curve Matrix.identity 1).
  - lia.
  - unfold transform_point_pre. run_geometry. lra.
Defined.

(** ** Degenerate ray directions *)

Lemma rotation_x_quarter (s : R) (org : Vector3.t) :
  s = 1 \/ s = -1 ->
  translate_by_origin (Matrix.rotation_x (s * HalfPi)) org = quarter_turn_frame s org.
Proof.
  intros Hs.
  assert (Hc : cos (s * HalfPi) = 0).
  { destruct Hs as [-> | ->]; unfold HalfPi.
    - rewrite Rmult_1_l. apply cos_PI2.
    - replace (-1 * (PI / 2)) with (- (PI / 2)) by ring.
      rewrite cos_neg. apply cos_PI2. }
  assert (Hsin : sin (s * HalfPi) = s).
  { destruct Hs as [-> | ->]; unfold HalfPi.
    - rewrite Rmult_1_l. apply sin_PI2.
    - replace (-1 * (PI / 2)) with (- (PI / 2)) by ring.
      rewrite sin_neg, sin_PI2. ring. }
  apply Matrix_eq;
    cbv [translate_by_origin Matrix.rotation_x quarter_turn_frame
         Matrix.e0 Matrix.e1 Matrix.e2 Matrix.e3 Matrix.e4 Matrix.e5 Matrix.e6
         Matrix.e7 Matrix.e8 Matrix.e9 Matrix.e10 Matrix.e11 Matrix.e12
         Matrix.e13 Matrix.e14 Matrix.e15];
    rewrite ?Hc, ?Hsin; ring.
Qed.

Lemma facing_fallback (ray : Ray) :
  facing_d ray < 1.0e-6 ->
  make_facing_curve_transform ray
  = translate_by_origin (facing_rotation_fallback (Vector3.normalize (m_dir ray)))
                        (m_org ray).
Proof.
  intros Hd. unfold make_facing_curve_transform. cbv zeta.
  rewrite (proj2 (Rgeb_lt (facing_d ray) 1.0e-6)) by exact Hd. reflexivity.
Qed.

(** C8. Degenerate-direction safety: for every ray whose normalized direction
    has x/z projection length below 1e-6, [make_facing_curve_transform] takes
    the fallback branch: the frame is the rotation about x by +90 or -90
    degrees (by the sign of the direction's y component) followed by the
    translation of the origin, in which the projection length does not occur
    and by which nothing is divided; [intersect] under that frame returns a
    definite pair of flag and distance. *)
Theorem degenerate_direction_fallback :
  forall ray : Ray,
    facing_d ray < 1.0e-6 ->
    let rdir := Vector3.normalize (m_dir ray) in
    let s := if Rgtb (Vector3.y rdir) 0 then 1 else -1 in
    make_facing_curve_transform ray
      = translate_by_origin (Matrix.rotation_x (s * HalfPi)) (m_org ray) /\
    make_facing_curve_transform ray = quarter_turn_frame s (m_org ray) /\
    forall (N : nat) (C : BezierCurveType N) (curve : BezierCurveBase N) (t : R),
      exists (found : bool) (t' : R),
        intersect curve ray (make_facing_curve_transform ray) t = (found, t').
Proof.
  intros ray Hd rdir s.
  assert (Hs : s = 1 \/ s = -1)
    by (subst s; destruct (Rgtb (Vector3.y rdir) 0); auto).
  assert (Hm : make_facing_curve_transform ray
               = translate_by_origin (Matrix.rotation_x (s * HalfPi)) (m_org ray)).
  { rewrite (facing_fallback ray Hd). unfold facing_rotation_fallback. cbv zeta.
    fold rdir. subst s. destruct (Rgtb (Vector3.y rdir) 0).
    - rewrite Rmult_1_l. reflexivity.
    - replace (-1 * HalfPi) with (- HalfPi) by ring. reflexivity. }
  split; [exact Hm |].
  split; [rewrite Hm; apply rotation_x_quarter; exact Hs |].
  intros N C curve t.
  destruct (intersect curve ray (make_facing_curve_transform ray) t) as [found t'].
  exists found, t'. reflexivity.
Qed.

Lemma norm_up_dir : Vector3.norm (m_dir Canonical.ray_up) = 1.
Proof.
  unfold Vector3.norm, Vector3.dot; cbn.
  replace (0 * 0 + 1 * 1 + 0 * 0) with 1 by ring. apply sqrt_1.
Qed.

Lemma facing_d_up : facing_d Canonical.ray_up = 0.
Proof.
  unfold facing_d, Vector3.normalize. rewrite norm_up_dir.
  cbv [Canonical.ray_up m_dir Vector3.div Vector3.x Vector3.y Vector3.z].
  replace (0 / 1 * (0 / 1) + 0 / 1 * (0 / 1)) with 0 by field.
  apply sqrt_0.
Qed.

Lemma degenerate_direction_fallback_witness :
  make_facing_curve_transform Canonical.ray_up
  = quarter_turn_frame
      (if Rgtb (Vector3.y (Vector3.normalize (m_dir Canonical.ray_up))) 0
       then 1 else -1)
      (m_org Canonical.ray_up).
Proof.
  apply (degenerate_direction_fallback Canonical.ray_up).
  rewrite facing_d_up. lra.
Defined.

Lemma facing_up :
  make_facing_curve_transform Canonical.ray_up = quarter_turn_frame 1 Vector3.zero.
Proof.
  rewrite facing_fallback by (rewrite facing_d_up; lra).
  unfold facing_rotation_fallback, Vector3.normalize. rewrite norm_up_dir.
  cbv [Canonical.ray_up m_dir m_org Vector3.div Vector3.x Vector3.y Vector3.z].
  settle_order. rewrite <- (Rmult_1_l HalfPi).
  apply rotation_x_quarter. left. reflexivity.
Qed.

(** The spec's degenerate scenario on the canonical curve: under the fallback
    frame the curve lies beside the ray and the first test of [converge]
    rejects it, whatever the incoming [t]. *)
Lemma degenerate_canonical_miss (t0 : R) :
  intersect Canonical.curve Canonical.ray_up
            (make_facing_curve_transform Canonical.ray_up) t0 = (false, t0).
Proof.
  rewrite facing_up. unfold intersect.
  replace (compute_max_recursion_depth _) with 0%nat by reflexivity.
  cbn [converge].
  assert (Hc : culled (BezierCurveBase_xfm Canonical.curve
                         (quarter_turn_frame 1 Vector3.zero)) t0 = true).
  { cbv [quarter_turn_frame]. run_geometry. settle_order.
    rewrite !orb_true_r. reflexivity. }
  rewrite Hc. reflexivity.
Qed.

(** ** The miss and radius-rejection scenarios of the spec *)

Ltac unfold_matrix :=
  cbv [facing_rotation_general translate_by_origin Matrix.identity quarter_turn_frame
       Matrix.e0 Matrix.e1 Matrix.e2 Matrix.e3 Matrix.e4 Matrix.e5 Matrix.e6
       Matrix.e7 Matrix.e8 Matrix.e9 Matrix.e10 Matrix.e11 Matrix.e12
       Matrix.e13 Matrix.e14 Matrix.e15 Vector3.x Vector3.y Vector3.z].

Lemma facing_offset :
  make_facing_curve_transform Canonical.ray_offset
  = Matrix.mk 1 0 0 0  0 1 0 (-5)  0 0 1 0  0 0 0 1.
Proof.
  unfold make_facing_curve_transform, facing_d, Vector3.normalize.
  replace (Vector3.norm (m_dir Canonical.ray_offset)) with 1
    by (symmetry; apply norm_canonical_dir).
  cbv [Canonical.ray_offset m_dir m_org Vector3.div Vector3.x Vector3.y Vector3.z].
  replace (0 / 1 * (0 / 1) + 1 / 1 * (1 / 1)) with 1 by field.
  rewrite sqrt_1. settle_order.
  apply Matrix_eq; unfold_matrix; lra.
Qed.

(** Radius rejection: the ray passes 5 units beside the tube. *)
Lemma radius_rejection (t0 : R) :
  intersect Canonical.curve Canonical.ray_offset
            (make_facing_curve_transform Canonical.ray_offset) t0 = (false, t0).
Proof.
  rewrite facing_offset. unfold intersect.
  replace (compute_max_recursion_depth _) with 0%nat by reflexivity.
  cbn [converge].
  match goal with
  | |- context [culled ?c t0] => assert (Hc : culled c t0 = true)
  end.
  { run_geometry. settle_order. rewrite !orb_true_r. reflexivity. }
  rewrite Hc. reflexivity.
Qed.

Lemma norm_side_dir : Vector3.norm (m_dir Canonical.ray_side) = 1.
Proof.
  unfold Vector3.norm, Vector3.dot; cbn.
  replace (1 * 1 + 0 * 0 + 0 * 0) with 1 by ring. apply sqrt_1.
Qed.

Lemma facing_side :
  make_facing_curve_transform Canonical.ray_side
  = Matrix.mk 0 0 (-1) 0  0 1 0 0  1 0 0 0  0 0 0 1.
Proof.
  unfold make_facing_curve_transform, facing_d, Vector3.normalize.
  rewrite norm_side_dir.
  cbv [Canonical.ray_side m_dir m_org Vector3.div Vector3.x Vector3.y Vector3.z].
  replace (1 / 1 * (1 / 1) + 0 / 1 * (0 / 1)) with 1 by field.
  rewrite sqrt_1. settle_order.
  apply Matrix_eq; unfold_matrix; lra.
Qed.

(** Miss scenario: a ray along +x never reaches the depth of the curve. *)
Lemma miss_scenario (t0 : R) :
  intersect Canonical.curve Canonical.ray_side
            (make_facing_curve_transform Canonical.ray_side) t0 = (false, t0).
Proof.
  rewrite facing_side. unfold intersect.
  replace (compute_max_recursion_depth _) with 0%nat by reflexivity.
  cbn [converge].
  match goal with
  | |- context [culled ?c t0] => assert (Hc : culled c t0 = true)
  end.
  { run_geometry. settle_order. rewrite !orb_true_r. reflexivity. }
  rewrite Hc. reflexivity.
Qed.

(** ** Determinism *)

Section Determined.

Context {N : nat} `{BezierCurveType N}.

Hypothesis evaluate_point_reads : forall (c c' : BezierCurveBase N) (v : R),
  m_ctrl_pts c = m_ctrl_pts c' -> evaluate_point c v = evaluate_point c' v.

Lemma converge_leaf_original (o o' curve : BezierCurveBase N) xfm v0 vn t :
  m_ctrl_pts o = m_ctrl_pts o' ->
  converge_leaf o curve xfm v0 vn t = converge_leaf o' curve xfm v0 vn t.
Proof.
  intros Ho. unfold converge_leaf, accept_hit, hit_point.
  destruct (segment_w curve) as [w |]; [| reflexivity].
  cbv zeta. rewrite (evaluate_point_reads o o' _ Ho). reflexivity.
Qed.

Lemma converge_original (depth : nat) :
  forall (o o' curve : BezierCurveBase N) xfm v0 vn t,
    m_ctrl_pts o = m_ctrl_pts o' ->
    converge depth o curve xfm v0 vn t = converge depth o' curve xfm v0 vn t.
Proof.
  induction depth as [| depth IH]; intros o o' curve xfm v0 vn t Ho; cbn [converge].
  - destruct (culled curve t); [reflexivity |].
    apply converge_leaf_original; exact Ho.
  - destruct (culled curve t); [reflexivity |].
    destruct (split curve) as [c1 c2].
    rewrite (IH o o' c1 xfm v0 _ t Ho).
    destruct (converge depth o' c1 xfm v0 ((v0 + vn) * 0.5) t) as [found t1].
    destruct found; [reflexivity | apply IH; exact Ho].
Qed.

Lemma intersect_reads (c c' : BezierCurveBase N) (ray ray' : Ray) xfm t :
  same_control_data c c' -> m_dir ray = m_dir ray' ->
  intersect c ray xfm t = intersect c' ray' xfm t.
Proof.
  intros [Hp Hw] Hd. unfold intersect, BezierCurveBase_xfm.
  rewrite Hp, Hw, Hd. cbv zeta.
  rewrite (converge_original _ c c' _ xfm 0 1 t Hp). reflexivity.
Qed.

End Determined.

Lemma evaluate_point1_reads (c c' : BezierCurveBase 1) (v : R) :
  m_ctrl_pts c = m_ctrl_pts c' -> evaluate_point c v = evaluate_point c' v.
Proof.
  intros Hp. cbn [evaluate_point BezierCurve1].
  unfold Curve1.evaluate_point, get_control_point. rewrite Hp. reflexivity.
Qed.

Lemma evaluate_point2_reads (c c' : BezierCurveBase 2) (v : R) :
  m_ctrl_pts c = m_ctrl_pts c' -> evaluate_point c v = evaluate_point c' v.
Proof.
  intros Hp. cbn [evaluate_point BezierCurve2].
  unfold Curve2.evaluate_point, get_control_point. rewrite Hp. reflexivity.
Qed.

Lemma evaluate_point3_reads (c c' : BezierCurveBase 3) (v : R) :
  m_ctrl_pts c = m_ctrl_pts c' -> evaluate_point c v = evaluate_point c' v.
Proof.
  intros Hp. cbn [evaluate_point BezierCurve3].
  unfold Curve3.evaluate_point, get_control_point. rewrite Hp. reflexivity.
Qed.

(** ** [intersect] on a memory *)

Section MemoryProofs.

Context {N : nat} `{BezierCurveType N}.
Variable Mem : Type.
Variable original_curve : Mem -> BezierCurveBase N.
Variable ray : Mem -> Ray.
Variable xfm : Mem -> Matrix.t.
Variable t : Ref Mem R.

Hypothesis t_cell : is_cell t.
Hypothesis curve_apart : separate t original_curve.
Hypothesis ray_apart : separate t ray.
Hypothesis xfm_apart : separate t xfm.

Lemma accept_hit_mem_runs curve v0 vn w m :
  accept_hit_mem Mem original_curve curve xfm v0 vn w t m
  = written t m (accept_hit (original_curve m) curve (xfm m) v0 vn w (load t m)).
Proof.
  unfold accept_hit_mem, accept_hit, written. cbv zeta.
  destruct (_ || _); [reflexivity |].
  destruct (Rgeb _ _); reflexivity.
Qed.

Lemma converge_leaf_mem_runs curve v0 vn m :
  converge_leaf_mem Mem original_curve curve xfm v0 vn t m
  = written t m (converge_leaf (original_curve m) curve (xfm m) v0 vn (load t m)).
Proof.
  unfold converge_leaf_mem, converge_leaf.
  destruct (segment_w curve) as [w |]; [apply accept_hit_mem_runs | reflexivity].
Qed.

Lemma converge_mem_runs depth : forall curve v0 vn m,
  converge_mem Mem depth original_curve curve xfm v0 vn t m
  = written t m (converge depth (original_curve m) curve (xfm m) v0 vn (load t m)).
Proof.
  induction depth as [| depth IH]; intros curve v0 vn m;
    cbn [converge_mem converge].
  - destruct (culled curve (load t m)); [reflexivity |].
    apply converge_leaf_mem_runs.
  - destruct (culled curve (load t m)); [reflexivity |].
    destruct (split curve) as [c1 c2]. cbv zeta.
    rewrite IH.
    destruct (converge depth (original_curve m) c1 (xfm m) v0 ((v0 + vn) * 0.5)
                       (load t m)) as [found t1] eqn:E1.
    unfold written at 1. cbn [fst snd].
    destruct found; [reflexivity |].
    apply converge_miss in E1. subst t1. apply IH.
Qed.

Lemma intersect_mem_runs m :
  intersect_mem Mem original_curve ray xfm t m
  = written t m (intersect (original_curve m) (ray m) (xfm m) (load t m)).
Proof.
  unfold intersect_mem, intersect. cbv zeta.
  rewrite converge_mem_runs.
  destruct (converge _ _ _ _ _ _ _) as [found t1].
  unfold written. cbn [fst snd].
  destruct found; [| reflexivity].
  destruct t_cell as [Hread Hover].
  rewrite Hread, ray_apart, Hover. reflexivity.
Qed.

Lemma written_apart {A : Type} (g : Mem -> A) m r :
  separate t g -> g (snd (written t m r)) = g m.
Proof.
  intros Hg. unfold written. cbn [snd].
  destruct (fst r); [apply Hg | reflexivity].
Qed.

Lemma written_read m r :
  (fst r = false -> snd r = load t m) ->
  (fst (written t m r), load t (snd (written t m r))) = r.
Proof.
  intros Hmiss. destruct r as [found t1]. unfold written. cbn [fst snd] in *.
  destruct found.
  - rewrite (proj1 t_cell). reflexivity.
  - rewrite Hmiss by reflexivity. reflexivity.
Qed.

Lemma intersect_mem_agreement :
  intersect_mem_agrees original_curve ray xfm t.
Proof.
  intros m. rewrite intersect_mem_runs. apply written_read.
  destruct (intersect _ _ _ _) as [found t1] eqn:E. cbn [fst snd].
  intros ->. apply (intersect_miss _ _ _ _ _ E).
Qed.

Lemma intersect_mem_determinism :
  intersect_mem_deterministic original_curve ray xfm t.
Proof.
  intros m m' Hc Hr Hx Ht.
  pose proof (intersect_mem_agreement m) as Hm.
  pose proof (intersect_mem_agreement m') as Hm'.
  rewrite <- Hc, <- Hr, <- Hx, <- Ht in Hm'. rewrite <- Hm' in Hm.
  split; congruence.
Qed.

Lemma intersect_mem_purity :
  intersect_mem_pure original_curve ray xfm t.
Proof.
  intros m m'. unfold m'. rewrite intersect_mem_runs.
  split; [apply written_apart; exact curve_apart |].
  split; [apply written_apart; exact ray_apart |].
  split; [apply written_apart; exact xfm_apart |].
  split; [intros A g Hg; apply written_apart; exact Hg |].
  unfold written. cbn [fst snd]. intros ->. reflexivity.
Qed.

End MemoryProofs.



(** * Further properties of the code *)

(** ** What [intersect] reads *)

(** X18. For degrees 1, 2 and 3 the result of [intersect] depends on the
    curve only through its control points and widths, not through the cached
    maximum width and bounding box, and on the ray only through its
    direction, not through its origin. *)
Theorem intersect_ignores_cache_and_origin :
  intersect_determined 1 /\ intersect_determined 2 /\ intersect_determined 3.
Proof.
  split; [| split]; intros c c' ray ray' xfm xfm' t t' Hc Hd <- <-.
  - apply (intersect_reads evaluate_point1_reads); assumption.
  - apply (intersect_reads evaluate_point2_reads); assumption.
  - apply (intersect_reads evaluate_point3_reads); assumption.
Qed.

Lemma intersect_ignores_cache_and_origin_witness :
  intersect Canonical.curve Canonical.ray Matrix.identity 7
  = intersect Canonical.stale_curve Canonical.ray_shifted Matrix.identity 7.
Proof.
  apply (proj1 intersect_ignores_cache_and_origin); try reflexivity.
  split; reflexivity.
Defined.

(** ** Widths *)

Lemma width_split1 : width_split_exact 1.
Proof.
  intros [pts [w0 [w1 []]] mw bb] t.
  split; cbn; rewrite ?half_is_half; field.
Qed.

Lemma width_split2 : width_split_exact 2.
Proof.
  intros [pts [w0 [w1 [w2 []]]] mw bb] t.
  split; cbn; rewrite ?half_is_half; field.
Qed.

Lemma width_split3 : width_split_exact 3.
Proof.
  intros [pts [w0 [w1 [w2 [w3 []]]]] mw bb] t.
  split; cbn; rewrite ?half_is_half; field.
Qed.

(** X1. Width split exactness: for degrees 1, 2 and 3 and every [t], the left
    child of [split] has at [2t], and the right child at [2t - 1], the width
    the parent has at [t]. *)
Theorem width_split_exactness :
  width_split_exact 1 /\ width_split_exact 2 /\ width_split_exact 3.
Proof. exact (conj width_split1 (conj width_split2 width_split3)). Qed.

Lemma in_to_list_get {A : Type} (d : A) (n : nat) (a : array A n) (x : A) :
  In x (to_list a) -> exists i, (i < n)%nat /\ get d a i = x.
Proof.
  induction n as [| n IH]; [intros [] |].
  destruct a as [h a']. cbn [to_list fst snd In].
  intros [Hx | Hx].
  - exists 0%nat. split; [lia | exact Hx].
  - destruct (IH a' Hx) as [i [Hi Hg]]. exists (S i). split; [lia | exact Hg].
Qed.

(** X2. [compute_max_width] returns the maximum of the N + 1 widths: it is at
    least every width and equal to one of them. *)
Theorem compute_max_width_is_maximum :
  forall (N : nat) (width : array R (S N)),
    (forall i : nat, (i <= N)%nat -> get 0 width i <= compute_max_width width) /\
    (exists i : nat, (i <= N)%nat /\ compute_max_width width = get 0 width i).
Proof.
  intros N width. rewrite compute_max_width_spec. split.
  - intros i Hi. apply Rmax_list_ge. apply in_to_list. lia.
  - assert (Hne : to_list width <> []) by (destruct width; discriminate).
    destruct (in_to_list_get 0 _ width _ (Rmax_list_in _ Hne)) as [i [Hi Hg]].
    exists i. split; [lia | symmetry; exact Hg].
Qed.

Lemma compute_max_width_upper {N : nat} (width : array R (S N)) (i : nat) :
  (i <= N)%nat -> get 0 width i <= compute_max_width width.
Proof.
  intros Hi. rewrite compute_max_width_spec.
  apply Rmax_list_ge. apply in_to_list. lia.
Qed.

Lemma compute_max_width_attained {N : nat} (width : array R (S N)) :
  exists i : nat, (i <= N)%nat /\ compute_max_width width = get 0 width i.
Proof.
  rewrite compute_max_width_spec.
  assert (Hne : to_list width <> []) by (destruct width; discriminate).
  destruct (in_to_list_get 0 _ width _ (Rmax_list_in _ Hne)) as [i [Hi Hg]].
  exists i. split; [lia | symmetry; exact Hg].
Qed.

Lemma compute_max_width_le {N : nat} (width : array R (S N)) (M : R) :
  (forall i : nat, (i <= N)%nat -> get 0 width i <= M) ->
  compute_max_width width <= M.
Proof.
  intros Hall. destruct (compute_max_width_attained width) as [i [Hi ->]].
  apply Hall. exact Hi.
Qed.

Lemma cache_current_max_width {N : nat} (c : BezierCurveBase N) :
  cache_current c -> get_max_width c = compute_max_width (m_width c).
Proof. intros Hc. unfold get_max_width. rewrite Hc at 1. reflexivity. Qed.

Lemma width1_between (c : BezierCurveBase 1) (lo hi t : R) :
  0 <= t <= 1 ->
  (forall i, (i <= 1)%nat -> lo <= get_width c i <= hi) ->
  lo <= evaluate_width c t <= hi.
Proof.
  intros Ht Hw.
  pose proof (Hw 0%nat ltac:(lia)) as H0. pose proof (Hw 1%nat ltac:(lia)) as H1.
  destruct c as [pts [w0 [w1 []]] mw bb]. revert H0 H1. run_geometry. intros.
  replace ((1 - t) * w0 + t * w1) with (w0 * (1 - t) + w1 * t) by ring.
  apply bernstein1_between; assumption.
Qed.

Lemma width2_between (c : BezierCurveBase 2) (lo hi t : R) :
  0 <= t <= 1 ->
  (forall i, (i <= 2)%nat -> lo <= get_width c i <= hi) ->
  lo <= evaluate_width c t <= hi.
Proof.
  intros Ht Hw.
  pose proof (Hw 0%nat ltac:(lia)) as H0. pose proof (Hw 1%nat ltac:(lia)) as H1.
  pose proof (Hw 2%nat ltac:(lia)) as H2.
  destruct c as [pts [w0 [w1 [w2 []]]] mw bb]. revert H0 H1 H2. run_geometry. intros.
  replace ((1 - t) * (1 - t) * w0 + 2 * (1 - t) * t * w1 + t * t * w2)
    with (w0 * ((1 - t) * (1 - t)) + w1 * (2 * (1 - t) * t) + w2 * (t * t)) by ring.
  apply bernstein2_between; assumption.
Qed.

Lemma width3_between (c : BezierCurveBase 3) (lo hi t : R) :
  0 <= t <= 1 ->
  (forall i, (i <= 3)%nat -> lo <= get_width c i <= hi) ->
  lo <= evaluate_width c t <= hi.
Proof.
  intros Ht Hw.
  pose proof (Hw 0%nat ltac:(lia)) as H0. pose proof (Hw 1%nat ltac:(lia)) as H1.
  pose proof (Hw 2%nat ltac:(lia)) as H2. pose proof (Hw 3%nat ltac:(lia)) as H3.
  destruct c as [pts [w0 [w1 [w2 [w3 []]]]] mw bb]. revert H0 H1 H2 H3.
  run_geometry. intros.
  replace ((1 - t) * (1 - t) * (1 - t) * w0 + 3 * (1 - t) * (1 - t) * t * w1
           + 3 * (1 - t) * t * t * w2 + t * t * t * w3)
    with (w0 * ((1 - t) * (1 - t) * (1 - t)) + w1 * (3 * (1 - t) * (1 - t) * t)
          + w2 * (3 * (1 - t) * t * t) + w3 * (t * t * t)) by ring.
  apply bernstein3_between; assumption.
Qed.

Lemma constructed_width_range {N : nat} `{BezierCurveType N} (c : BezierCurveBase N) :
  cache_current c -> widths_nonneg (m_width c) ->
  forall i, (i <= N)%nat -> 0 <= get_width c i <= get_max_width c.
Proof.
  intros Hc Hw i Hi. split.
  - apply Hw. lia.
  - rewrite (cache_current_max_width c Hc). apply compute_max_width_upper. exact Hi.
Qed.

(** X3. On a curve obtained by construction, transform or split, the
    interpolated width at any [t] in [0,1] lies between 0 and the cached
    maximum width. *)
Theorem interpolated_width_bounded :
  width_bounded 1 /\ width_bounded 2 /\ width_bounded 3.
Proof.
  split; [| split]; intros c Hc t Ht.
  - destruct (constructed_sound split1_current split1_nonneg c Hc) as [Hcur Hw].
    apply width1_between; [exact Ht | apply constructed_width_range; assumption].
  - destruct (constructed_sound split2_current split2_nonneg c Hc) as [Hcur Hw].
    apply width2_between; [exact Ht | apply constructed_width_range; assumption].
  - destruct (constructed_sound split3_current split3_nonneg c Hc) as [Hcur Hw].
    apply width3_between; [exact Ht | apply constructed_width_range; assumption].
Qed.

Lemma interpolated_width_bounded_witness :
  0 <= evaluate_width Canonical.arc 0.25 <= get_max_width Canonical.arc.
Proof.
  apply (proj1 (proj2 interpolated_width_bounded) Canonical.arc).
  - apply constructed_uniform. lra.
  - lra.
Defined.

Lemma uniform_max_width {N : nat} (ctrl_pts : array Vector3.t (S N)) (width : R) :
  get_max_width (BezierCurveBase_uniform ctrl_pts width) = width.
Proof.
  unfold get_max_width, BezierCurveBase_uniform, make_curve. cbn [m_max_width].
  destruct (compute_max_width_attained (afill (S N) width)) as [i [Hi ->]].
  apply get_afill. lia.
Qed.

(** X4. The constructor taking a single width yields a curve whose maximum
    width is that width and whose interpolated width is that width at every
    parameter. *)
Theorem uniform_width_everywhere :
  uniform_width_constant 1 /\ uniform_width_constant 2 /\ uniform_width_constant 3.
Proof.
  split; [| split]; intros pts width t c; (split; [apply uniform_max_width |]);
    subst c; run_geometry; ring.
Qed.

Lemma split1_narrows : split_narrows 1.
Proof.
  intros c Hc. rewrite (cache_current_max_width c Hc).
  pose proof (compute_max_width_upper (m_width c) 0 ltac:(lia)) as H0.
  pose proof (compute_max_width_upper (m_width c) 1 ltac:(lia)) as H1.
  revert H0 H1. generalize (compute_max_width (m_width c)). intros M.
  destruct c as [pts [w0 [w1 []]] mw bb]. cbn [m_width get fst snd]. intros H0 H1.
  split; apply compute_max_width_le; intros i Hi;
    destruct i as [| [| i]]; try lia; run_geometry; lra.
Qed.

Lemma split2_narrows : split_narrows 2.
Proof.
  intros c Hc. rewrite (cache_current_max_width c Hc).
  pose proof (compute_max_width_upper (m_width c) 0 ltac:(lia)) as H0.
  pose proof (compute_max_width_upper (m_width c) 1 ltac:(lia)) as H1.
  pose proof (compute_max_width_upper (m_width c) 2 ltac:(lia)) as H2.
  revert H0 H1 H2. generalize (compute_max_width (m_width c)). intros M.
  destruct c as [pts [w0 [w1 [w2 []]]] mw bb]. cbn [m_width get fst snd].
  intros H0 H1 H2.
  split; apply compute_max_width_le; intros i Hi;
    destruct i as [| [| [| i]]]; try lia; run_geometry; lra.
Qed.

Lemma split3_narrows : split_narrows 3.
Proof.
  intros c Hc. rewrite (cache_current_max_width c Hc).
  pose proof (compute_max_width_upper (m_width c) 0 ltac:(lia)) as H0.
  pose proof (compute_max_width_upper (m_width c) 1 ltac:(lia)) as H1.
  pose proof (compute_max_width_upper (m_width c) 2 ltac:(lia)) as H2.
  pose proof (compute_max_width_upper (m_width c) 3 ltac:(lia)) as H3.
  revert H0 H1 H2 H3. generalize (compute_max_width (m_width c)). intros M.
  destruct c as [pts [w0 [w1 [w2 [w3 []]]]] mw bb]. cbn [m_width get fst snd].
  intros H0 H1 H2 H3.
  split; apply compute_max_width_le; intros i Hi;
    destruct i as [| [| [| [| i]]]]; try lia; run_geometry; lra.
Qed.

(** X5. The children of a split are no wider than their parent: their
    maximum width is at most the parent's, when the parent's cached maximum is
    current. *)
Theorem split_children_no_wider :
  split_narrows 1 /\ split_narrows 2 /\ split_narrows 3.
Proof. exact (conj split1_narrows (conj split2_narrows split3_narrows)). Qed.

(** ** Reported hits *)

Section HitRange.

Context {N : nat} `{BezierCurveType N}.

Lemma accept_hit_range original_curve curve xfm v0 vn w t t' :
  accept_hit original_curve curve xfm v0 vn w t = (true, t') ->
  1.0e-6 < t' <= t.
Proof.
  unfold accept_hit. cbv zeta.
  set (p := hit_point original_curve xfm v0 vn w).
  destruct (Rleb (Vector3.z p) 1.0e-6) eqn:E1; [cbn [orb]; discriminate |].
  destruct (Rltb t (Vector3.z p)) eqn:E2; [cbn [orb]; discriminate |].
  cbn [orb]. destruct (Rgeb _ _); [discriminate |].
  intros Heq. assert (Ht' : Vector3.z p = t') by congruence.
  apply Rleb_gt in E1. apply Rltb_ge in E2. lra.
Qed.

Lemma converge_leaf_range original_curve curve xfm v0 vn t t' :
  converge_leaf original_curve curve xfm v0 vn t = (true, t') ->
  1.0e-6 < t' <= t.
Proof.
  unfold converge_leaf. destruct (segment_w curve) as [w |]; [| discriminate].
  apply accept_hit_range.
Qed.

Lemma converge_hit_range depth : forall original_curve curve xfm v0 vn t t',
  converge depth original_curve curve xfm v0 vn t = (true, t') ->
  1.0e-6 < t' <= t.
Proof.
  induction depth as [| depth IH]; intros original_curve curve xfm v0 vn t t';
    cbn [converge].
  - destruct (culled curve t); [discriminate | apply converge_leaf_range].
  - destruct (culled curve t); [discriminate |].
    destruct (split curve) as [c1 c2].
    destruct (converge depth original_curve c1 xfm v0 ((v0 + vn) * 0.5) t)
      as [found t1] eqn:E1.
    destruct found.
    + intros Heq. assert (Ht1 : t1 = t') by congruence. subst t1.
      apply (IH _ _ _ _ _ _ _ E1).
    + apply converge_miss in E1. subst t1. apply IH.
Qed.

Lemma intersect_hit_range curve ray xfm t t' :
  intersect curve ray xfm t = (true, t') ->
  exists z : R, t' = z / Vector3.norm (m_dir ray) /\ 1.0e-6 < z <= t.
Proof.
  unfold intersect. cbv zeta.
  destruct (converge _ _ _ _ _ _ _) as [found t1] eqn:E.
  destruct found; [| discriminate].
  intros Heq. exists t1.
  split; [congruence | apply (converge_hit_range _ _ _ _ _ _ _ _ E)].
Qed.

Lemma intersect_small_bound curve ray xfm t :
  t <= 1.0e-6 -> intersect curve ray xfm t = (false, t).
Proof.
  intros Ht. destruct (intersect curve ray xfm t) as [found t'] eqn:E.
  destruct found.
  - destruct (intersect_hit_range _ _ _ _ _ E) as [z [_ Hz]]. lra.
  - apply intersect_miss in E. subst t'. reflexivity.
Qed.

Lemma culled_mono (curve : BezierCurveBase N) (t t2 : R) :
  t <= t2 -> culled curve t = false -> culled curve t2 = false.
Proof.
  intros Ht. unfold culled. cbv zeta.
  destruct (Rgeb (Vector3.z (AABB.min (get_bbox curve))) t) eqn:E1;
    [cbn [orb]; discriminate |].
  apply Rgeb_lt in E1.
  rewrite (proj2 (Rgeb_lt (Vector3.z (AABB.min (get_bbox curve))) t2)) by lra.
  cbn [orb]. tauto.
Qed.

Lemma accept_hit_mono original_curve curve xfm v0 vn w t t2 :
  t <= t2 ->
  fst (accept_hit original_curve curve xfm v0 vn w t) = true ->
  fst (accept_hit original_curve curve xfm v0 vn w t2) = true.
Proof.
  intros Ht. unfold accept_hit. cbv zeta.
  destruct (Rleb _ 1.0e-6) eqn:E1; [cbn [orb fst]; discriminate |].
  destruct (Rltb t _) eqn:E2; [cbn [orb fst]; discriminate |].
  apply Rltb_ge in E2.
  rewrite (proj2 (Rltb_ge t2 _)) by lra. cbn [orb].
  destruct (Rgeb _ _); cbn [fst]; tauto.
Qed.

Lemma converge_found_mono depth : forall original_curve curve xfm v0 vn t t2,
  t <= t2 ->
  fst (converge depth original_curve curve xfm v0 vn t) = true ->
  fst (converge depth original_curve curve xfm v0 vn t2) = true.
Proof.
  induction depth as [| depth IH]; intros original_curve curve xfm v0 vn t t2 Ht;
    cbn [converge].
  - destruct (culled curve t) eqn:Ec; [cbn [fst]; discriminate |].
    rewrite (culled_mono curve t t2 Ht Ec).
    unfold converge_leaf. destruct (segment_w curve) as [w |]; [| tauto].
    apply accept_hit_mono; exact Ht.
  - destruct (culled curve t) eqn:Ec; [cbn [fst]; discriminate |].
    rewrite (culled_mono curve t t2 Ht Ec).
    destruct (split curve) as [c1 c2].
    destruct (converge depth original_curve c1 xfm v0 ((v0 + vn) * 0.5) t)
      as [f1 t1] eqn:E1.
    destruct (converge depth original_curve c1 xfm v0 ((v0 + vn) * 0.5) t2)
      as [f1' t1'] eqn:E1'.
    destruct f1'; [reflexivity |].
    destruct f1.
    + pose proof (IH original_curve c1 xfm v0 ((v0 + vn) * 0.5) t t2 Ht) as Hm.
      rewrite E1, E1' in Hm. cbn [fst] in Hm. intros _. discriminate (Hm eq_refl).
    + apply converge_miss in E1. apply converge_miss in E1'. subst t1 t1'.
      apply IH; exact Ht.
Qed.

Lemma intersect_found_mono curve ray xfm t t2 :
  t <= t2 ->
  fst (intersect curve ray xfm t) = true ->
  fst (intersect curve ray xfm t2) = true.
Proof.
  intros Ht. unfold intersect. cbv zeta.
  pose proof (converge_found_mono
                (compute_max_recursion_depth (BezierCurveBase_xfm curve xfm))
                curve (BezierCurveBase_xfm curve xfm) xfm 0 1 t t2 Ht) as Hm.
  destruct (converge _ _ _ _ _ _ t) as [f1 t1].
  destruct (converge _ _ _ _ _ _ t2) as [f2 t2'].
  cbn [fst] in Hm. destruct f1; [| cbn [fst]; discriminate].
  rewrite (Hm eq_refl). reflexivity.
Qed.

End HitRange.

(** X6. A hit reported by [intersect] is the depth of a point strictly beyond
    1e-6 and no farther than the incoming [t], divided by the length of the
    ray direction; with an incoming [t] of at most 1e-6, [intersect] reports
    no hit. *)
Theorem hit_within_bound :
  forall (N : nat) (C : BezierCurveType N)
         (curve : BezierCurveBase N) (ray : Ray) (xfm : Matrix.t) (t : R),
    (forall t' : R,
        intersect curve ray xfm t = (true, t') ->
        exists z : R, t' = z / Vector3.norm (m_dir ray) /\ 1.0e-6 < z <= t) /\
    (t <= 1.0e-6 -> intersect curve ray xfm t = (false, t)).
Proof.
  intros N C curve ray xfm t. split.
  - intros t'. apply intersect_hit_range.
  - apply intersect_small_bound.
Qed.

(** X7. Enlarging the incoming bound never loses a hit: if [intersect] finds
    a hit with bound [t], it finds one with every bound [t2 >= t]. *)
Theorem larger_bound_keeps_hit :
  forall (N : nat) (C : BezierCurveType N)
         (curve : BezierCurveBase N) (ray : Ray) (xfm : Matrix.t) (t t2 : R),
    t <= t2 ->
    fst (intersect curve ray xfm t) = true ->
    fst (intersect curve ray xfm t2) = true.
Proof. intros N C curve ray xfm t t2. apply intersect_found_mono. Qed.

(** ** Subdivision *)

Lemma evaluate_width1_xfm (c : BezierCurveBase 1) xfm v :
  evaluate_width (BezierCurveBase_xfm c xfm) v = evaluate_width c v.
Proof. reflexivity. Qed.

Lemma evaluate_width2_xfm (c : BezierCurveBase 2) xfm v :
  evaluate_width (BezierCurveBase_xfm c xfm) v = evaluate_width c v.
Proof. reflexivity. Qed.

Lemma evaluate_width3_xfm (c : BezierCurveBase 3) xfm v :
  evaluate_width (BezierCurveBase_xfm c xfm) v = evaluate_width c v.
Proof. reflexivity. Qed.

Section Subdivision.

Context {N : nat} `{BezierCurveType N}.

Hypothesis point_split : forall (c : BezierCurveBase N) (t : R),
  evaluate_point (fst (split c)) (2 * t) = evaluate_point c t /\
  evaluate_point (snd (split c)) (2 * t - 1) = evaluate_point c t.

Hypothesis width_split : width_split_exact N.

Lemma tracks_first (root : BezierCurveBase N) depth curve v0 vn t :
  tracks_range root (mkCall depth curve v0 vn t) ->
  forall depth' t',
  tracks_range root (mkCall depth' (fst (split curve)) v0 ((v0 + vn) * 0.5) t').
Proof.
  intros Htr depth' t' w.
  destruct (Htr (w / 2)) as [Hp Hw]. cbn [call_curve call_v0 call_vn] in *.
  destruct (point_split curve (w / 2)) as [Hp1 _].
  destruct (width_split curve (w / 2)) as [Hw1 _].
  replace (2 * (w / 2)) with w in Hp1, Hw1 by field.
  replace (v0 * (1 - w) + (v0 + vn) * 0.5 * w)
    with (v0 * (1 - w / 2) + vn * (w / 2)) by lra.
  split; congruence.
Qed.

Lemma tracks_second (root : BezierCurveBase N) depth curve v0 vn t :
  tracks_range root (mkCall depth curve v0 vn t) ->
  forall depth' t',
  tracks_range root (mkCall depth' (snd (split curve)) ((v0 + vn) * 0.5) vn t').
Proof.
  intros Htr depth' t' w.
  destruct (Htr ((w + 1) / 2)) as [Hp Hw]. cbn [call_curve call_v0 call_vn] in *.
  destruct (point_split curve ((w + 1) / 2)) as [_ Hp2].
  destruct (width_split curve ((w + 1) / 2)) as [_ Hw2].
  replace (2 * ((w + 1) / 2) - 1) with w in Hp2, Hw2 by field.
  replace ((v0 + vn) * 0.5 * (1 - w) + vn * w)
    with (v0 * (1 - (w + 1) / 2) + vn * ((w + 1) / 2)) by lra.
  split; congruence.
Qed.

Lemma tracks_initial (curve : BezierCurveBase N) xfm t :
  tracks_range (BezierCurveBase_xfm curve xfm) (initial_call xfm curve t).
Proof.
  intros w. unfold initial_call. cbn [call_curve call_v0 call_vn].
  replace (0 * (1 - w) + 1 * w) with w by ring. split; reflexivity.
Qed.

Lemma recursive_call_tracks original_curve xfm root (a b : Call) :
  recursive_call original_curve xfm a b ->
  tracks_range root a ->
  tracks_range root b /\
  (call_v0 b = call_v0 a \/ call_vn b = call_vn a) /\
  call_vn b - call_v0 b = (call_vn a - call_v0 a) / 2.
Proof.
  intros Hcall Htr.
  destruct Hcall as [depth curve v0 vn t Hc | depth curve v0 vn t t1 Hc Hm];
    cbn [call_v0 call_vn].
  - split; [apply (tracks_first root _ _ _ _ _ Htr) |].
    split; [left; reflexivity | lra].
  - split; [apply (tracks_second root _ _ _ _ _ Htr) |].
    split; [right; reflexivity | lra].
Qed.

Lemma call_chain_tracks original_curve xfm root (n : nat) (a b : Call) :
  call_chain original_curve xfm n a b ->
  tracks_range root a ->
  call_v0 a <= call_vn a ->
  tracks_range root b /\
  call_v0 a <= call_v0 b /\ call_v0 b <= call_vn b /\ call_vn b <= call_vn a /\
  call_vn b - call_v0 b = (call_vn a - call_v0 a) * (/ 2) ^ n.
Proof.
  induction 1 as [a | n a b c Hcall _ IH]; intros Htr Hle.
  - split; [exact Htr |]. cbn [pow]. lra.
  - destruct (recursive_call_tracks _ _ root a b Hcall Htr) as [Htb [Hend Hlen]].
    assert (Hb : call_v0 b <= call_vn b) by lra.
    destruct (IH Htb Hb) as [Htc [H1 [H2 [H3 H4]]]].
    split; [exact Htc |].
    rewrite H4, Hlen. cbn [pow].
    destruct Hend as [He | He]; repeat split; lra.
Qed.

Lemma accept_hit_sound original_curve curve xfm v0 vn w t t' :
  accept_hit original_curve curve xfm v0 vn w t = (true, t') ->
  let p := hit_point original_curve xfm v0 vn w in
  let half_width := 0.5 * evaluate_width curve w in
  t' = Vector3.z p /\ 1.0e-6 < Vector3.z p <= t /\
  dist2xy p < half_width * half_width.
Proof.
  unfold accept_hit, hit_half_width, dist2xy. cbv zeta.
  set (p := hit_point original_curve xfm v0 vn w).
  destruct (Rleb (Vector3.z p) 1.0e-6) eqn:E1; [cbn [orb]; discriminate |].
  destruct (Rltb t (Vector3.z p)) eqn:E2; [cbn [orb]; discriminate |].
  cbn [orb]. destruct (Rgeb _ _) eqn:E3; [discriminate |].
  intros Heq. assert (Ht' : t' = Vector3.z p) by congruence.
  apply Rleb_gt in E1. apply Rltb_ge in E2. apply Rgeb_lt in E3.
  split; [exact Ht' |]. split; [lra | exact E3].
Qed.

Lemma converge_sound depth :
  forall (root original_curve curve : BezierCurveBase N) xfm v0 vn t t',
    v0 <= vn ->
    tracks_range root (mkCall depth curve v0 vn t) ->
    converge depth original_curve curve xfm v0 vn t = (true, t') ->
    exists v : R,
      v0 <= v <= vn /\
      let p := transform_point xfm (evaluate_point original_curve v) in
      let half_width := 0.5 * evaluate_width root v in
      t' = Vector3.z p /\ 1.0e-6 < Vector3.z p <= t /\
      dist2xy p < half_width * half_width.
Proof.
  induction depth as [| depth IH];
    intros root original_curve curve xfm v0 vn t t' Hle Htr; cbn [converge].
  - destruct (culled curve t); [discriminate |].
    unfold converge_leaf. destruct (segment_w curve) as [w |] eqn:Ew; [| discriminate].
    intros Hacc. apply accept_hit_sound in Hacc. cbv zeta in Hacc.
    destruct (segment_w_range curve w Ew) as [Hw0 Hw1].
    destruct (Htr w) as [_ Hwidth]. cbn [call_curve call_v0 call_vn] in Hwidth.
    exists (v0 * (1 - w) + vn * w). split; [split; nra |].
    cbv zeta. rewrite <- Hwidth. exact Hacc.
  - destruct (culled curve t); [discriminate |].
    pose proof (tracks_first root _ _ _ _ _ Htr depth t) as Htr1.
    destruct (split curve) as [c1 c2] eqn:Es. cbn [fst snd] in *.
    destruct (converge depth original_curve c1 xfm v0 ((v0 + vn) * 0.5) t)
      as [found t1] eqn:E1.
    destruct found.
    + intros Heq. assert (Ht1 : t1 = t') by congruence. subst t1.
      destruct (IH root original_curve c1 xfm v0 ((v0 + vn) * 0.5) t t'
                  ltac:(lra) Htr1 E1)
        as [v [Hv Hrest]].
      exists v. split; [lra | exact Hrest].
    + apply converge_miss in E1. subst t1. intros E2.
      pose proof (tracks_second root _ _ _ _ _ Htr depth t) as Htr2.
      rewrite Es in Htr2. cbn [snd] in Htr2.
      destruct (IH root original_curve c2 xfm ((v0 + vn) * 0.5) vn t t'
                  ltac:(lra) Htr2 E2)
        as [v [Hv Hrest]].
      exists v. split; [lra | exact Hrest].
Qed.

Lemma intersect_sound (curve : BezierCurveBase N) ray xfm t t' :
  (forall v, evaluate_width (BezierCurveBase_xfm curve xfm) v = evaluate_width curve v) ->
  intersect curve ray xfm t = (true, t') ->
  exists v : R,
    0 <= v <= 1 /\
    let p := transform_point xfm (evaluate_point curve v) in
    let half_width := 0.5 * evaluate_width curve v in
    t' = Vector3.z p / Vector3.norm (m_dir ray) /\
    1.0e-6 < Vector3.z p <= t /\
    dist2xy p < half_width * half_width.
Proof.
  intros Hwx. unfold intersect. cbv zeta.
  destruct (converge _ _ _ _ _ _ _) as [found t1] eqn:E.
  destruct found; [| discriminate].
  intros Heq. assert (Ht' : t' = t1 / Vector3.norm (m_dir ray)) by congruence.
  destruct (converge_sound _ (BezierCurveBase_xfm curve xfm) curve _ xfm 0 1 t t1
              ltac:(lra) (tracks_initial curve xfm t) E) as [v [Hv Hrest]].
  cbv zeta in Hrest. destruct Hrest as [Hz [Hrange Hdist]].
  exists v. split; [exact Hv |]. cbv zeta. rewrite <- Hwx.
  split; [rewrite Ht', Hz; reflexivity |]. split; assumption.
Qed.

End Subdivision.

Section ChainHit.

Context {N : nat} `{BezierCurveType N}.
Variable original_curve : BezierCurveBase N.
Variable xfm : Matrix.t.

Lemma converge_hit_chain depth : forall curve v0 vn t t',
  converge depth original_curve curve xfm v0 vn t = (true, t') ->
  exists b : Call,
    call_chain original_curve xfm depth (mkCall depth curve v0 vn t) b /\
    call_depth b = 0%nat /\
    culled (call_curve b) (call_t b) = false /\
    converge_leaf original_curve (call_curve b) xfm (call_v0 b) (call_vn b) (call_t b)
    = (true, t').
Proof.
  induction depth as [| depth IH]; intros curve v0 vn t t'; cbn [converge].
  - destruct (culled curve t) eqn:Ec; [discriminate |]. intros Hleaf.
    exists (mkCall 0 curve v0 vn t). split; [apply chain_here |].
    split; [reflexivity |]. split; assumption.
  - destruct (culled curve t) eqn:Ec; [discriminate |].
    destruct (split curve) as [c1 c2] eqn:Es.
    destruct (converge depth original_curve c1 xfm v0 ((v0 + vn) * 0.5) t)
      as [found t1] eqn:E1.
    destruct found.
    + intros Heq. assert (Ht : t1 = t') by congruence. subst t1.
      destruct (IH _ _ _ _ _ E1) as [b [Hchain Hb]].
      exists b. split; [| exact Hb].
      apply chain_down with (mkCall depth c1 v0 ((v0 + vn) * 0.5) t); [| exact Hchain].
      replace c1 with (fst (split curve)) by (rewrite Es; reflexivity).
      apply call_first. exact Ec.
    + intros E2. destruct (IH _ _ _ _ _ E2) as [b [Hchain Hb]].
      exists b. split; [| exact Hb].
      apply chain_down with (mkCall depth c2 ((v0 + vn) * 0.5) vn t1); [| exact Hchain].
      replace c2 with (snd (split curve)) by (rewrite Es; reflexivity).
      apply call_second; [exact Ec |]. rewrite Es. exact E1.
Qed.

Lemma recursive_call_hit (a b : Call) (t' : R) :
  recursive_call original_curve xfm a b ->
  converge (call_depth b) original_curve (call_curve b) xfm
           (call_v0 b) (call_vn b) (call_t b) = (true, t') ->
  converge (call_depth a) original_curve (call_curve a) xfm
           (call_v0 a) (call_vn a) (call_t a) = (true, t').
Proof.
  intros Hcall. destruct Hcall as [depth curve v0 vn t Hc | depth curve v0 vn t t1 Hc E1];
    cbn [call_depth call_curve call_v0 call_vn call_t converge]; rewrite Hc;
    destruct (split curve) as [c1 c2]; cbn [fst snd] in *.
  - intros ->. reflexivity.
  - rewrite E1. auto.
Qed.

Lemma call_chain_hit (n : nat) (a b : Call) (t' : R) :
  call_chain original_curve xfm n a b ->
  call_depth b = 0%nat ->
  culled (call_curve b) (call_t b) = false ->
  converge_leaf original_curve (call_curve b) xfm (call_v0 b) (call_vn b) (call_t b)
  = (true, t') ->
  converge (call_depth a) original_curve (call_curve a) xfm
           (call_v0 a) (call_vn a) (call_t a) = (true, t').
Proof.
  induction 1 as [a | n a b c Hcall _ IH]; intros Hd Hc Hleaf.
  - rewrite Hd. cbn [converge]. rewrite Hc. exact Hleaf.
  - apply (recursive_call_hit a b t' Hcall). apply IH; assumption.
Qed.

End ChainHit.

Lemma hit_found_by_chain_any (N : nat) (C : BezierCurveType N) : hit_found_by_chain N.
Proof.
  intros curve xfm t t' start. split.
  - intros Hrun. apply converge_hit_chain in Hrun. exact Hrun.
  - intros [b [Hchain [Hd [Hc Hleaf]]]].
    apply (call_chain_hit curve xfm _ start b t' Hchain Hd Hc Hleaf).
Qed.

(** X9. Parameter tracking: every activation of [converge] nested [n]
    levels below the one started by [intersect] holds a sub-curve that is
    the transformed curve restricted to [[v0, vn]] (points and widths agree
    under the map [w -> v0 (1 - w) + vn w]), with [[v0, vn]] inside [0,1]
    and of length 2^-n; and [converge] reports a hit exactly when one of
    these activations, at the end of a chain as long as the depth budget,
    finds it in its base case. *)
Theorem subdivision_tracks_parameter_range :
  (subdivision_tracked 1 /\ subdivision_tracked 2 /\ subdivision_tracked 3) /\
  (hit_found_by_chain 1 /\ hit_found_by_chain 2 /\ hit_found_by_chain 3).
Proof.
  split;
    [| split; [| split]; apply hit_found_by_chain_any].
  split; [| split]; intros curve xfm t n b Hchain.
  - destruct (call_chain_tracks (fun c t => conj (split1_left c t) (split1_right c t))
                width_split1 curve xfm _ n _ b Hchain (tracks_initial curve xfm t))
      as [Htr [H0 [_ [H1 Hlen]]]]; cbn [initial_call call_v0 call_vn] in *; try lra.
    split; [exact Htr |]. repeat split; lra.
  - destruct (call_chain_tracks (fun c t => conj (split2_left c t) (split2_right c t))
                width_split2 curve xfm _ n _ b Hchain (tracks_initial curve xfm t))
      as [Htr [H0 [_ [H1 Hlen]]]]; cbn [initial_call call_v0 call_vn] in *; try lra.
    split; [exact Htr |]. repeat split; lra.
  - destruct (call_chain_tracks (fun c t => conj (split3_left c t) (split3_right c t))
                width_split3 curve xfm _ n _ b Hchain (tracks_initial curve xfm t))
      as [Htr [H0 [_ [H1 Hlen]]]]; cbn [initial_call call_v0 call_vn] in *; try lra.
    split; [exact Htr |]. repeat split; lra.
Qed.

(** X8. Soundness of a hit: when [intersect] reports a hit there is a
    parameter [v] in [0,1] such that the frame transform [p] of the curve
    point at [v] has depth [p.z] in (1e-6, t], squared distance from the ray
    axis below the square of half the curve's width at [v], and the reported
    value is [p.z] divided by the length of the ray direction. *)
Theorem hit_is_on_the_tube :
  hit_sound 1 /\ hit_sound 2 /\ hit_sound 3.
Proof.
  split; [| split]; intros curve ray xfm t t'.
  - apply (intersect_sound (fun c t => conj (split1_left c t) (split1_right c t))
             width_split1). intros v. apply evaluate_width1_xfm.
  - apply (intersect_sound (fun c t => conj (split2_left c t) (split2_right c t))
             width_split2). intros v. apply evaluate_width2_xfm.
  - apply (intersect_sound (fun c t => conj (split3_left c t) (split3_right c t))
             width_split3). intros v. apply evaluate_width3_xfm.
Qed.

(** ** Ray frames *)

Lemma affine_transform_point (m : Matrix.t) (p : Vector3.t) :
  is_affine m ->
  transform_point m p =
  Vector3.mk
    (Matrix.e0 m * Vector3.x p + Matrix.e1 m * Vector3.y p + Matrix.e2 m * Vector3.z p + Matrix.e3 m)
    (Matrix.e4 m * Vector3.x p + Matrix.e5 m * Vector3.y p + Matrix.e6 m * Vector3.z p + Matrix.e7 m)
    (Matrix.e8 m * Vector3.x p + Matrix.e9 m * Vector3.y p + Matrix.e10 m * Vector3.z p + Matrix.e11 m).
Proof.
  intros (H12 & H13 & H14 & H15). unfold transform_point. cbv zeta.
  unfold Matrix.mulv. cbn [Vector4.x Vector4.y Vector4.z Vector4.w].
  rewrite H12, H13, H14, H15.
  apply Vector3_eq; cbn [Vector3.x Vector3.y Vector3.z]; field.
Qed.

Lemma affine_pre (m : Matrix.t) (p : Vector3.t) :
  is_affine m -> transform_point_pre m p.
Proof.
  intros (H12 & H13 & H14 & H15). unfold transform_point_pre, Matrix.mulv.
  cbn [Vector4.w]. rewrite H12, H13, H14, H15. lra.
Qed.

Lemma translate_affine (m : Matrix.t) (org : Vector3.t) :
  is_affine m -> is_affine (translate_by_origin m org).
Proof. intros Ha. exact Ha. Qed.

Lemma rotation_x_affine (angle : R) : is_affine (Matrix.rotation_x angle).
Proof. repeat split. Qed.

Lemma facing_affine (ray : Ray) : is_affine (make_facing_curve_transform ray).
Proof.
  unfold make_facing_curve_transform. cbv zeta. apply translate_affine.
  destruct (Rgeb (facing_d ray) 1.0e-6).
  - repeat split.
  - apply rotation_x_affine.
Qed.

Lemma translate_maps_origin (m : Matrix.t) (org : Vector3.t) :
  is_affine m -> transform_point (translate_by_origin m org) org = Vector3.zero.
Proof.
  intros Ha. rewrite affine_transform_point by (apply translate_affine; exact Ha).
  apply Vector3_eq;
    cbv [translate_by_origin Vector3.zero Vector3.x Vector3.y Vector3.z
         Matrix.e0 Matrix.e1 Matrix.e2 Matrix.e3 Matrix.e4 Matrix.e5 Matrix.e6
         Matrix.e7 Matrix.e8 Matrix.e9 Matrix.e10 Matrix.e11]; ring.
Qed.

(** X10. The matrix built by [make_facing_curve_transform] has last row
    (0,0,0,1) for every ray, so the assertion of [transform_point] holds at
    every point, and it sends the ray origin to the origin. *)
Theorem frame_is_affine_and_centred :
  forall ray : Ray,
    is_affine (make_facing_curve_transform ray) /\
    (forall p : Vector3.t, transform_point_pre (make_facing_curve_transform ray) p) /\
    transform_point (make_facing_curve_transform ray) (m_org ray) = Vector3.zero.
Proof.
  intros ray. split; [apply facing_affine |]. split.
  - intros p. apply affine_pre. apply facing_affine.
  - unfold make_facing_curve_transform. cbv zeta. apply translate_maps_origin.
    destruct (Rgeb (facing_d ray) 1.0e-6).
    + repeat split.
    + apply rotation_x_affine.
Qed.

Ltac affine_eval c xfm Ha :=
  rewrite (affine_transform_point xfm _ Ha);
  unfold BezierCurveBase_xfm, make_curve;
  cbn [evaluate_point BezierCurve1 BezierCurve2 BezierCurve3];
  unfold Curve1.evaluate_point, Curve2.evaluate_point, Curve3.evaluate_point,
    get_control_point;
  cbn [m_ctrl_pts amap get fst snd];
  rewrite !(affine_transform_point xfm _ Ha).

Lemma evaluation_commutes1 : evaluation_commutes 1.
Proof.
  intros [[p0 [p1 []]] ws mw bb] xfm v Ha. affine_eval c xfm Ha.
  cbn [m_ctrl_pts amap get fst snd].
  apply Vector3_eq; run_geometry; ring.
Qed.

Lemma evaluation_commutes2 : evaluation_commutes 2.
Proof.
  intros [[p0 [p1 [p2 []]]] ws mw bb] xfm v Ha. affine_eval c xfm Ha.
  cbn [m_ctrl_pts amap get fst snd].
  apply Vector3_eq; run_geometry; ring.
Qed.

Lemma evaluation_commutes3 : evaluation_commutes 3.
Proof.
  intros [[p0 [p1 [p2 [p3 []]]]] ws mw bb] xfm v Ha. affine_eval c xfm Ha.
  cbn [m_ctrl_pts amap get fst snd].
  apply Vector3_eq; run_geometry; ring.
Qed.

(** X12. For a matrix with last row (0,0,0,1), transforming the point of a
    curve at [v] gives the point at [v] of the curve built by the transform
    constructor (degrees 1, 2, 3). *)
Theorem affine_transform_commutes_with_evaluation :
  evaluation_commutes 1 /\ evaluation_commutes 2 /\ evaluation_commutes 3.
Proof.
  exact (conj evaluation_commutes1 (conj evaluation_commutes2 evaluation_commutes3)).
Qed.

Lemma norm_square (v : Vector3.t) :
  Vector3.norm v * Vector3.norm v = Vector3.dot v v.
Proof.
  unfold Vector3.norm. apply sqrt_sqrt. unfold Vector3.dot. nra.
Qed.

Lemma facing_d_square (ray : Ray) :
  let rdir := Vector3.normalize (m_dir ray) in
  facing_d ray * facing_d ray
  = Vector3.x rdir * Vector3.x rdir + Vector3.z rdir * Vector3.z rdir.
Proof. cbv zeta. unfold facing_d. cbv zeta. apply sqrt_sqrt. nra. Qed.

Lemma facing_d_nonzero_norm (ray : Ray) :
  1.0e-6 <= facing_d ray -> Vector3.norm (m_dir ray) <> 0.
Proof.
  intros Hd Hn. unfold facing_d, Vector3.normalize in Hd. cbv zeta in Hd.
  rewrite Hn in Hd. unfold Vector3.div in Hd.
  cbn [Vector3.x Vector3.z] in Hd. unfold Rdiv in Hd. rewrite Rinv_0 in Hd.
  rewrite !Rmult_0_r, Rplus_0_r, sqrt_0 in Hd. lra.
Qed.

Lemma frame_aligns_ray_general (ray : Ray) (s : R) :
  1.0e-6 <= facing_d ray ->
  transform_point (make_facing_curve_transform ray) (ray_point ray s)
  = Vector3.mk 0 0 (s * Vector3.norm (m_dir ray)).
Proof.
  intros Hd.
  pose proof (facing_d_nonzero_norm ray Hd) as Hn.
  pose proof (norm_square (m_dir ray)) as Hn2.
  pose proof (facing_d_square ray) as Hd2. cbv zeta in Hd2.
  assert (Hd0 : facing_d ray <> 0) by lra.
  rewrite (affine_transform_point _ _ (facing_affine ray)).
  unfold make_facing_curve_transform. cbv zeta.
  rewrite (proj2 (Rgeb_le (facing_d ray) 1.0e-6)) by exact Hd.
  revert Hn Hn2 Hd2 Hd0. generalize (facing_d ray). intros d.
  unfold Vector3.normalize, Vector3.dot, ray_point.
  generalize (Vector3.norm (m_dir ray)). intros n.
  destruct ray as [[ox oy oz] [dx dy dz]].
  cbv [m_dir m_org Vector3.div Vector3.add Vector3.mul Vector3.x Vector3.y Vector3.z
       facing_rotation_general translate_by_origin
       Matrix.e0 Matrix.e1 Matrix.e2 Matrix.e3 Matrix.e4 Matrix.e5 Matrix.e6
       Matrix.e7 Matrix.e8 Matrix.e9 Matrix.e10 Matrix.e11].
  intros Hn Hn2 Hd2 Hd0.
  apply Vector3_eq; cbn [Vector3.x Vector3.y Vector3.z].
  - field. split; assumption.
  - transitivity (s * dy * (d * d - (dx / n * (dx / n) + dz / n * (dz / n))) / d).
    + field. split; assumption.
    + rewrite Hd2. field. split; assumption.
  - transitivity (s * (dx * dx + dy * dy + dz * dz) / n).
    + field. assumption.
    + rewrite <- Hn2. field. assumption.
Qed.

Lemma norm_vertical (dy : R) :
  Vector3.norm (Vector3.mk 0 dy 0) = Rabs dy.
Proof.
  unfold Vector3.norm, Vector3.dot. cbn [Vector3.x Vector3.y Vector3.z].
  replace (0 * 0 + dy * dy + 0 * 0) with (Rsqr dy) by (unfold Rsqr; ring).
  apply sqrt_Rsqr_abs.
Qed.

Lemma frame_aligns_ray_vertical (ray : Ray) (s : R) :
  Vector3.x (m_dir ray) = 0 -> Vector3.z (m_dir ray) = 0 ->
  Vector3.y (m_dir ray) <> 0 ->
  transform_point (make_facing_curve_transform ray) (ray_point ray s)
  = Vector3.mk 0 0 (s * Vector3.norm (m_dir ray)).
Proof.
  destruct ray as [[ox oy oz] [dx dy dz]]. cbn [m_dir Vector3.x Vector3.y Vector3.z].
  intros -> -> Hy.
  assert (Habs : Rabs dy <> 0) by (apply Rabs_no_R0; exact Hy).
  assert (Hd : facing_d (mkRay (Vector3.mk ox oy oz) (Vector3.mk 0 dy 0)) = 0).
  { unfold facing_d, Vector3.normalize. cbn [m_dir]. rewrite norm_vertical.
    cbn [Vector3.div Vector3.x Vector3.z].
    replace (0 / Rabs dy * (0 / Rabs dy) + 0 / Rabs dy * (0 / Rabs dy)) with 0
      by (field; exact Habs).
    apply sqrt_0. }
  rewrite facing_fallback by (rewrite Hd; lra).
  unfold facing_rotation_fallback, Vector3.normalize. cbn [m_dir m_org].
  rewrite norm_vertical. cbn [Vector3.div Vector3.y].
  assert (Hq : forall q, q = 1 \/ q = -1 ->
             transform_point
               (translate_by_origin (Matrix.rotation_x (q * HalfPi)) (Vector3.mk ox oy oz))
               (ray_point (mkRay (Vector3.mk ox oy oz) (Vector3.mk 0 dy 0)) s)
             = Vector3.mk 0 0 (s * (q * dy))).
  { intros q Hq. rewrite (rotation_x_quarter q _ Hq).
    rewrite affine_transform_point by (repeat split).
    apply Vector3_eq;
      cbv [quarter_turn_frame ray_point m_org m_dir Vector3.add Vector3.mul
           Vector3.x Vector3.y Vector3.z
           Matrix.e0 Matrix.e1 Matrix.e2 Matrix.e3 Matrix.e4 Matrix.e5 Matrix.e6
           Matrix.e7 Matrix.e8 Matrix.e9 Matrix.e10 Matrix.e11]; ring. }
  destruct (Rgtb (dy / Rabs dy) 0) eqn:E.
  - apply Rgtb_lt in E.
    assert (Hpos : 0 < dy).
    { destruct (Rlt_dec 0 dy) as [Hp | Hn]; [exact Hp | exfalso].
      assert (Hneg : dy < 0) by lra.
      rewrite (Rabs_left dy Hneg) in E.
      replace (dy / - dy) with (-1) in E by (field; lra). lra. }
    rewrite <- (Rmult_1_l HalfPi). rewrite (Hq 1 (or_introl eq_refl)).
    rewrite (Rabs_right dy) by lra. f_equal. ring.
  - apply Rgtb_le in E.
    assert (Hneg : dy < 0).
    { destruct (Rlt_dec dy 0) as [Hn | Hp]; [exact Hn | exfalso].
      assert (Hpos : 0 < dy) by lra.
      rewrite (Rabs_right dy) in E by lra.
      replace (dy / dy) with 1 in E by (field; lra). lra. }
    replace (- HalfPi) with (-1 * HalfPi) by ring.
    rewrite (Hq (-1) (or_intror eq_refl)).
    rewrite (Rabs_left dy Hneg). f_equal. ring.
Qed.

(** X11. When the branch test passes ([d >= 1e-6]), or the direction is
    exactly along the y axis, the frame sends the ray point
    [org + s dir] to [(0, 0, s |dir|)]: the ray runs along +z and depth is
    the ray parameter times the length of the direction. *)
Theorem frame_aligns_ray :
  forall (ray : Ray) (s : R),
    1.0e-6 <= facing_d ray \/
    (Vector3.x (m_dir ray) = 0 /\ Vector3.z (m_dir ray) = 0 /\
     Vector3.y (m_dir ray) <> 0) ->
    transform_point (make_facing_curve_transform ray) (ray_point ray s)
    = Vector3.mk 0 0 (s * Vector3.norm (m_dir ray)).
Proof.
  intros ray s [Hd | (Hx & Hz & Hy)].
  - apply frame_aligns_ray_general; exact Hd.
  - apply frame_aligns_ray_vertical; assumption.
Qed.

(** ** Closest approach *)

Lemma clamped_projection_minimises (a b u v r w s : R) :
  0 < u * u + v * v ->
  r * (u * u + v * v) = - (a * u + b * v) ->
  w = saturate r ->
  0 <= s <= 1 ->
  (a + u * w) * (a + u * w) + (b + v * w) * (b + v * w)
  <= (a + u * s) * (a + u * s) + (b + v * s) * (b + v * s).
Proof.
  intros HL Hr Hw Hs. set (L := u * u + v * v) in *.
  assert (Hdiff : (a + u * s) * (a + u * s) + (b + v * s) * (b + v * s)
                  - ((a + u * w) * (a + u * w) + (b + v * w) * (b + v * w))
                  = L * ((s - w) * (s + w - 2 * r))).
  { replace (L * ((s - w) * (s + w - 2 * r)))
      with ((s - w) * ((s + w) * L - 2 * (r * L))) by ring.
    rewrite Hr. unfold L. ring. }
  assert (Hprod : 0 <= (s - w) * (s + w - 2 * r)).
  { subst w. unfold saturate, clamp.
    destruct (Rleb r 0) eqn:E0; [apply Rleb_le in E0 | apply Rleb_gt in E0].
    - replace ((s - 0) * (s + 0 - 2 * r)) with (s * (s - 2 * r)) by ring.
      apply Rmult_le_pos; lra.
    - destruct (Rgeb r 1) eqn:E1; [apply Rgeb_le in E1 | apply Rgeb_lt in E1].
      + replace ((s - 1) * (s + 1 - 2 * r)) with ((1 - s) * (2 * r - 1 - s)) by ring.
        apply Rmult_le_pos; lra.
      + replace ((s - r) * (s + r - 2 * r)) with ((s - r) * (s - r)) by ring.
        apply Rle_0_sqr. }
  pose proof (Rmult_le_pos L _ (Rlt_le _ _ HL) Hprod). lra.
Qed.

(** X13. When the first half of the base case yields [w], the chord point at
    [w] is, among the chord points with parameter in [0,1], one closest to
    the ray axis in the (x,y) plane. *)
Theorem segment_w_is_closest_approach :
  forall (N : nat) (C : BezierCurveType N) (curve : BezierCurveBase N) (w s : R),
    segment_w curve = Some w ->
    0 <= s <= 1 ->
    dist2xy (chord_point curve w) <= dist2xy (chord_point curve s).
Proof.
  intros N C curve w s Hw Hs. unfold segment_w in Hw. cbv zeta in Hw.
  destruct (Rgtb _ 0); [discriminate |].
  destruct (Rltb _ 0); [discriminate |].
  destruct (Rltb _ 1.0e-6) eqn:EL; [discriminate |].
  apply Rltb_ge in EL.
  pose proof (f_equal (fun o => match o with Some x => x | None => w end) Hw) as Hw'.
  cbv beta iota in Hw'. symmetry in Hw'. clear Hw.
  unfold dist2xy, chord_point. cbv zeta.
  cbn [Vector3.add Vector3.mul Vector3.x Vector3.y] in *.
  eapply clamped_projection_minimises; [| | exact Hw' | exact Hs].
  - lra.
  - field. lra.
Qed.

(** ** Recursion depth and flatness *)

(** X14. For two curves of the same degree N >= 2, the one with the larger
    second-difference bound and the smaller (positive) maximum width gets a
    recursion depth at least as large. *)
Theorem recursion_depth_monotone :
  forall (N : nat) (c1 c2 : BezierCurveBase N),
    (2 <= N)%nat ->
    0 < get_max_width c2 <= get_max_width c1 ->
    0 < Linf c1 <= Linf c2 ->
    (compute_max_recursion_depth c1 <= compute_max_recursion_depth c2)%nat.
Proof.
  intros N c1 c2 HN [Hw2 Hw] [Hl1 Hl].
  rewrite (depth_of_value c1 HN) by lra. rewrite (depth_of_value c2 HN) by lra.
  assert (HNr : 2 <= INR N) by (apply (le_INR 2 N HN)).
  assert (Hs : 0 < sqrt 2) by (apply sqrt_lt_R0; lra).
  assert (Hk : 0 < sqrt 2 * INR N * (INR N - 1)).
  { apply Rmult_lt_0_compat; [apply Rmult_lt_0_compat |]; lra. }
  set (k := sqrt 2 * INR N * (INR N - 1)) in *.
  assert (Hv1 : 0 < flatness_value c1).
  { unfold flatness_value. fold k. apply Rdiv_lt_0_compat; [| lra].
    apply Rmult_lt_0_compat; assumption. }
  assert (Hv : flatness_value c1 <= flatness_value c2).
  { unfold flatness_value. fold k.
    apply Rle_trans with (k * Linf c2 / (8 * (get_max_width c1 / 20))).
    - apply Rmult_le_compat_r; [left; apply Rinv_0_lt_compat; lra |].
      apply Rmult_le_compat_l; lra.
    - apply Rmult_le_compat_l; [apply Rmult_le_pos; lra |].
      apply Rinv_le_contravar; lra. }
  apply truncate_mono. split; [apply clamp_bounds; lra |].
  apply clamp_mono; [lra |].
  apply Rmult_le_compat_r; [left; apply RcpLog4_pos |].
  destruct Hv as [Hlt | Heq]; [left; apply ln_increasing; assumption | right; congruence].
Qed.

(** X15. A curve of degree N >= 2 with positive width whose bound
    sqrt 2 N (N-1) Linf does not exceed 8 eps, eps = max_width / 20, gets
    recursion depth 0. *)
Theorem flat_curve_needs_no_split :
  forall (N : nat) (c : BezierCurveBase N),
    (2 <= N)%nat ->
    0 < get_max_width c ->
    0 < Linf c ->
    sqrt 2 * INR N * (INR N - 1) * Linf c <= 8 * (get_max_width c / 20) ->
    compute_max_recursion_depth c = 0%nat.
Proof.
  intros N c HN Hw Hl Hflat.
  rewrite (depth_of_value c HN Hw).
  assert (HNr : 2 <= INR N) by (apply (le_INR 2 N HN)).
  assert (Hs : 0 < sqrt 2) by (apply sqrt_lt_R0; lra).
  assert (Hk : 0 < sqrt 2 * INR N * (INR N - 1) * Linf c).
  { repeat apply Rmult_lt_0_compat; lra. }
  assert (Hv0 : 0 < flatness_value c).
  { unfold flatness_value. apply Rdiv_lt_0_compat; lra. }
  assert (Hv1 : flatness_value c <= 1).
  { unfold flatness_value. apply (Rmult_le_reg_r (8 * (get_max_width c / 20))); [lra |].
    unfold Rdiv at 1. rewrite Rmult_assoc, Rinv_l by lra. lra. }
  assert (Hln : ln (flatness_value c) <= 0).
  { rewrite <- ln_1. destruct Hv1 as [Hlt | Heq];
      [left; apply ln_increasing; assumption | right; congruence]. }
  assert (Hr : ln (flatness_value c) * RcpLog4 <= 0).
  { pose proof RcpLog4_pos. nra. }
  unfold clamp. rewrite (proj2 (Rleb_le _ 0)) by exact Hr. apply truncate_zero.
Qed.

(** ** Scattering modes *)

Lemma land_bit_zero (m : Z) (k : Z) :
  (0 <= k)%Z -> (Z.land m (Z.shiftl 1 k) =? 0)%Z = negb (Z.testbit m k).
Proof.
  intros Hk. rewrite Z.shiftl_1_l.
  destruct (Z.testbit m k) eqn:Eb; cbn [negb].
  - apply Z.eqb_neq. intros H0.
    assert (Hbit : Z.testbit (Z.land m (2 ^ k)) k = true).
    { rewrite Z.land_spec, Eb, Z.pow2_bits_true by exact Hk. reflexivity. }
    rewrite H0, Z.bits_0 in Hbit. discriminate.
  - apply Z.eqb_eq. apply Z.bits_inj'. intros i Hi.
    rewrite Z.land_spec, Z.bits_0, Z.pow2_bits_eqb by exact Hk.
    destruct (Z.eqb_spec k i) as [<- | Hne]; [rewrite Eb; reflexivity |].
    apply andb_false_r.
Qed.

Lemma land_lor_zero (m a b : Z) :
  (Z.land m (Z.lor a b) =? 0)%Z = ((Z.land m a =? 0) && (Z.land m b =? 0))%Z.
Proof.
  rewrite Z.land_lor_distr_r.
  destruct (Z.eqb_spec (Z.lor (Z.land m a) (Z.land m b)) 0) as [H0 | Hn].
  - apply Z.lor_eq_0_iff in H0. destruct H0 as [-> ->]. reflexivity.
  - symmetry. apply andb_false_iff.
    destruct (Z.eqb_spec (Z.land m a) 0) as [Ha | Ha]; [| left; reflexivity].
    destruct (Z.eqb_spec (Z.land m b) 0) as [Hb | Hb]; [| right; reflexivity].
    exfalso. apply Hn. apply Z.lor_eq_0_iff. split; assumption.
Qed.

(** X17. The scattering-mode tests read bits 0, 1 and 2 of the mode mask, and
    the two combined tests are the disjunctions of the single ones. *)
Theorem scattering_mode_tests :
  forall modes : Z,
    ScatteringMode.has_diffuse modes = Z.testbit modes 0 /\
    ScatteringMode.has_glossy modes = Z.testbit modes 1 /\
    ScatteringMode.has_specular modes = Z.testbit modes 2 /\
    ScatteringMode.has_diffuse_or_glossy modes
      = ScatteringMode.has_diffuse modes || ScatteringMode.has_glossy modes /\
    ScatteringMode.has_glossy_or_specular modes
      = ScatteringMode.has_glossy modes || ScatteringMode.has_specular modes.
Proof.
  intros modes.
  unfold ScatteringMode.has_diffuse, ScatteringMode.has_glossy,
    ScatteringMode.has_specular, ScatteringMode.has_diffuse_or_glossy,
    ScatteringMode.has_glossy_or_specular, ScatteringMode.Diffuse,
    ScatteringMode.Glossy, ScatteringMode.Specular.
  rewrite !land_lor_zero, !land_bit_zero by lia.
  rewrite !negb_involutive, !negb_andb, !negb_involutive.
  repeat split; reflexivity.
Qed.

(** ** Culling *)

Lemma hull_control_point {n : nat} (pts : array Vector3.t n) (i : nat) :
  (i < n)%nat -> AABB.contains (hull_box pts) (get Vector3.zero pts i).
Proof.
  intros Hi.
  assert (Hin : In (get Vector3.zero pts i) (to_list pts)) by (apply in_to_list; exact Hi).
  unfold AABB.contains, hull_box.
  cbn [AABB.min AABB.max Vector3.x Vector3.y Vector3.z].
  pose proof (Rmin_list_le _ _ (in_map Vector3.x _ _ Hin)).
  pose proof (Rmin_list_le _ _ (in_map Vector3.y _ _ Hin)).
  pose proof (Rmin_list_le _ _ (in_map Vector3.z _ _ Hin)).
  pose proof (Rmax_list_ge _ _ (in_map Vector3.x _ _ Hin)).
  pose proof (Rmax_list_ge _ _ (in_map Vector3.y _ _ Hin)).
  pose proof (Rmax_list_ge _ _ (in_map Vector3.z _ _ Hin)).
  lra.
Qed.

Lemma hull_contains1 (c : BezierCurveBase 1) (t : R) :
  0 <= t <= 1 -> AABB.contains (hull_box (m_ctrl_pts c)) (evaluate_point c t).
Proof.
  intros Ht.
  pose proof (hull_control_point (m_ctrl_pts c) 0 ltac:(lia)) as (Hx0 & Hy0 & Hz0).
  pose proof (hull_control_point (m_ctrl_pts c) 1 ltac:(lia)) as (Hx1 & Hy1 & Hz1).
  revert Hx0 Hy0 Hz0 Hx1 Hy1 Hz1. unfold AABB.contains.
  generalize (hull_box (m_ctrl_pts c)). intros b.
  destruct c as [[p0 [p1 []]] ws mw bb]. run_geometry. intros.
  split; [| split]; apply bernstein1_between; tauto.
Qed.

Lemma hull_contains2 (c : BezierCurveBase 2) (t : R) :
  0 <= t <= 1 -> AABB.contains (hull_box (m_ctrl_pts c)) (evaluate_point c t).
Proof.
  intros Ht.
  pose proof (hull_control_point (m_ctrl_pts c) 0 ltac:(lia)) as (Hx0 & Hy0 & Hz0).
  pose proof (hull_control_point (m_ctrl_pts c) 1 ltac:(lia)) as (Hx1 & Hy1 & Hz1).
  pose proof (hull_control_point (m_ctrl_pts c) 2 ltac:(lia)) as (Hx2 & Hy2 & Hz2).
  revert Hx0 Hy0 Hz0 Hx1 Hy1 Hz1 Hx2 Hy2 Hz2. unfold AABB.contains.
  generalize (hull_box (m_ctrl_pts c)). intros b.
  destruct c as [[p0 [p1 [p2 []]]] ws mw bb]. run_geometry. intros.
  split; [| split]; apply bernstein2_between; tauto.
Qed.

Lemma hull_contains3 (c : BezierCurveBase 3) (t : R) :
  0 <= t <= 1 -> AABB.contains (hull_box (m_ctrl_pts c)) (evaluate_point c t).
Proof.
  intros Ht.
  pose proof (hull_control_point (m_ctrl_pts c) 0 ltac:(lia)) as (Hx0 & Hy0 & Hz0).
  pose proof (hull_control_point (m_ctrl_pts c) 1 ltac:(lia)) as (Hx1 & Hy1 & Hz1).
  pose proof (hull_control_point (m_ctrl_pts c) 2 ltac:(lia)) as (Hx2 & Hy2 & Hz2).
  pose proof (hull_control_point (m_ctrl_pts c) 3 ltac:(lia)) as (Hx3 & Hy3 & Hz3).
  revert Hx0 Hy0 Hz0 Hx1 Hy1 Hz1 Hx2 Hy2 Hz2 Hx3 Hy3 Hz3. unfold AABB.contains.
  generalize (hull_box (m_ctrl_pts c)). intros b.
  destruct c as [[p0 [p1 [p2 [p3 []]]]] ws mw bb]. run_geometry. intros.
  split; [| split]; apply bernstein3_between; tauto.
Qed.

Section Cull.

Context {N : nat} `{BezierCurveType N}.

Hypothesis hull_contains : forall (c : BezierCurveBase N) (w : R),
  0 <= w <= 1 -> AABB.contains (hull_box (m_ctrl_pts c)) (evaluate_point c w).

Hypothesis width_range : forall (c : BezierCurveBase N) (w : R),
  cache_current c -> widths_nonneg (m_width c) -> 0 <= w <= 1 ->
  0 <= evaluate_width c w <= get_max_width c.

(** The depth and radius tests fail at every point of a culled curve. *)
Lemma culled_point_rejected (c : BezierCurveBase N) (t w : R) :
  cache_current c -> widths_nonneg (m_width c) -> 0 <= w <= 1 ->
  culled c t = true ->
  let p := evaluate_point c w in
  let half_width := 0.5 * evaluate_width c w in
  Vector3.z p <= 1.0e-6 \/ t < Vector3.z p \/ half_width * half_width <= dist2xy p.
Proof.
  intros Hcur Hnn Hw Hcull. cbv zeta.
  destruct (cache_current_spec c Hcur) as [Hmw Hbb].
  pose proof (max_radius_nonneg c Hnn) as Hr.
  pose proof (width_range c w Hcur Hnn Hw) as Hwr.
  destruct (hull_contains c w Hw) as (Hx & Hy & Hz).
  unfold culled, get_bbox, get_max_width in *. cbv zeta in Hcull.
  rewrite Hbb in Hcull. rewrite Hmw in Hcull, Hwr.
  unfold spec_bbox in Hcull.
  cbn [AABB.robust_grow AABB.grow AABB.min AABB.max Vector3.sub Vector3.add
       Vector3.splat Vector3.x Vector3.y Vector3.z] in Hcull.
  set (hw := 0.5 * evaluate_width c w) in *.
  assert (Hhw : 0 <= hw <= max_radius c * 0.5) by (unfold hw; lra).
  unfold dist2xy.
  set (p := evaluate_point c w) in *.
  repeat (apply orb_true_iff in Hcull; destruct Hcull as [Hcull | Hcull]).
  - apply Rgeb_le in Hcull. right. left. lra.
  - apply Rleb_le in Hcull. left. lra.
  - apply Rgeb_le in Hcull. right. right.
    assert (Hpx : hw < Vector3.x p) by lra. nra.
  - apply Rleb_le in Hcull. right. right.
    assert (Hpx : Vector3.x p < - hw) by lra. nra.
  - apply Rgeb_le in Hcull. right. right.
    assert (Hpy : hw < Vector3.y p) by lra. nra.
  - apply Rleb_le in Hcull. right. right.
    assert (Hpy : Vector3.y p < - hw) by lra. nra.
Qed.

End Cull.

Section CullChain.

Context {N : nat} `{BezierCurveType N}.

Lemma chain_constructed original_curve xfm (n : nat) (a b : Call) :
  call_chain original_curve xfm n a b ->
  constructed (call_curve a) -> constructed (call_curve b).
Proof.
  induction 1 as [a | n a b c Hcall _ IH]; intros Ha; [exact Ha |].
  apply IH. destruct Hcall; cbn [call_curve] in *.
  - apply constructed_split_left. exact Ha.
  - apply constructed_split_right. exact Ha.
Qed.

Hypothesis point_split : forall (c : BezierCurveBase N) (t : R),
  evaluate_point (fst (split c)) (2 * t) = evaluate_point c t /\
  evaluate_point (snd (split c)) (2 * t - 1) = evaluate_point c t.
Hypothesis width_split : width_split_exact N.
Hypothesis commutes : evaluation_commutes N.
Hypothesis sound : forall c : BezierCurveBase N,
  constructed c -> cache_current c /\ widths_nonneg (m_width c).
Hypothesis hull_contains : forall (c : BezierCurveBase N) (w : R),
  0 <= w <= 1 -> AABB.contains (hull_box (m_ctrl_pts c)) (evaluate_point c w).
Hypothesis width_range : forall (c : BezierCurveBase N) (w : R),
  cache_current c -> widths_nonneg (m_width c) -> 0 <= w <= 1 ->
  0 <= evaluate_width c w <= get_max_width c.

Lemma cull_loses_nothing : cull_conservative N.
Proof.
  intros curve xfm t0 n b Hcons Haff Hchain Hcull w Hw.
  assert (Hb : constructed (call_curve b)).
  { apply (chain_constructed curve xfm n _ b Hchain).
    cbn [initial_call call_curve]. apply constructed_xfm. exact Hcons. }
  destruct (sound _ Hb) as [Hcur Hnn].
  destruct (call_chain_tracks point_split width_split curve xfm
              (BezierCurveBase_xfm curve xfm) n _ b Hchain
              (tracks_initial curve xfm t0)) as [Htr _];
    [cbn [initial_call call_v0 call_vn]; lra |].
  destruct (Htr w) as [Hpt _].
  pose proof (culled_point_rejected hull_contains width_range
                (call_curve b) (call_t b) w Hcur Hnn Hw Hcull) as Hrej.
  cbv zeta in Hrej.
  unfold accept_hit, hit_point, hit_half_width. cbv zeta.
  rewrite (commutes curve xfm _ Haff), <- Hpt.
  unfold dist2xy in Hrej.
  destruct Hrej as [Hz | [Hz | Hd]].
  - rewrite (proj2 (Rleb_le _ _) Hz). reflexivity.
  - rewrite (proj2 (Rltb_lt _ _) Hz). rewrite orb_true_r. reflexivity.
  - destruct (_ || _); [reflexivity |].
    rewrite (proj2 (Rgeb_le _ _) Hd). reflexivity.
Qed.

End CullChain.

(** X16. Culling is conservative: for a constructed curve and a matrix with
    last row (0,0,0,1), whenever the six-sided test rejects a sub-curve of
    the recursion, the acceptance test of the base case fails at every
    parameter of that sub-curve. *)
Theorem culling_never_loses_a_hit :
  cull_conservative 1 /\ cull_conservative 2 /\ cull_conservative 3.
Proof.
  split; [| split].
  - apply (cull_loses_nothing
             (fun c t => conj (split1_left c t) (split1_right c t))
             width_split1 evaluation_commutes1
             (constructed_sound split1_current split1_nonneg)
             hull_contains1).
    intros c w Hcur Hnn Hw. apply width1_between; [exact Hw |].
    apply constructed_width_range; assumption.
  - apply (cull_loses_nothing
             (fun c t => conj (split2_left c t) (split2_right c t))
             width_split2 evaluation_commutes2
             (constructed_sound split2_current split2_nonneg)
             hull_contains2).
    intros c w Hcur Hnn Hw. apply width2_between; [exact Hw |].
    apply constructed_width_range; assumption.
  - apply (cull_loses_nothing
             (fun c t => conj (split3_left c t) (split3_right c t))
             width_split3 evaluation_commutes3
             (constructed_sound split3_current split3_nonneg)
             hull_contains3).
    intros c w Hcur Hnn Hw. apply width3_between; [exact Hw |].
    apply constructed_width_range; assumption.
Qed.

(** ** Instances of the properties with hypotheses *)

Lemma compute_max_width_is_maximum_witness :
  get 0 (arr2 0.2 0.5) 1 <= compute_max_width (arr2 0.2 0.5).
Proof.
  apply (proj1 (compute_max_width_is_maximum 1 (arr2 0.2 0.5)) 1%nat). lia.
Defined.

Lemma split_children_no_wider_witness :
  get_max_width (fst (split Canonical.arc)) <= get_max_width Canonical.arc.
Proof.
  apply (proj1 (proj1 (proj2 split_children_no_wider) Canonical.arc eq_refl)).
Defined.

Lemma canonical_hit_1000 :
  intersect Canonical.curve Canonical.ray Matrix.identity 1000 = (true, 5).
Proof.
  rewrite canonical_intersect_identity.
  rewrite (proj2 (Rleb_le 5 1000)) by lra. reflexivity.
Qed.

Lemma hit_within_bound_witness :
  exists z : R,
    5 = z / Vector3.norm (m_dir Canonical.ray) /\ 1.0e-6 < z <= 1000.
Proof.
  apply (proj1 (hit_within_bound 1 BezierCurve1 Canonical.curve Canonical.ray
                                 Matrix.identity 1000) 5).
  apply canonical_hit_1000.
Defined.

Lemma larger_bound_keeps_hit_witness :
  fst (intersect Canonical.curve Canonical.ray Matrix.identity 1000) = true.
Proof.
  apply (larger_bound_keeps_hit 1 BezierCurve1 Canonical.curve Canonical.ray
                                Matrix.identity 5 1000).
  - lra.
  - rewrite canonical_intersect_identity.
    rewrite (proj2 (Rleb_le 5 5)) by lra. reflexivity.
Defined.

Lemma hit_is_on_the_tube_witness :
  exists v : R,
    0 <= v <= 1 /\
    let p := transform_point Matrix.identity (evaluate_point Canonical.curve v) in
    let half_width := 0.5 * evaluate_width Canonical.curve v in
    5 = Vector3.z p / Vector3.norm (m_dir Canonical.ray) /\
    1.0e-6 < Vector3.z p <= 1000 /\
    dist2xy p < half_width * half_width.
Proof.
  apply (proj1 hit_is_on_the_tube Canonical.curve Canonical.ray Matrix.identity
               1000 5).
  apply canonical_hit_1000.
Defined.

Lemma frame_aligns_ray_witness :
  transform_point (make_facing_curve_transform Canonical.ray_up)
                  (ray_point Canonical.ray_up 3)
  = Vector3.mk 0 0 (3 * Vector3.norm (m_dir Canonical.ray_up)).
Proof.
  apply (frame_aligns_ray Canonical.ray_up 3). right.
  cbn [Canonical.ray_up m_dir Vector3.x Vector3.y Vector3.z].
  split; [reflexivity | split; [reflexivity | lra]].
Defined.

Lemma affine_transform_commutes_with_evaluation_witness :
  transform_point Matrix.identity (evaluate_point Canonical.arc 0.5)
  = evaluate_point (BezierCurveBase_xfm Canonical.arc Matrix.identity) 0.5.
Proof.
  apply (proj1 (proj2 affine_transform_commutes_with_evaluation)
               Canonical.arc Matrix.identity 0.5).
  repeat split.
Defined.

Lemma segment_w_is_closest_approach_witness :
  dist2xy (chord_point Canonical.curve 0.5)
  <= dist2xy (chord_point Canonical.curve 0.25).
Proof.
  apply (segment_w_is_closest_approach 1 BezierCurve1 Canonical.curve 0.5 0.25).
  - apply canonical_segment_w.
  - lra.
Defined.

Ltac settle_abs :=
  repeat match goal with
  | |- context [Rabs ?a] =>
      first [ rewrite (Rabs_right a) by lra | rewrite (Rabs_left a) by lra ]
  end.

Ltac run_linf :=
  cbv [Linf second_diff get_control_point Canonical.arc Examples.bulge
       Examples.shallow Examples.cube_of_four Examples.hairline
       Examples.straight BezierCurveBase_uniform make_curve m_ctrl_pts arr3 get
       fst snd seq flat_map app Rmax_list fold_right Nat.sub Nat.add
       Vector3.x Vector3.y Vector3.z];
  settle_abs; settle_order.

Lemma Linf_arc : Linf Canonical.arc = 2.
Proof. run_linf. lra. Qed.

Lemma Linf_bulge : Linf Examples.bulge = 4.
Proof. run_linf. lra. Qed.

Lemma Linf_shallow : Linf Examples.shallow = 0.002.
Proof. run_linf. lra. Qed.

Lemma recursion_depth_monotone_witness :
  (compute_max_recursion_depth Canonical.arc
   <= compute_max_recursion_depth Examples.bulge)%nat.
Proof.
  apply (recursion_depth_monotone 2 Canonical.arc Examples.bulge).
  - lia.
  - unfold Canonical.arc, Examples.bulge. rewrite !uniform_max_width. lra.
  - rewrite Linf_arc, Linf_bulge. lra.
Defined.

Lemma sqrt2_lt_2 : sqrt 2 < 2.
Proof.
  replace 2 with (sqrt 4) at 2.
  - apply sqrt_lt_1; lra.
  - replace 4 with (2 * 2) by ring. apply sqrt_square. lra.
Qed.

Lemma flat_curve_needs_no_split_witness :
  compute_max_recursion_depth Examples.shallow = 0%nat.
Proof.
  apply (flat_curve_needs_no_split 2 Examples.shallow).
  - lia.
  - unfold Examples.shallow. rewrite uniform_max_width. lra.
  - rewrite Linf_shallow. lra.
  - unfold Examples.shallow at 2. rewrite uniform_max_width, Linf_shallow.
    cbn [INR]. pose proof sqrt2_lt_2. pose proof (sqrt_pos 2). nra.
Defined.

Lemma culling_never_loses_a_hit_witness :
  accept_hit Canonical.curve
             (call_curve (initial_call Matrix.identity Canonical.curve 1))
             Matrix.identity
             (call_v0 (initial_call Matrix.identity Canonical.curve 1))
             (call_vn (initial_call Matrix.identity Canonical.curve 1))
             0.5
             (call_t (initial_call Matrix.identity Canonical.curve 1))
  = (false, call_t (initial_call Matrix.identity Canonical.curve 1)).
Proof.
  apply (proj1 culling_never_loses_a_hit Canonical.curve Matrix.identity 1 0%nat).
  - apply constructed_uniform. lra.
  - repeat split.
  - apply chain_here.
  - cbn [initial_call call_curve call_t].
    rewrite xfm_identity_canonical, canonical_culled.
    apply Rgeb_le. lra.
  - lra.
Defined.

Lemma Linf_cube_of_four : Linf Examples.cube_of_four = 2.
Proof. run_linf. lra. Qed.

Lemma Linf_hairline : Linf Examples.hairline = 2.
Proof. run_linf. lra. Qed.

Lemma Linf_straight : Linf Examples.straight = 0.
Proof. run_linf. lra. Qed.


Lemma cube_of_four_flatness : flatness_value Examples.cube_of_four = 64.
Proof.
  unfold flatness_value. rewrite Linf_cube_of_four.
  unfold Examples.cube_of_four. rewrite uniform_max_width.
  assert (Hs : 0 < sqrt 2) by (apply sqrt_lt_R0; lra).
  cbn [INR]. replace 0.15625 with (5 / 32) by lra. field. lra.
Qed.

Lemma ln_64 : ln 64 = 3 * ln 4.
Proof.
  replace 64 with (4 * (4 * 4)) by lra. rewrite !ln_mult by lra. ring.
Qed.


Lemma xfm_identity_arc :
  BezierCurveBase_xfm Canonical.arc Matrix.identity = Canonical.arc.
Proof.
  unfold BezierCurveBase_xfm, Canonical.arc, BezierCurveBase_uniform.
  cbn [m_ctrl_pts m_width make_curve amap arr3 fst snd afill].
  rewrite !transform_point_identity. reflexivity.
Qed.

Lemma arc_not_culled : culled Canonical.arc 7 = false.
Proof.
  cbv [culled get_bbox get_max_width Canonical.arc BezierCurveBase_uniform make_curve
       compute_max_width compute_bbox m_bbox m_max_width
       arr3 get afill fold_left seq fst snd
       Vector3.x Vector3.y Vector3.z Vector3.zero Vector3.splat Vector3.add
       Vector3.sub AABB.min AABB.max AABB.of_point AABB.insert AABB.grow
       AABB.robust_grow].
  settle_order. reflexivity.
Qed.

Lemma exp_2_le_9 : exp 2 <= 9.
Proof.
  replace 2 with (1 + 1) by lra. rewrite exp_plus.
  pose proof exp_le_3. pose proof (exp_pos 1). nra.
Qed.

Lemma arc_depth_positive : (1 <= compute_max_recursion_depth Canonical.arc)%nat.
Proof.
  assert (Hw : get_max_width Canonical.arc = 0.2)
    by (unfold Canonical.arc; apply uniform_max_width).
  rewrite depth_of_value by (try lia; rewrite Hw; lra).
  assert (Hv : flatness_value Canonical.arc = 50 * sqrt 2).
  { unfold flatness_value. rewrite Linf_arc, Hw. cbn [INR]. lra. }
  rewrite Hv.
  assert (Hs : 1 <= sqrt 2).
  { rewrite <- sqrt_1 at 1. apply sqrt_le_1_alt. lra. }
  assert (Hln : 2 < ln (50 * sqrt 2)).
  { rewrite <- (ln_exp 2) at 1. apply ln_increasing; [apply exp_pos |].
    pose proof exp_2_le_9. lra. }
  replace 1%nat with (truncate (clamp 1 0 5)).
  - apply truncate_mono. split; [apply clamp_bounds; lra |].
    apply clamp_mono; [lra |]. unfold RcpLog4. lra.
  - unfold clamp. settle_order. apply (truncate_int 1). simpl. lra.
Qed.

Lemma arc_first_call :
  let start := initial_call Matrix.identity Canonical.arc 7 in
  call_chain Canonical.arc Matrix.identity 1 start
    (mkCall (pred (call_depth start)) (fst (split (call_curve start)))
            0 ((0 + 1) * 0.5) 7).
Proof.
  cbv zeta. unfold initial_call. cbn [call_depth call_curve].
  rewrite xfm_identity_arc.
  pose proof arc_depth_positive as Hd.
  destruct (compute_max_recursion_depth Canonical.arc) as [| d]; [lia |].
  cbn [pred].
  apply chain_down with (mkCall d (fst (split Canonical.arc)) 0 ((0 + 1) * 0.5) 7);
    [| apply chain_here].
  apply call_first. apply arc_not_culled.
Qed.

Lemma canonical_hit_at_root :
  let start := initial_call Matrix.identity Canonical.curve 7 in
  converge (call_depth start) Canonical.curve (call_curve start) Matrix.identity
           (call_v0 start) (call_vn start) (call_t start) = (true, 5).
Proof.
  cbv zeta. unfold initial_call. cbn [call_depth call_curve call_v0 call_vn call_t].
  rewrite xfm_identity_canonical, canonical_depth.
  cbn [converge]. rewrite canonical_culled.
  unfold converge_leaf. rewrite canonical_segment_w.
  settle_order. apply canonical_accept. lra.
Qed.

Lemma subdivision_tracks_parameter_range_witness :
  let start := initial_call Matrix.identity Canonical.arc 7 in
  let b := mkCall (pred (call_depth start)) (fst (split (call_curve start)))
                  0 ((0 + 1) * 0.5) 7 in
  let root := initial_call Matrix.identity Canonical.curve 7 in
  call_chain Canonical.arc Matrix.identity 1 start b /\
  (tracks_range (BezierCurveBase_xfm Canonical.arc Matrix.identity) b /\
   0 <= call_v0 b /\ call_vn b <= 1 /\ call_vn b - call_v0 b = (/ 2) ^ 1) /\
  exists leaf : Call,
    call_chain Canonical.curve Matrix.identity (call_depth root) root leaf /\
    call_depth leaf = 0%nat /\
    culled (call_curve leaf) (call_t leaf) = false /\
    converge_leaf Canonical.curve (call_curve leaf) Matrix.identity
                  (call_v0 leaf) (call_vn leaf) (call_t leaf) = (true, 5).
Proof.
  cbv zeta. split; [apply arc_first_call |]. split.
  - apply (proj1 (proj2 (proj1 subdivision_tracks_parameter_range))
                 Canonical.arc Matrix.identity 7 1%nat).
    apply arc_first_call.
  - apply (proj1 (proj1 (proj2 subdivision_tracks_parameter_range)
                        Canonical.curve Matrix.identity 7 5)).
    apply canonical_hit_at_root.
Defined.
